(** * deck.gl-raster: tile cache, tile prioritizer, tile loader and projection

    A shallow embedding of the tile loading core of deck.gl-raster
    (src/web-mercator.ts, which holds the projection, the tile prioritizer
    and the LRU tile cache, and src/tile-loader.ts) together with the
    properties of its specification.

    Conventions of the embedding.
    - A JavaScript [number] that the code uses as an integer (sizes in bytes,
      access counters, generations, tile indices, zoom levels) is a [Z];
      a [number] that holds a coordinate in degrees or metres is a real [R].
    - A JavaScript [Map] is an association list in insertion order
      ([JsMap.t]); a [Set] of strings is a list in insertion order.
    - Strings are [string]s of 8-bit characters (code units below 256).
    - Tile records are objects shared by reference: they live in a heap
      and the tile map holds their addresses.
    - A [while] loop whose termination the code does not make evident takes
      a [fuel] argument and returns [None] when the fuel runs out.
    - The code evaluates its formulas in IEEE doubles; the reals of the
      embedding do not model rounding, overflow or the saturation of
      [Math.atan].  Properties of the real-valued functions are therefore
      stated on ranges where none of these occurs, and either as exact
      identities of the formulas or in a form that rounding preserves. *)

From Stdlib Require Import ZArith List String Ascii Bool Lia.
From Stdlib Require Import Permutation Sorted FinFun.
From Stdlib Require Import DecimalString DecimalZ.
From Stdlib Require Import Reals Lra.
Import ListNotations.

Local Open Scope string_scope.
Local Open Scope list_scope.
Local Open Scope Z_scope.

(* ================================================================== *)
(** ** JavaScript [Map] with string keys, in insertion order *)
(* ================================================================== *)

Module JsMap.
Section Ops.
Context {V : Type}.

Definition t := list (string * V).

Definition empty : t := [].

Fixpoint get (k : string) (m : t) : option V :=
  match m with
  | [] => None
  | (k', v) :: m' => if String.eqb k k' then Some v else get k m'
  end.

Definition has (k : string) (m : t) : bool :=
  match get k m with Some _ => true | None => false end.

(** [Map.prototype.set]: an existing key keeps its position, a new key
    goes to the end. *)
Fixpoint set (k : string) (v : V) (m : t) : t :=
  match m with
  | [] => [(k, v)]
  | (k', v') :: m' =>
      if String.eqb k k' then (k, v) :: m' else (k', v') :: set k v m'
  end.

Fixpoint delete (k : string) (m : t) : t :=
  match m with
  | [] => []
  | (k', v') :: m' =>
      if String.eqb k k' then m' else (k', v') :: delete k m'
  end.

Definition size (m : t) : Z := Z.of_nat (List.length m).

Definition keys (m : t) : list string := map fst m.

Definition values (m : t) : list V := map snd m.
End Ops.
Arguments t : clear implicits.
End JsMap.

(** JavaScript truthiness of a string: only the empty string is falsy. *)
Definition truthy_string (s : string) : bool :=
  match s with EmptyString => false | String _ _ => true end.

(* ================================================================== *)
(** ** LRU tile cache (class [LRUTileCache]) *)
(* ================================================================== *)

Module Cache.

Record CacheEntry (T : Type) : Type := mkEntry {
  key : string;
  value : T;
  size : Z;
  lastAccess : Z;
  generation : Z
}.
Arguments mkEntry {T}.
Arguments key {T}.
Arguments value {T}.
Arguments size {T}.
Arguments lastAccess {T}.
Arguments generation {T}.

Record TileCacheStats : Type := mkStats {
  stat_entries : Z;
  stat_totalSize : Z;
  stat_maxSize : Z;
  hits : Z;
  misses : Z;
  evictions : Z
}.

Record LRUTileCache (T : Type) : Type := mkCache {
  entries : JsMap.t (CacheEntry T);
  accessCounter : Z;
  totalSize : Z;
  maxSize : Z;
  stats : TileCacheStats
}.
Arguments mkCache {T}.
Arguments entries {T}.
Arguments accessCounter {T}.
Arguments totalSize {T}.
Arguments maxSize {T}.
Arguments stats {T}.

Section Ops.
Context {T : Type}.
Local Abbreviation cache := (LRUTileCache T).

(** [constructor(maxSizeMB)] *)
Definition new (maxSizeMB : Z) : cache :=
  let maxSize := maxSizeMB * 1024 * 1024 in
  {| entries := JsMap.empty;
     accessCounter := 0;
     totalSize := 0;
     maxSize := maxSize;
     stats := {| stat_entries := 0; stat_totalSize := 0;
                 stat_maxSize := maxSize;
                 hits := 0; misses := 0; evictions := 0 |} |}.

Definition with_hits (s : TileCacheStats) (n : Z) : TileCacheStats :=
  mkStats (stat_entries s) (stat_totalSize s) (stat_maxSize s)
          n (misses s) (evictions s).

Definition with_misses (s : TileCacheStats) (n : Z) : TileCacheStats :=
  mkStats (stat_entries s) (stat_totalSize s) (stat_maxSize s)
          (hits s) n (evictions s).

Definition with_evictions (s : TileCacheStats) (n : Z) : TileCacheStats :=
  mkStats (stat_entries s) (stat_totalSize s) (stat_maxSize s)
          (hits s) (misses s) n.

(** [updateStats()] *)
Definition updateStats (c : cache) : cache :=
  mkCache (entries c) (accessCounter c) (totalSize c) (maxSize c)
    (mkStats (JsMap.size (entries c)) (totalSize c)
             (stat_maxSize (stats c))
             (hits (stats c)) (misses (stats c)) (evictions (stats c))).

(** [get(key)]: the entry object is updated in place, so it keeps its
    position in the map. *)
Definition get (k : string) (c : cache) : option T * cache :=
  match JsMap.get k (entries c) with
  | Some entry =>
      let n := accessCounter c + 1 in
      let entry' := mkEntry (key entry) (value entry) (size entry) n
                            (generation entry) in
      (Some (value entry),
       mkCache (JsMap.set k entry' (entries c)) n (totalSize c) (maxSize c)
               (with_hits (stats c) (hits (stats c) + 1)))
  | None =>
      (None,
       mkCache (entries c) (accessCounter c) (totalSize c) (maxSize c)
               (with_misses (stats c) (misses (stats c) + 1)))
  end.

(** [has(key)] *)
Definition has (k : string) (c : cache) : bool := JsMap.has k (entries c).

(** [delete(key)] *)
Definition delete (k : string) (c : cache) : bool * cache :=
  match JsMap.get k (entries c) with
  | Some entry =>
      (true,
       updateStats
         (mkCache (JsMap.delete k (entries c)) (accessCounter c)
                  (totalSize c - size entry) (maxSize c) (stats c)))
  | None => (false, c)
  end.

(** [clear()] *)
Definition clear (c : cache) : cache :=
  updateStats (mkCache JsMap.empty 0 0 (maxSize c) (stats c)).

(** [invalidateOldGenerations(currentGeneration)]: a first pass collects
    the keys, a second one deletes them. *)
Definition keysToDelete (currentGeneration : Z) (c : cache) : list string :=
  map fst
    (filter (fun ke => generation (snd ke) <? currentGeneration) (entries c)).

Definition invalidateOldGenerations (currentGeneration : Z) (c : cache)
  : cache :=
  fold_left (fun c k => snd (delete k c))
            (keysToDelete currentGeneration c) c.

(** The scan of [evictLRU]: [lruKey] starts at [null] and [minAccess] at
    [Infinity] (here [None]); an entry replaces the candidate when its
    [lastAccess] is strictly smaller. *)
Definition lt_minAccess (a : Z) (minAccess : option Z) : bool :=
  match minAccess with
  | None => true
  | Some m => a <? m
  end.

Definition scanStep (acc : option string * option Z)
           (ke : string * CacheEntry T) : option string * option Z :=
  if lt_minAccess (lastAccess (snd ke)) (snd acc)
  then (Some (fst ke), Some (lastAccess (snd ke)))
  else acc.

Definition scanLRU (m : JsMap.t (CacheEntry T)) : option string * option Z :=
  fold_left scanStep m (None, None).

(** [evictLRU()]: the eviction is committed only when [lruKey] is truthy,
    that is, neither [null] nor the empty string. *)
Definition evictLRU (c : cache) : cache :=
  match fst (scanLRU (entries c)) with
  | Some lruKey =>
      if truthy_string lruKey then
        match JsMap.get lruKey (entries c) with
        | Some entry =>
            mkCache (JsMap.delete lruKey (entries c)) (accessCounter c)
                    (totalSize c - size entry) (maxSize c)
                    (with_evictions (stats c) (evictions (stats c) + 1))
        | None => c (* not reached: [lruKey] comes from the map *)
        end
      else c
  | None => c
  end.

(** The loop condition of [set]. *)
Definition overLimit (c : cache) : bool :=
  (maxSize c <? totalSize c) && (1 <? JsMap.size (entries c)).

(** [while (totalSize > maxSize && entries.size > 1) evictLRU()] *)
Fixpoint evictWhile (fuel : nat) (c : cache) : option cache :=
  if overLimit c then
    match fuel with
    | O => None
    | S fuel' => evictWhile fuel' (evictLRU c)
    end
  else Some c.

(** The part of [set] before the loop. *)
Definition insert (k : string) (v : T) (sz gen : Z) (c : cache) : cache :=
  let total :=
    match JsMap.get k (entries c) with
    | Some old => totalSize c - size old
    | None => totalSize c
    end in
  let n := accessCounter c + 1 in
  let entry := mkEntry k v sz n gen in
  mkCache (JsMap.set k entry (entries c)) n (total + sz) (maxSize c)
          (stats c).

(** [set(key, value, size, generation)] *)
Definition set (fuel : nat) (k : string) (v : T) (sz gen : Z) (c : cache)
  : option cache :=
  option_map updateStats (evictWhile fuel (insert k v sz gen c)).

(** [getStats()], [size()], [keys()] *)
Definition getStats (c : cache) : TileCacheStats := stats c.
Definition count (c : cache) : Z := JsMap.size (entries c).
Definition keys (c : cache) : list string := JsMap.keys (entries c).

(** [getSizeMB()] *)
Definition getSizeMB (c : cache) : R := (IZR (totalSize c) / (1024 * 1024))%R.

(** The public operations, as a script. *)
Inductive op : Type :=
| OpSet (k : string) (v : T) (sz gen : Z)
| OpGet (k : string)
| OpHas (k : string)
| OpDelete (k : string)
| OpClear
| OpInvalidateOldGenerations (currentGeneration : Z).

Definition apply (fuel : nat) (o : op) (c : cache) : option cache :=
  match o with
  | OpSet k v sz gen => set fuel k v sz gen c
  | OpGet k => Some (snd (get k c))
  | OpHas k => Some c
  | OpDelete k => Some (snd (delete k c))
  | OpClear => Some (clear c)
  | OpInvalidateOldGenerations g => Some (invalidateOldGenerations g c)
  end.

Fixpoint run (fuel : nat) (ops : list op) (c : cache) : option cache :=
  match ops with
  | [] => Some c
  | o :: ops' =>
      match apply fuel o c with
      | Some c' => run fuel ops' c'
      | None => None
      end
  end.

(** Sizes are byte counts. *)
Definition op_sized (o : op) : Prop :=
  match o with
  | OpSet _ _ sz _ => 0 <= sz
  | _ => True
  end.

Definition op_keyed (o : op) : Prop :=
  match o with
  | OpSet k _ _ _ => k <> EmptyString
  | _ => True
  end.
End Ops.
Arguments op : clear implicits.

(** [calculateTextureSize(width, height, bytesPerPixel)];
    [bytesPerPixel] defaults to 4. *)
Definition calculateTextureSize (width height bytesPerPixel : Z) : Z :=
  width * height * bytesPerPixel.
End Cache.

(* ================================================================== *)
(** ** Projection: Web Mercator (EPSG:3857) and WGS84 (EPSG:4326) *)
(* ================================================================== *)

Module Projection.
Local Open Scope R_scope.

Definition EARTH_RADIUS : R := 6378137.
Definition ORIGIN_SHIFT : R := PI * EARTH_RADIUS.

(** [webMercatorToWGS84(x, y)] *)
Definition webMercatorToWGS84 (x y : R) : R * R :=
  let lng := (x / ORIGIN_SHIFT) * 180 in
  let lat := (atan (exp ((y / ORIGIN_SHIFT) * PI)) * 360) / PI - 90 in
  (lng, lat).

(** [wgs84ToWebMercator(lng, lat)] *)
Definition wgs84ToWebMercator (lng lat : R) : R * R :=
  let x := (lng * ORIGIN_SHIFT) / 180 in
  let y :=
    ((ln (tan (((90 + lat) * PI) / 360)) / (PI / 180)) * ORIGIN_SHIFT)
    / 180 in
  (x, y).

(** The first run of decimal digits of a string: what the regular
    expression [/(\d+)/] captures. *)
Definition isDigit (c : ascii) : bool :=
  let n := nat_of_ascii c in ((48 <=? n) && (n <=? 57))%nat.

Fixpoint takeDigits (s : string) : string :=
  match s with
  | EmptyString => EmptyString
  | String c s' => if isDigit c then String c (takeDigits s') else EmptyString
  end.

Fixpoint firstDigitRun (s : string) : option string :=
  match s with
  | EmptyString => None
  | String c s' => if isDigit c then Some (takeDigits s) else firstDigitRun s'
  end.

(** [normalizeEPSG(epsg)] *)
Definition normalizeEPSG (epsg : string) : string :=
  match firstDigitRun epsg with
  | Some digits => digits
  | None => epsg
  end.

(** [interface Converter]; the [enforceAxis] argument is never read. *)
Record Converter : Type := mkConverter {
  forward : R * R -> R * R;
  inverse : R * R -> R * R
}.

(** [createConverter(source, target)]; [None] is the thrown [Error]. *)
Definition createConverter (source target : string) : option Converter :=
  let src := normalizeEPSG source in
  let tgt := normalizeEPSG target in
  if String.eqb src "3857" && String.eqb tgt "4326" then
    Some {| forward := fun coords => webMercatorToWGS84 (fst coords) (snd coords);
            inverse := fun coords => wgs84ToWebMercator (fst coords) (snd coords) |}
  else if String.eqb src "4326" && String.eqb tgt "3857" then
    Some {| forward := fun coords => wgs84ToWebMercator (fst coords) (snd coords);
            inverse := fun coords => webMercatorToWGS84 (fst coords) (snd coords) |}
  else if String.eqb src tgt then
    Some {| forward := fun coords => coords; inverse := fun coords => coords |}
  else None.
End Projection.

(* ================================================================== *)
(** ** Tile prioritizer: keys, tile arithmetic, center-out order *)
(* ================================================================== *)

Module Prioritizer.

(** A JavaScript number that is an integer, or [NaN]. *)
Inductive number : Type :=
| Num (n : Z)
| NaN.

(** [interface TileCoord], over the type of its three numbers. *)
Record Coord (N : Type) : Type := mkCoord { x : N; y : N; z : N }.
Arguments mkCoord {N}.
Arguments x {N}.
Arguments y {N}.
Arguments z {N}.

Definition TileCoord : Type := Coord Z.

Record PrioritizedTile : Type := mkPrioritized {
  coord : TileCoord;
  key : string;
  distance : Z
}.

(** The decimal form of an integer, as template literals print it (the
    exponent form of integers from 10^21 on is not modelled). *)
Definition numberToString (n : Z) : string :=
  NilEmpty.string_of_int (Z.to_int n).

(** [tileKey(x, y, z)] *)
Definition tileKey (x y z : Z) : string :=
  (numberToString z ++ "/" ++ numberToString x ++ "/" ++ numberToString y)%string.

(** [String.prototype.split] on a one-character separator. *)
Fixpoint split (sep : ascii) (s : string) : list string :=
  match s with
  | EmptyString => [EmptyString]
  | String c s' =>
      if Ascii.eqb c sep then EmptyString :: split sep s'
      else match split sep s' with
           | [] => [String c EmptyString]
           | p :: ps => String c p :: ps
           end
  end.

(** White space that [parseInt] skips: TAB, LF, VT, FF, CR, SP, NBSP. *)
Definition isWhiteSpace (c : ascii) : bool :=
  let n := nat_of_ascii c in
  ((9 <=? n) && (n <=? 13) || (n =? 32) || (n =? 160))%nat.

Definition digitValue (c : ascii) : option Z :=
  let n := nat_of_ascii c in
  if ((48 <=? n) && (n <=? 57))%nat then Some (Z.of_nat n - 48) else None.

Fixpoint trimStart (s : string) : string :=
  match s with
  | EmptyString => EmptyString
  | String c s' => if isWhiteSpace c then trimStart s' else s
  end.

(** Value of the longest prefix of decimal digits, and whether it has any
    digit at all. *)
Fixpoint parseDigits (s : string) (acc : Z) (seen : bool) : Z * bool :=
  match s with
  | EmptyString => (acc, seen)
  | String c s' =>
      match digitValue c with
      | Some d => parseDigits s' (acc * 10 + d) true
      | None => (acc, seen)
      end
  end.

(** [parseInt(s, 10)] *)
Definition parseInt (s : string) : number :=
  let t := trimStart s in
  let '(sign, body) :=
    match t with
    | String "-" t' => (-1, t')
    | String "+" t' => (1, t')
    | _ => (1, t)
    end in
  let '(v, seen) := parseDigits body 0 false in
  if seen then Num (sign * v) else NaN.

(** [parseTileKey(key)] *)
Definition parseTileKey (key : string) : option (Coord number) :=
  match split "/" key with
  | [z; x; y] =>
      if negb (truthy_string z) || negb (truthy_string x)
         || negb (truthy_string y)
      then None
      else Some {| z := parseInt z; x := parseInt x; y := parseInt y |}
  | _ => None
  end.

(** [Math.floor] *)
Definition floor (r : R) : Z := Int_part r.

Record Bounds : Type := mkBounds {
  west : R;
  east : R;
  north : R;
  south : R
}.

(** [lngLatToTile(lng, lat, zoom)] *)
Definition lngLatToTile (lng lat : R) (zoom : Z) : TileCoord :=
  let n := powerRZ 2 zoom in
  let x := floor (((lng + 180) / 360) * n)%R in
  let latRad := ((lat * PI) / 180)%R in
  let y := floor (((1 - arcsinh (tan latRad) / PI) / 2) * n)%R in
  {| x := x; y := y; z := zoom |}.

(** [getViewportCenterTile(bounds, zoom)] *)
Definition getViewportCenterTile (bounds : Bounds) (zoom : Z) : TileCoord :=
  let centerLng := ((west bounds + east bounds) / 2)%R in
  let centerLat := ((north bounds + south bounds) / 2)%R in
  lngLatToTile centerLng centerLat zoom.

(** The integers [lo], [lo + 1], ..., [hi]. *)
Definition range (lo hi : Z) : list Z :=
  map (fun i => lo + Z.of_nat i) (seq 0 (Z.to_nat (hi - lo + 1))).

(** [getVisibleTiles(bounds, zoom)] *)
Definition getVisibleTiles (bounds : Bounds) (zoom : Z) : list TileCoord :=
  let nw := lngLatToTile (west bounds) (north bounds) zoom in
  let se := lngLatToTile (east bounds) (south bounds) zoom in
  flat_map
    (fun x' =>
       map (fun y' => {| x := x'; y := y'; z := zoom |})
           (range (Z.min (y nw) (y se)) (Z.max (y nw) (y se))))
    (range (Z.min (x nw) (x se)) (Z.max (x nw) (x se))).

(** [Array.prototype.sort] by ascending distance; the sort is stable. *)
Fixpoint insertByDistance (p : PrioritizedTile) (l : list PrioritizedTile)
  : list PrioritizedTile :=
  match l with
  | [] => [p]
  | q :: l' =>
      if distance q <? distance p then q :: insertByDistance p l'
      else p :: l
  end.

Definition sortByDistance (l : list PrioritizedTile) : list PrioritizedTile :=
  fold_right insertByDistance [] l.

(** [prioritizeTiles(tiles, centerTile)] *)
Definition prioritizeTiles (tiles : list TileCoord) (centerTile : TileCoord)
  : list PrioritizedTile :=
  sortByDistance
    (map (fun tile =>
            let dx := x tile - x centerTile in
            let dy := y tile - y centerTile in
            {| coord := tile;
               key := tileKey (x tile) (y tile) (z tile);
               distance := dx * dx + dy * dy |})
         tiles).

(** [getParentTile(tile)] *)
Definition getParentTile (tile : TileCoord) : option TileCoord :=
  if z tile =? 0 then None
  else Some {| x := x tile / 2; y := y tile / 2; z := z tile - 1 |}.

(** [getParentTiles(tile, minZoom)]; [minZoom] defaults to 0. *)
Fixpoint getParentTiles (fuel : nat) (tile : TileCoord) (minZoom : Z)
  : option (list TileCoord) :=
  if minZoom <? z tile then
    match fuel with
    | O => None
    | S fuel' =>
        match getParentTile tile with
        | None => Some []
        | Some parent =>
            option_map (cons parent) (getParentTiles fuel' parent minZoom)
        end
    end
  else Some [].

(** [getChildTiles(tile)] *)
Definition getChildTiles (tile : TileCoord) : list TileCoord :=
  [ {| x := x tile * 2; y := y tile * 2; z := z tile + 1 |};
    {| x := x tile * 2 + 1; y := y tile * 2; z := z tile + 1 |};
    {| x := x tile * 2; y := y tile * 2 + 1; z := z tile + 1 |};
    {| x := x tile * 2 + 1; y := y tile * 2 + 1; z := z tile + 1 |} ].

(** The result of [getChildRegionInParent]. *)
Module Region.
Record t : Type := mk { x : R; y : R; width : R; height : R }.
End Region.

(** [getChildRegionInParent(child, parent)] *)
Definition getChildRegionInParent (child parent : TileCoord)
  : option Region.t :=
  let zoomDiff := z child - z parent in
  if zoomDiff <? 0 then None
  else
    let scale := powerRZ 2 zoomDiff in
    let tileSize := (1 / scale)%R in
    let parentX := (IZR (x child) / scale)%R in
    let parentY := (IZR (y child) / scale)%R in
    let offsetX := (parentX - IZR (x parent))%R in
    let offsetY := (parentY - IZR (y parent))%R in
    Some {| Region.x := offsetX; Region.y := offsetY;
            Region.width := tileSize; Region.height := tileSize |}.

End Prioritizer.

(* ================================================================== *)
(** ** JavaScript [Set] of strings, in insertion order *)
(* ================================================================== *)

Module JsSet.
Definition t := list string.

Definition has (k : string) (s : t) : bool := existsb (String.eqb k) s.

Definition add (k : string) (s : t) : t := if has k s then s else s ++ [k].

Definition delete (k : string) (s : t) : t :=
  filter (fun k' => negb (String.eqb k k')) s.

Definition size (s : t) : Z := Z.of_nat (List.length s).
End JsSet.

(* ================================================================== *)
(** ** Breadth-first prioritization ([prioritizeTilesBFS]) *)
(* ================================================================== *)

Module Bfs.
Import Prioritizer.

(** [tileKey(t.x, t.y, t.z)] *)
Definition keyOf (t : TileCoord) : string := tileKey (x t) (y t) (z t).

(** The variables of the loop: [visited], [result] and [queue]. *)
Record State : Type := mkState {
  visited : JsSet.t;
  result : list PrioritizedTile;
  queue : list TileCoord
}.

(** The four neighbours, in the order of the array literal. *)
Definition neighbors (tile : TileCoord) : list TileCoord :=
  [ {| x := x tile - 1; y := y tile; z := z tile |};
    {| x := x tile + 1; y := y tile; z := z tile |};
    {| x := x tile; y := y tile - 1; z := z tile |};
    {| x := x tile; y := y tile + 1; z := z tile |} ].

(** One iteration of the [for] loop: [queue.shift()], then the body. *)
Definition visit (tileSet : JsSet.t) (distance : Z) (st : State) : State :=
  match queue st with
  | [] => st (* not reached: the level holds [levelSize] tiles *)
  | tile :: rest =>
      let key := keyOf tile in
      if JsSet.has key (visited st) then mkState (visited st) (result st) rest
      else
        let visited' := JsSet.add key (visited st) in
        let result' :=
          if JsSet.has key tileSet
          then result st ++ [mkPrioritized tile key distance]
          else result st in
        let pushed :=
          filter (fun n => negb (JsSet.has (keyOf n) visited')
                           && JsSet.has (keyOf n) tileSet)
                 (neighbors tile) in
        mkState visited' result' (rest ++ pushed)
  end.

(** [for (let i = 0; i < levelSize; i++)] *)
Fixpoint level (levelSize : nat) (tileSet : JsSet.t) (distance : Z)
         (st : State) : State :=
  match levelSize with
  | O => st
  | S n => level n tileSet distance (visit tileSet distance st)
  end.

(** [while (queue.length > 0)] *)
Fixpoint loop (fuel : nat) (tileSet : JsSet.t) (distance : Z) (st : State)
  : option (list PrioritizedTile) :=
  match queue st with
  | [] => Some (result st)
  | _ :: _ =>
      match fuel with
      | O => None
      | S fuel' =>
          loop fuel' tileSet (distance + 1)
               (level (List.length (queue st)) tileSet distance st)
      end
  end.

(** [new Set(tiles.map(...))] *)
Definition keySet (tiles : list TileCoord) : JsSet.t :=
  fold_left (fun s t => JsSet.add (keyOf t) s) tiles [].

(** [prioritizeTilesBFS(tiles, centerTile)] *)
Definition prioritizeTilesBFS (fuel : nat) (tiles : list TileCoord)
           (centerTile : TileCoord) : option (list PrioritizedTile) :=
  loop fuel (keySet tiles) 0 (mkState [] [] [centerTile]).
End Bfs.

(* ================================================================== *)
(** ** Tile loader (class [TileLoader])

    Tile records are JavaScript objects: the tile map, and the closure of
    every load that is still running, hold references to them.  The
    embedding keeps the records in a [heap] and passes addresses around.
    The host is part of the state as well: the timers armed with
    [setTimeout] and the calls of [loadTileCallback] that have not settled.
    A timer that fires and a call that settles are events, like the calls
    of the public methods. *)
(* ================================================================== *)

Module Loader.

Inductive TileState : Type := PENDING | LOADING | LOADED | ERROR.

Definition TileState_eqb (a b : TileState) : bool :=
  match a, b with
  | PENDING, PENDING | LOADING, LOADING | LOADED, LOADED | ERROR, ERROR => true
  | _, _ => false
  end.

Record TileLoaderConfig : Type := mkConfig {
  maxConcurrentLoads : Z;
  maxStartsPerFrame : Z;
  panDebounceMs : Z;
  zoomDebounceMs : Z;
  cacheSizeMB : Z;
  fadeDurationMs : Z
}.

Definition DEFAULT_CONFIG : TileLoaderConfig :=
  {| maxConcurrentLoads := 4; maxStartsPerFrame := 2; panDebounceMs := 50;
     zoomDebounceMs := 150; cacheSizeMB := 50; fadeDurationMs := 250 |}.

(** The two closures that [updateViewport] hands to [setTimeout]. *)
Inductive Callback : Type :=
| ZoomDebounced (bounds : Prioritizer.Bounds) (zoom : Z)
| PanDebounced (bounds : Prioritizer.Bounds) (zoom : Z).

Record Timer : Type := mkTimer {
  timerId : nat;
  delay : Z;
  callback : Callback
}.

(** A call of [loadTileCallback] that has not settled: the tile object its
    continuation holds and the generation it captured. *)
Record Call : Type := mkCall {
  callTile : nat;
  callCoord : Prioritizer.TileCoord;
  callGeneration : Z
}.

Section WithPayload.
Context {T E : Type}.
(** JavaScript truthiness of a payload. *)
Variable truthy : T -> bool.

Record TileData : Type := mkTile {
  coord : Prioritizer.TileCoord;
  key : string;
  state : TileState;
  data : option T;
  error : option E;
  loadTime : option Z;
  generation : Z
}.

Record TileLoader : Type := mkLoader {
  config : TileLoaderConfig;
  cache : Cache.LRUTileCache T;
  tiles : JsMap.t nat;
  loadQueue : list string;
  loadingTiles : JsSet.t;
  loadGeneration : Z;
  lastZoom : Z;
  panDebounceTimer : option nat;
  zoomDebounceTimer : option nat;
  isZooming : bool
}.

Record World : Type := mkWorld {
  loader : TileLoader;
  heap : list TileData;
  timers : list Timer;
  nextTimerId : nat;
  calls : list Call
}.

(** *** Field updates *)

Definition setCache (v : Cache.LRUTileCache T) (l : TileLoader) :=
  mkLoader (config l) v (tiles l) (loadQueue l) (loadingTiles l)
           (loadGeneration l) (lastZoom l) (panDebounceTimer l)
           (zoomDebounceTimer l) (isZooming l).
Definition setTiles (v : JsMap.t nat) (l : TileLoader) :=
  mkLoader (config l) (cache l) v (loadQueue l) (loadingTiles l)
           (loadGeneration l) (lastZoom l) (panDebounceTimer l)
           (zoomDebounceTimer l) (isZooming l).
Definition setLoadQueue (v : list string) (l : TileLoader) :=
  mkLoader (config l) (cache l) (tiles l) v (loadingTiles l)
           (loadGeneration l) (lastZoom l) (panDebounceTimer l)
           (zoomDebounceTimer l) (isZooming l).
Definition setLoadingTiles (v : JsSet.t) (l : TileLoader) :=
  mkLoader (config l) (cache l) (tiles l) (loadQueue l) v
           (loadGeneration l) (lastZoom l) (panDebounceTimer l)
           (zoomDebounceTimer l) (isZooming l).
Definition setLoadGeneration (v : Z) (l : TileLoader) :=
  mkLoader (config l) (cache l) (tiles l) (loadQueue l) (loadingTiles l)
           v (lastZoom l) (panDebounceTimer l)
           (zoomDebounceTimer l) (isZooming l).
Definition setLastZoom (v : Z) (l : TileLoader) :=
  mkLoader (config l) (cache l) (tiles l) (loadQueue l) (loadingTiles l)
           (loadGeneration l) v (panDebounceTimer l)
           (zoomDebounceTimer l) (isZooming l).
Definition setPanDebounceTimer (v : option nat) (l : TileLoader) :=
  mkLoader (config l) (cache l) (tiles l) (loadQueue l) (loadingTiles l)
           (loadGeneration l) (lastZoom l) v
           (zoomDebounceTimer l) (isZooming l).
Definition setZoomDebounceTimer (v : option nat) (l : TileLoader) :=
  mkLoader (config l) (cache l) (tiles l) (loadQueue l) (loadingTiles l)
           (loadGeneration l) (lastZoom l) (panDebounceTimer l)
           v (isZooming l).
Definition setIsZooming (v : bool) (l : TileLoader) :=
  mkLoader (config l) (cache l) (tiles l) (loadQueue l) (loadingTiles l)
           (loadGeneration l) (lastZoom l) (panDebounceTimer l)
           (zoomDebounceTimer l) v.

Definition onLoader (f : TileLoader -> TileLoader) (w : World) : World :=
  mkWorld (f (loader w)) (heap w) (timers w) (nextTimerId w) (calls w).
Definition setHeap (h : list TileData) (w : World) : World :=
  mkWorld (loader w) h (timers w) (nextTimerId w) (calls w).
Definition setTimers (ts : list Timer) (w : World) : World :=
  mkWorld (loader w) (heap w) ts (nextTimerId w) (calls w).
Definition setCalls (cs : list Call) (w : World) : World :=
  mkWorld (loader w) (heap w) (timers w) (nextTimerId w) cs.

Definition setState (s : TileState) (t : TileData) : TileData :=
  mkTile (coord t) (key t) s (data t) (error t) (loadTime t) (generation t).
Definition setData (d : T) (t : TileData) : TileData :=
  mkTile (coord t) (key t) (state t) (Some d) (error t) (loadTime t)
         (generation t).
Definition setError (e : E) (t : TileData) : TileData :=
  mkTile (coord t) (key t) (state t) (data t) (Some e) (loadTime t)
         (generation t).
Definition setLoadTime (n : Z) (t : TileData) : TileData :=
  mkTile (coord t) (key t) (state t) (data t) (error t) (Some n)
         (generation t).

(** *** The heap of tile records *)

Definition deref (a : nat) (w : World) : option TileData :=
  nth_error (heap w) a.

Fixpoint updateAt (a : nat) (f : TileData -> TileData) (h : list TileData)
  : list TileData :=
  match h, a with
  | [], _ => []
  | t :: h', O => f t :: h'
  | t :: h', S a' => t :: updateAt a' f h'
  end.

Definition modify (a : nat) (f : TileData -> TileData) (w : World) : World :=
  setHeap (updateAt a f (heap w)) w.

Definition alloc (t : TileData) (w : World) : nat * World :=
  (List.length (heap w), setHeap (heap w ++ [t]) w).

(** The record that the tile map holds for a key. *)
Definition tileOf (k : string) (w : World) : option (nat * TileData) :=
  match JsMap.get k (tiles (loader w)) with
  | Some a =>
      match deref a w with
      | Some t => Some (a, t)
      | None => None
      end
  | None => None
  end.

(** *** Host timers *)

Definition setTimeout (cb : Callback) (ms : Z) (w : World) : nat * World :=
  let id := nextTimerId w in
  (id, mkWorld (loader w) (heap w) (timers w ++ [mkTimer id ms cb])
               (S id) (calls w)).

Definition clearTimeout (id : nat) (w : World) : World :=
  setTimers (filter (fun t => negb (Nat.eqb (timerId t) id)) (timers w)) w.

(** *** [constructor(loadTileCallback, config)] *)
Definition new (cfg : TileLoaderConfig) : World :=
  {| loader :=
       {| config := cfg;
          cache := Cache.new (cacheSizeMB cfg);
          tiles := JsMap.empty;
          loadQueue := [];
          loadingTiles := [];
          loadGeneration := 0;
          lastZoom := -1;
          panDebounceTimer := None;
          zoomDebounceTimer := None;
          isZooming := false |};
     heap := [];
     timers := [];
     nextTimerId := 1;
     calls := [] |}.

(** *** [handleZoomChange(newZoom)] *)

(** The body of the loop over [loadingTiles]. *)
Definition cancelIfStale (k : string) (w : World) : World :=
  match tileOf k w with
  | Some (a, tile) =>
      if generation tile <? loadGeneration (loader w) then
        onLoader (fun l => setLoadingTiles (JsSet.delete k (loadingTiles l)) l)
                 (modify a (setState PENDING) w)
      else w
  | None => w
  end.

Definition handleZoomChange (newZoom : Z) (w : World) : World :=
  let w1 :=
    onLoader (fun l =>
      let l1 := setLoadGeneration (loadGeneration l + 1) l in
      let l2 := setLastZoom newZoom l1 in
      let l3 := setLoadQueue [] l2 in
      setCache (Cache.invalidateOldGenerations (loadGeneration l3) (cache l3))
               l3) w in
  fold_left (fun w k => cancelIfStale k w) (loadingTiles (loader w1)) w1.

(** *** [processViewChange(bounds, zoom)] *)

(** The body of the loop over the prioritized tiles. *)
Definition enqueue (p : Prioritizer.PrioritizedTile) (w : World) : World :=
  let k := Prioritizer.key p in
  if Cache.has k (cache (loader w)) then w
  else if existsb (String.eqb k) (loadQueue (loader w))
          || JsSet.has k (loadingTiles (loader w)) then w
  else
    let w1 := onLoader (fun l => setLoadQueue (loadQueue l ++ [k]) l) w in
    if JsMap.has k (tiles (loader w1)) then w1
    else
      let '(a, w2) :=
        alloc {| coord := Prioritizer.coord p; key := k; state := PENDING;
                 data := None; error := None; loadTime := None;
                 generation := loadGeneration (loader w1) |} w1 in
      onLoader (fun l => setTiles (JsMap.set k a (tiles l)) l) w2.

Definition enqueueAll (ps : list Prioritizer.PrioritizedTile) (w : World)
  : World :=
  fold_left (fun w p => enqueue p w) ps w.

Definition processViewChange (bounds : Prioritizer.Bounds) (zoom : Z)
           (w : World) : World :=
  let visibleTiles := Prioritizer.getVisibleTiles bounds zoom in
  let centerTile := Prioritizer.getViewportCenterTile bounds zoom in
  enqueueAll (Prioritizer.prioritizeTiles visibleTiles centerTile) w.

(** *** [updateViewport(bounds, zoom)] *)
Definition updateViewport (bounds : Prioritizer.Bounds) (zoom : Z)
           (w : World) : World :=
  let zoomChanged := negb (zoom =? lastZoom (loader w)) in
  let w1 := if zoomChanged then handleZoomChange zoom w else w in
  let w2 :=
    match panDebounceTimer (loader w1) with
    | Some id => clearTimeout id w1
    | None => w1
    end in
  let w3 :=
    match zoomDebounceTimer (loader w2) with
    | Some id => if negb zoomChanged then clearTimeout id w2 else w2
    | None => w2
    end in
  if zoomChanged then
    let w4 := onLoader (setIsZooming true) w3 in
    let '(id, w5) :=
      setTimeout (ZoomDebounced bounds zoom)
                 (zoomDebounceMs (config (loader w4))) w4 in
    onLoader (setZoomDebounceTimer (Some id)) w5
  else
    let '(id, w5) :=
      setTimeout (PanDebounced bounds zoom)
                 (panDebounceMs (config (loader w3))) w3 in
    onLoader (setPanDebounceTimer (Some id)) w5.

(** What a timer does when it fires. *)
Definition runCallback (cb : Callback) (w : World) : World :=
  match cb with
  | ZoomDebounced bounds zoom =>
      processViewChange bounds zoom (onLoader (setIsZooming false) w)
  | PanDebounced bounds zoom => processViewChange bounds zoom w
  end.

(** *** [startTileLoad(tile)], up to the [await] *)
Definition startTileLoad (a : nat) (tile : TileData) (w : World) : World :=
  let w1 := modify a (setState LOADING) w in
  let w2 :=
    onLoader (fun l => setLoadingTiles (JsSet.add (key tile) (loadingTiles l)) l)
             w1 in
  setCalls (calls w2 ++ [mkCall a (coord tile) (generation tile)]) w2.

(** [estimateTileSize(data)] *)
Definition estimateTileSize (_ : T) : Z := 1024 * 1024.

(** *** [startTileLoad(tile)], after the [await]: the call settled with
    a payload ([inl]) or with an error ([inr]); [now] is [Date.now()]. *)
Definition removeLoading (k : string) (w : World) : World :=
  onLoader (fun l => setLoadingTiles (JsSet.delete k (loadingTiles l)) l) w.

Definition settle (fuel : nat) (c : Call) (result : T + E) (now : Z)
           (w : World) : option World :=
  match deref (callTile c) w with
  | None => Some w
  | Some tile =>
      let a := callTile c in
      let loadGeneration' := callGeneration c in
      if negb (loadGeneration' =? loadGeneration (loader w)) then
        (* stale: [loadingTiles.delete], [return], then [finally] *)
        Some (removeLoading (key tile) (removeLoading (key tile) w))
      else
        match result with
        | inl d =>
            let w1 := modify a (setData d) w in
            let w2 := modify a (setState LOADED) w1 in
            let w3 := modify a (setLoadTime now) w2 in
            let size := estimateTileSize d in
            match Cache.set fuel (key tile) d size loadGeneration'
                            (cache (loader w3)) with
            | Some cache' =>
                Some (removeLoading (key tile)
                        (onLoader (setCache cache') w3))
            | None => None
            end
        | inr err =>
            let w1 := modify a (setState ERROR) w in
            let w2 := modify a (setError err) w1 in
            Some (removeLoading (key tile) w2)
        end
  end.

(** *** [processQueue()] *)

(** The loop, on the queue that is left; [loadQueue.shift()] leaves the
    rest of the queue in the loader. *)
Fixpoint drainQueue (queue : list string) (startsThisFrame : Z) (w : World)
  : World :=
  match queue with
  | [] => w
  | k :: rest =>
      if (JsSet.size (loadingTiles (loader w))
            <? maxConcurrentLoads (config (loader w)))
         && (startsThisFrame <? maxStartsPerFrame (config (loader w)))
      then
        let w1 := onLoader (setLoadQueue rest) w in
        match tileOf k w1 with
        | Some (a, tile) =>
            if generation tile <? loadGeneration (loader w1)
            then drainQueue rest startsThisFrame w1
            else drainQueue rest (startsThisFrame + 1)
                            (startTileLoad a tile w1)
        | None => drainQueue rest startsThisFrame w1
        end
      else w
  end.

Definition processQueue (w : World) : World :=
  if isZooming (loader w) then w
  else drainQueue (loadQueue (loader w)) 0 w.

(** *** [getTile(key)]: the result is a reference to a tile record. *)
Definition getTile (k : string) (w : World) : option nat * World :=
  let '(cached, cache') := Cache.get k (cache (loader w)) in
  let w1 := onLoader (setCache cache') w in
  let stored := JsMap.get k (tiles (loader w1)) in
  match cached with
  | Some d =>
      if truthy d then
        match stored with
        | Some a =>
            (Some a, modify a (setState LOADED) (modify a (setData d) w1))
        | None => (stored, w1)
        end
      else (stored, w1)
  | None => (stored, w1)
  end.

Definition truthyData (t : TileData) : bool :=
  match data t with
  | Some d => truthy d
  | None => false
  end.

(** *** [getLoadedTiles()] *)
Definition getLoadedTiles (w : World) : list nat :=
  filter (fun a =>
            match deref a w with
            | Some tile => TileState_eqb (state tile) LOADED && truthyData tile
            | None => false
            end)
         (JsMap.values (tiles (loader w))).

(** *** [findLoadedParent(coord)] *)
Fixpoint walkParents (fuel : nat) (parent : option Prioritizer.TileCoord)
         (w : World) : option (option nat * World) :=
  match parent with
  | None => Some (None, w)
  | Some p =>
      match fuel with
      | O => None
      | S fuel' =>
          let k := Prioritizer.tileKey (Prioritizer.x p) (Prioritizer.y p)
                                       (Prioritizer.z p) in
          let '(r, w1) := getTile k w in
          let found :=
            match r with
            | Some a =>
                match deref a w1 with
                | Some tile =>
                    TileState_eqb (state tile) LOADED && truthyData tile
                | None => false
                end
            | None => false
            end in
          if found then Some (r, w1)
          else walkParents fuel' (Prioritizer.getParentTile p) w1
      end
  end.

Definition findLoadedParent (fuel : nat) (c : Prioritizer.TileCoord)
           (w : World) : option (option nat * World) :=
  walkParents fuel (Prioritizer.getParentTile c) w.

(** *** [getTileFadeAlpha(tile)]; [now] is [Date.now()], and a
    [loadTime] of 0 is falsy like a missing one. *)
Definition getTileFadeAlpha (now : Z) (tile : TileData) (w : World) : R :=
  match loadTime tile with
  | None => 1%R
  | Some t =>
      if t =? 0 then 1%R
      else
        let elapsed := now - t in
        Rmin (IZR elapsed / IZR (fadeDurationMs (config (loader w)))) 1
  end.

(** *** [clear()] *)
Definition clear (w : World) : World :=
  onLoader (fun l =>
    let l1 := setTiles JsMap.empty l in
    let l2 := setLoadQueue [] l1 in
    let l3 := setLoadingTiles [] l2 in
    let l4 := setCache (Cache.clear (cache l3)) l3 in
    setLoadGeneration 0 l4) w.

(** *** Events: the public methods, and what the host does *)
Inductive event : Type :=
| UpdateViewport (bounds : Prioritizer.Bounds) (zoom : Z)
| ProcessQueue
| GetTile (k : string)
| GetLoadedTiles
| FindLoadedParent (c : Prioritizer.TileCoord)
| GetTileFadeAlpha (a : nat) (now : Z)
| GetCacheStats
| GetLoadingStats
| Clear
| TimerFires (id : nat)
| CallSettles (i : nat) (result : T + E) (now : Z).

Fixpoint removeNth {A : Type} (i : nat) (l : list A) : list A :=
  match l, i with
  | [], _ => []
  | _ :: l', O => l'
  | a :: l', S i' => a :: removeNth i' l'
  end.

Definition step (fuel : nat) (ev : event) (w : World) : option World :=
  match ev with
  | UpdateViewport bounds zoom => Some (updateViewport bounds zoom w)
  | ProcessQueue => Some (processQueue w)
  | GetTile k => Some (snd (getTile k w))
  | GetLoadedTiles => Some w
  | FindLoadedParent c => option_map snd (findLoadedParent fuel c w)
  | GetTileFadeAlpha _ _ => Some w
  | GetCacheStats => Some w
  | GetLoadingStats => Some w
  | Clear => Some (clear w)
  | TimerFires id =>
      match find (fun t => Nat.eqb (timerId t) id) (timers w) with
      | Some t => Some (runCallback (callback t) (clearTimeout id w))
      | None => Some w
      end
  | CallSettles i result now =>
      match nth_error (calls w) i with
      | Some c => settle fuel c result now (setCalls (removeNth i (calls w)) w)
      | None => Some w
      end
  end.

Fixpoint run (fuel : nat) (evs : list event) (w : World) : option World :=
  match evs with
  | [] => Some w
  | ev :: evs' =>
      match step fuel ev w with
      | Some w' => run fuel evs' w'
      | None => None
      end
  end.
End WithPayload.

Arguments TileData : clear implicits.
Arguments TileLoader : clear implicits.
Arguments World : clear implicits.
Arguments event : clear implicits.
End Loader.

(* ================================================================== *)
(** * Properties *)
(* ================================================================== *)

(** ** The insertion-ordered map *)

Section JsMapFacts.
Context {V : Type}.
Implicit Types (m : JsMap.t V) (k : string) (v : V).

Lemma jsmap_get_In k m v : JsMap.get k m = Some v -> In (k, v) m.
Proof.
  induction m as [|[k' v'] m IH]; simpl; [discriminate|].
  destruct (String.eqb_spec k k') as [->|Hne].
  - intros [= ->]. now left.
  - intros H. right. now apply IH.
Qed.

Lemma jsmap_In_get k m :
  In k (JsMap.keys m) -> exists v, JsMap.get k m = Some v.
Proof.
  induction m as [|[k' v'] m IH]; simpl; [tauto|].
  intros [->|Hin].
  - rewrite String.eqb_refl. eauto.
  - destruct (String.eqb k k'); eauto.
Qed.

Lemma jsmap_get_None_delete k m : JsMap.get k m = None -> JsMap.delete k m = m.
Proof.
  induction m as [|[k' v'] m IH]; simpl; [reflexivity|].
  destruct (String.eqb k k'); [discriminate|].
  intros H. now rewrite IH.
Qed.

Lemma jsmap_length_delete k m v :
  JsMap.get k m = Some v -> S (List.length (JsMap.delete k m)) = List.length m.
Proof.
  induction m as [|[k' v'] m IH]; simpl; [discriminate|].
  destruct (String.eqb k k'); [reflexivity|].
  intros H. simpl. now rewrite IH.
Qed.

Lemma jsmap_length_set k v m :
  List.length (JsMap.set k v m) =
  if JsMap.has k m then List.length m else S (List.length m).
Proof.
  unfold JsMap.has.
  induction m as [|[k' v'] m IH]; simpl; [reflexivity|].
  destruct (String.eqb k k'); simpl; [reflexivity|].
  rewrite IH. now destruct (JsMap.get k m).
Qed.

Lemma jsmap_get_set_same k v m : JsMap.get k (JsMap.set k v m) = Some v.
Proof.
  induction m as [|[k' v'] m IH]; simpl.
  - now rewrite String.eqb_refl.
  - destruct (String.eqb k k') eqn:E; simpl.
    + now rewrite String.eqb_refl.
    + now rewrite E.
Qed.

Lemma jsmap_get_set_other k k' v m :
  k' <> k -> JsMap.get k' (JsMap.set k v m) = JsMap.get k' m.
Proof.
  intros Hne.
  induction m as [|[k0 v0] m IH]; simpl.
  - destruct (String.eqb_spec k' k); congruence.
  - destruct (String.eqb_spec k k0) as [->|Hk]; simpl.
    + destruct (String.eqb_spec k' k0); congruence.
    + destruct (String.eqb k' k0); congruence.
Qed.

Lemma jsmap_Forall_delete (P : string * V -> Prop) k m :
  Forall P m -> Forall P (JsMap.delete k m).
Proof.
  induction 1 as [|[k' v'] m Hx Hm IH]; simpl; [constructor|].
  destruct (String.eqb k k'); [assumption|now constructor].
Qed.

Lemma jsmap_Forall_set (P : string * V -> Prop) k v m :
  P (k, v) -> Forall P m -> Forall P (JsMap.set k v m).
Proof.
  intros Hk.
  induction 1 as [|[k' v'] m Hx Hm IH]; simpl.
  - now repeat constructor.
  - destruct (String.eqb k k'); now constructor.
Qed.

Lemma jsmap_keys_delete_incl k m k' :
  In k' (JsMap.keys (JsMap.delete k m)) -> In k' (JsMap.keys m).
Proof.
  induction m as [|[k0 v0] m IH]; simpl; [tauto|].
  destruct (String.eqb k k0); simpl; [now right|].
  intros [H|H]; [now left|right; now apply IH].
Qed.

Lemma jsmap_keys_set k v m k' :
  In k' (JsMap.keys (JsMap.set k v m)) -> k' = k \/ In k' (JsMap.keys m).
Proof.
  induction m as [|[k0 v0] m IH]; simpl.
  - intros [H|[]]. now left.
  - destruct (String.eqb_spec k k0) as [->|Hne]; simpl.
    + intros [H|H]; [now left|right; now right].
    + intros [H|H]; [right; now left|].
      destruct (IH H); [now left|right; now right].
Qed.
End JsMapFacts.

(** ** The LRU cache: size accounting, byte budget, termination of [set] *)

Section CacheFacts.
Context {T : Type}.
Import Cache.
Local Abbreviation cache := (LRUTileCache T).
Implicit Types (c : cache) (m : JsMap.t (CacheEntry T)).

(** Sum of the sizes of the stored entries. *)
Definition sumSizes m : Z :=
  fold_right (fun ke acc => size (snd ke) + acc) 0 m.

Definition sizesNonneg m : Prop := Forall (fun ke => 0 <= size (snd ke)) m.

(** The accounting invariant of the cache. *)
Record accounted c : Prop := mkAccounted {
  acc_total : totalSize c = sumSizes (entries c);
  acc_nonneg : sizesNonneg (entries c);
  acc_max : 0 <= maxSize c
}.

(** The byte budget of the specification. *)
Definition withinBudget c : Prop :=
  totalSize c <= maxSize c \/ JsMap.size (entries c) = 1.

Lemma sumSizes_delete k m e :
  JsMap.get k m = Some e -> sumSizes (JsMap.delete k m) = sumSizes m - size e.
Proof.
  induction m as [|[k' e'] m IH]; simpl; [discriminate|].
  destruct (String.eqb k k').
  - intros [= ->]. lia.
  - intros H. simpl. rewrite (IH H). lia.
Qed.

Lemma sumSizes_set k e m :
  sumSizes (JsMap.set k e m) =
  sumSizes m + size e -
  match JsMap.get k m with Some old => size old | None => 0 end.
Proof.
  induction m as [|[k' e'] m IH]; simpl; [lia|].
  destruct (String.eqb k k'); simpl; [lia|].
  rewrite IH. lia.
Qed.

Lemma sumSizes_nonneg m : sizesNonneg m -> 0 <= sumSizes m.
Proof. induction 1; simpl; lia. Qed.

Lemma sizesNonneg_get k m e :
  sizesNonneg m -> JsMap.get k m = Some e -> 0 <= size e.
Proof.
  intros Hm Hg. apply jsmap_get_In in Hg.
  unfold sizesNonneg in Hm. rewrite Forall_forall in Hm.
  exact (Hm _ Hg).
Qed.

Lemma size_one_delete k m e :
  JsMap.size m = 1 -> JsMap.get k m = Some e -> JsMap.delete k m = [].
Proof.
  unfold JsMap.size. destruct m as [|[k' e'] [|? ?]]; simpl; try lia.
  intros _. destruct (String.eqb k k'); [reflexivity|discriminate].
Qed.

(** *** Every operation keeps the accounting exact *)

Lemma accounted_new maxSizeMB : 0 <= maxSizeMB -> accounted (new maxSizeMB).
Proof. intros H. split; simpl; [reflexivity|constructor|lia]. Qed.

Lemma accounted_updateStats c : accounted c -> accounted (updateStats c).
Proof. intros [H1 H2 H3]. split; assumption. Qed.

Lemma accounted_get k c : accounted c -> accounted (snd (get k c)).
Proof.
  intros [H1 H2 H3]. unfold get.
  destruct (JsMap.get k (entries c)) as [e|] eqn:E; simpl.
  - split; simpl; [|apply jsmap_Forall_set; [|assumption]|assumption].
    + rewrite sumSizes_set, E. simpl. lia.
    + simpl. eapply sizesNonneg_get; eauto.
  - split; assumption.
Qed.

Lemma accounted_delete k c : accounted c -> accounted (snd (delete k c)).
Proof.
  intros [H1 H2 H3]. unfold delete.
  destruct (JsMap.get k (entries c)) as [e|] eqn:E; simpl.
  - split; simpl; [|now apply jsmap_Forall_delete|assumption].
    rewrite (sumSizes_delete _ _ _ E). lia.
  - split; assumption.
Qed.

Lemma accounted_clear c : accounted c -> accounted (clear c).
Proof. intros [H1 H2 H3]. split; simpl; [reflexivity|constructor|assumption]. Qed.

Lemma accounted_deletes ks c :
  accounted c -> accounted (fold_left (fun c k => snd (delete k c)) ks c).
Proof.
  revert c. induction ks as [|k ks IH]; simpl; intros c Hc; [assumption|].
  apply IH. now apply accounted_delete.
Qed.

Lemma accounted_insert k v sz gen c :
  0 <= sz -> accounted c -> accounted (insert k v sz gen c).
Proof.
  intros Hsz [H1 H2 H3]. split; simpl; [|now apply jsmap_Forall_set|assumption].
  rewrite sumSizes_set. simpl.
  destruct (JsMap.get k (entries c)); lia.
Qed.

Lemma accounted_evictLRU c : accounted c -> accounted (evictLRU c).
Proof.
  intros Hc. unfold evictLRU.
  destruct (fst (scanLRU (entries c))) as [k|]; [|assumption].
  destruct (truthy_string k); [|assumption].
  destruct (JsMap.get k (entries c)) as [e|] eqn:E; [|assumption].
  destruct Hc as [H1 H2 H3].
  split; simpl; [|now apply jsmap_Forall_delete|assumption].
  rewrite (sumSizes_delete _ _ _ E). lia.
Qed.

(** [evictLRU] removes at most one entry. *)
Lemma evictLRU_length c :
  (List.length (entries c) <= S (List.length (entries (evictLRU c))))%nat.
Proof.
  unfold evictLRU.
  destruct (fst (scanLRU (entries c))) as [k|]; [|lia].
  destruct (truthy_string k); [|lia].
  destruct (JsMap.get k (entries c)) as [e|] eqn:E; [|lia].
  simpl. rewrite (jsmap_length_delete _ _ _ E). lia.
Qed.

Lemma overLimit_false c :
  overLimit c = false ->
  totalSize c <= maxSize c \/ JsMap.size (entries c) <= 1.
Proof.
  unfold overLimit. rewrite andb_false_iff, !Z.ltb_ge. tauto.
Qed.

Lemma overLimit_true c :
  overLimit c = true ->
  maxSize c < totalSize c /\ 1 < JsMap.size (entries c).
Proof.
  unfold overLimit. rewrite andb_true_iff, !Z.ltb_lt. tauto.
Qed.

(** When the loop of [set] ends, the cache is within budget. *)
Lemma evictWhile_budget fuel c c' :
  accounted c -> 1 <= JsMap.size (entries c) ->
  evictWhile fuel c = Some c' ->
  accounted c' /\ withinBudget c' /\ maxSize c' = maxSize c.
Proof.
  revert c. induction fuel as [|fuel IH]; intros c Hc Hsz; simpl.
  - destruct (overLimit c) eqn:E; [discriminate|].
    intros [= <-]. split; [assumption|split; [|reflexivity]].
    destruct (overLimit_false _ E); [now left|right; lia].
  - destruct (overLimit c) eqn:E.
    + intros H. apply overLimit_true in E. destruct E as [_ E].
      destruct (IH (evictLRU c)) as (A & B & C); try assumption.
      * now apply accounted_evictLRU.
      * pose proof (evictLRU_length c). unfold JsMap.size in *. lia.
      * split; [assumption|split; [assumption|]]. rewrite C.
        unfold evictLRU.
        destruct (fst (scanLRU (entries c))) as [k|]; [|reflexivity].
        destruct (truthy_string k); [|reflexivity].
        now destruct (JsMap.get k (entries c)).
    + intros [= <-]. split; [assumption|split; [|reflexivity]].
      destruct (overLimit_false _ E); [now left|right; lia].
Qed.

Lemma insert_size k v sz gen c : 1 <= JsMap.size (entries (insert k v sz gen c)).
Proof.
  unfold JsMap.size. simpl. rewrite jsmap_length_set.
  destruct (JsMap.has k (entries c)) eqn:E; [|lia].
  unfold JsMap.has in E. destruct (entries c); simpl in *; [discriminate|lia].
Qed.

Lemma set_budget fuel k v sz gen c c' :
  0 <= sz -> accounted c -> set fuel k v sz gen c = Some c' ->
  accounted c' /\ withinBudget c' /\ maxSize c' = maxSize c.
Proof.
  intros Hsz Hc. unfold set.
  destruct (evictWhile fuel (insert k v sz gen c)) as [c1|] eqn:E;
    [|discriminate].
  intros [= <-].
  destruct (evictWhile_budget _ _ _ (accounted_insert k v sz gen c Hsz Hc)
              (insert_size k v sz gen c) E) as (A & B & C).
  split; [now apply accounted_updateStats|]. split; assumption.
Qed.

Lemma budget_get k c : withinBudget c -> withinBudget (snd (get k c)).
Proof.
  unfold withinBudget, get, JsMap.size.
  destruct (JsMap.get k (entries c)) as [e|] eqn:E; simpl; [|tauto].
  rewrite jsmap_length_set. unfold JsMap.has. rewrite E. tauto.
  (* the entry is replaced in place: same count, same total *)
Qed.

Lemma budget_delete k c :
  accounted c -> withinBudget c -> withinBudget (snd (delete k c)).
Proof.
  intros [H1 H2 H3] Hb. unfold delete.
  destruct (JsMap.get k (entries c)) as [e|] eqn:E; simpl; [|assumption].
  unfold withinBudget. left. simpl. destruct Hb as [Hb|Hb].
  - pose proof (sizesNonneg_get _ _ _ H2 E). lia.
  - pose proof (sumSizes_delete _ _ _ E) as Hs.
    rewrite (size_one_delete _ _ _ Hb E) in Hs. simpl in Hs. lia.
Qed.

Lemma budget_deletes ks c :
  accounted c -> withinBudget c ->
  withinBudget (fold_left (fun c k => snd (delete k c)) ks c).
Proof.
  revert c. induction ks as [|k ks IH]; simpl; intros c Hc Hb; [assumption|].
  apply IH; [now apply accounted_delete|now apply budget_delete].
Qed.

Lemma apply_budget fuel o c c' :
  op_sized o -> accounted c -> withinBudget c ->
  apply fuel o c = Some c' ->
  accounted c' /\ withinBudget c' /\ maxSize c' = maxSize c.
Proof.
  destruct o as [k v sz gen|k|k|k| |g]; simpl; intros Ho Hc Hb.
  - now apply set_budget.
  - intros [= <-]. split; [now apply accounted_get|].
    split; [now apply budget_get|].
    unfold get. now destruct (JsMap.get k (entries c)).
  - intros [= <-]. auto.
  - intros [= <-]. split; [now apply accounted_delete|].
    split; [now apply budget_delete|].
    unfold delete. now destruct (JsMap.get k (entries c)).
  - intros [= <-]. split; [now apply accounted_clear|].
    split; [|reflexivity]. left. simpl. now destruct Hc.
  - intros [= <-]. unfold invalidateOldGenerations.
    split; [now apply accounted_deletes|].
    split; [now apply budget_deletes|].
    generalize (keysToDelete g c). intros ks. revert c Hc Hb.
    induction ks as [|k ks IH]; simpl; intros c Hc Hb; [reflexivity|].
    rewrite IH; [|now apply accounted_delete|now apply budget_delete].
    unfold delete. now destruct (JsMap.get k (entries c)).
Qed.

Lemma run_budget fuel ops c c' :
  Forall op_sized ops -> accounted c -> withinBudget c ->
  run fuel ops c = Some c' ->
  accounted c' /\ withinBudget c' /\ maxSize c' = maxSize c.
Proof.
  intros Hops. revert c.
  induction Hops as [|o ops Ho Hops IH]; simpl; intros c Hc Hb.
  - intros [= <-]. auto.
  - destruct (apply fuel o c) as [c1|] eqn:E; [|discriminate].
    destruct (apply_budget _ _ _ _ Ho Hc Hb E) as (A & B & C).
    intros H. destruct (IH _ A B H) as (A' & B' & C').
    split; [assumption|split; [assumption|congruence]].
Qed.
End CacheFacts.

(** ** Progress of the eviction loop *)

Section CacheProgress.
Context {T : Type}.
Import Cache.
Local Abbreviation cache := (LRUTileCache T).
Implicit Types (c : cache) (m : JsMap.t (CacheEntry T)).

Definition keysNonEmpty m : Prop :=
  Forall (fun k => k <> EmptyString) (JsMap.keys m).

Lemma truthy_string_true s : s <> EmptyString -> truthy_string s = true.
Proof. destruct s; [congruence|reflexivity]. Qed.

(** Once a candidate is chosen, the scan ends on a key of the map or on
    that candidate. *)
Lemma scan_from_candidate m k a :
  exists k' a',
    fold_left scanStep m (Some k, a) = (Some k', a') /\
    (k' = k \/ In k' (JsMap.keys m)).
Proof.
  revert k a. induction m as [|[k0 e0] m IH]; intros k a; simpl.
  - exists k, a. auto.
  - unfold scanStep at 2. simpl.
    destruct (lt_minAccess (lastAccess e0) a).
    + destruct (IH k0 (Some (lastAccess e0))) as (k' & a' & H1 & H2).
      exists k', a'. split; [assumption|]. right.
      destruct H2 as [->|H2]; [now left|now right].
    + destruct (IH k a) as (k' & a' & H1 & H2).
      exists k', a'. split; [assumption|].
      destruct H2 as [->|H2]; [now left|right; now right].
Qed.

(** On a non-empty map the scan always selects a key of the map: the
    first entry beats [Infinity]. *)
Lemma scanLRU_selects m :
  m <> [] -> exists k, fst (scanLRU m) = Some k /\ In k (JsMap.keys m).
Proof.
  destruct m as [|[k0 e0] m]; [congruence|]. intros _.
  unfold scanLRU. simpl. unfold scanStep at 2. simpl.
  destruct (scan_from_candidate m k0 (Some (lastAccess e0)))
    as (k' & a' & H1 & H2).
  exists k'. rewrite H1. split; [reflexivity|].
  destruct H2 as [->|H2]; [now left|now right].
Qed.

(** With non-empty keys one call of [evictLRU] removes exactly one entry
    and counts exactly one eviction. *)
Lemma evictLRU_removes_one c :
  entries c <> [] -> keysNonEmpty (entries c) ->
  exists k e,
    JsMap.get k (entries c) = Some e /\
    evictLRU c =
      mkCache (JsMap.delete k (entries c)) (accessCounter c)
              (totalSize c - size e) (maxSize c)
              (with_evictions (stats c) (evictions (stats c) + 1)) /\
    S (List.length (entries (evictLRU c))) = List.length (entries c).
Proof.
  intros Hne Hk.
  destruct (scanLRU_selects _ Hne) as (k & Hs & Hin).
  destruct (jsmap_In_get _ _ Hin) as (e & He).
  exists k, e. split; [assumption|].
  assert (Hev : evictLRU c =
      mkCache (JsMap.delete k (entries c)) (accessCounter c)
              (totalSize c - size e) (maxSize c)
              (with_evictions (stats c) (evictions (stats c) + 1))).
  { unfold evictLRU. rewrite Hs.
    unfold keysNonEmpty in Hk. rewrite Forall_forall in Hk.
    rewrite (truthy_string_true _ (Hk _ Hin)), He. reflexivity. }
  split; [assumption|]. rewrite Hev. simpl.
  exact (jsmap_length_delete _ _ _ He).
Qed.

(** With an empty string as the selected key nothing is evicted. *)
Lemma evictLRU_empty_key c :
  fst (scanLRU (entries c)) = Some EmptyString -> evictLRU c = c.
Proof. intros H. unfold evictLRU. now rewrite H. Qed.

Lemma keysNonEmpty_delete k m : keysNonEmpty m -> keysNonEmpty (JsMap.delete k m).
Proof.
  unfold keysNonEmpty. rewrite !Forall_forall. intros H k' Hin.
  apply H. eapply jsmap_keys_delete_incl; eauto.
Qed.

Lemma keysNonEmpty_set k e m :
  k <> EmptyString -> keysNonEmpty m -> keysNonEmpty (JsMap.set k e m).
Proof.
  unfold keysNonEmpty. rewrite !Forall_forall. intros Hk H k' Hin.
  destruct (jsmap_keys_set _ _ _ _ Hin) as [->|Hin']; auto.
Qed.

Lemma size_gt_1_nonempty m : 1 < JsMap.size m -> m <> [].
Proof. unfold JsMap.size. destruct m; simpl; [lia|congruence]. Qed.

(** The loop runs a definite number [n] of iterations: it ends with any
    fuel of at least [n] and with no less; its result is [evictLRU]
    applied [n] times; every iteration ran with the loop condition true,
    removed exactly one entry and counted exactly one eviction. *)
Definition evictions_of c : Z := evictions (stats c).

Definition oneEvictionPerIteration (n : nat) c : Prop :=
  forall i, (i < n)%nat ->
    let ci := Nat.iter i evictLRU c in
    overLimit ci = true /\
    S (List.length (entries (evictLRU ci))) = List.length (entries ci) /\
    evictions_of (evictLRU ci) = evictions_of ci + 1.

Lemma evictWhile_terminates c :
  keysNonEmpty (entries c) ->
  exists n,
    let c' := Nat.iter n evictLRU c in
    (forall fuel, (n <= fuel)%nat -> evictWhile fuel c = Some c') /\
    (forall fuel, (fuel < n)%nat -> evictWhile fuel c = None) /\
    oneEvictionPerIteration n c /\
    overLimit c' = false /\
    keysNonEmpty (entries c').
Proof.
  remember (List.length (entries c)) as len eqn:Hlen.
  revert c Hlen. induction len as [len IH] using lt_wf_ind.
  intros c Hlen Hk.
  destruct (overLimit c) eqn:E.
  - destruct (overLimit_true _ E) as [_ Hsz].
    destruct (evictLRU_removes_one c (size_gt_1_nonempty _ Hsz) Hk)
      as (k & e & Hg & Hev & Hl).
    assert (Hk1 : keysNonEmpty (entries (evictLRU c))).
    { rewrite Hev. simpl. now apply keysNonEmpty_delete. }
    destruct (IH (List.length (entries (evictLRU c))) ltac:(lia)
                 (evictLRU c) eq_refl Hk1)
      as (n & H1 & H2 & H3 & H4 & H5).
    exists (S n). cbv zeta in *. rewrite Nat.iter_succ_r. repeat split.
    + intros [|fuel] Hf; [lia|]. simpl. rewrite E. apply H1. lia.
    + intros [|fuel] Hf; simpl; rewrite E; [reflexivity|]. apply H2. lia.
    + destruct i as [|i]; simpl; [assumption|].
      rewrite <- Nat.iter_succ, Nat.iter_succ_r. apply H3. lia.
    + destruct i as [|i]; simpl; [assumption|].
      rewrite <- Nat.iter_succ, Nat.iter_succ_r. apply H3. lia.
    + destruct i as [|i]; simpl.
      * rewrite Hev. reflexivity.
      * rewrite <- Nat.iter_succ, Nat.iter_succ_r. apply H3. lia.
    + assumption.
    + assumption.
  - exists O. simpl. repeat split; try assumption.
    + intros fuel _. destruct fuel; simpl; now rewrite E.
    + intros fuel Hf. lia.
    + lia.
    + lia.
    + lia.
Qed.

Lemma set_completes k v sz gen c :
  keysNonEmpty (entries c) -> k <> EmptyString ->
  exists n c',
    (forall fuel, (n <= fuel)%nat -> set fuel k v sz gen c = Some c') /\
    keysNonEmpty (entries c').
Proof.
  intros Hc Hk.
  destruct (evictWhile_terminates (insert k v sz gen c))
    as (n & H1 & _ & _ & _ & H5).
  { simpl. now apply keysNonEmpty_set. }
  exists n, (updateStats (Nat.iter n evictLRU (insert k v sz gen c))).
  split; [|assumption].
  intros fuel Hf. unfold set. now rewrite (H1 fuel Hf).
Qed.

Lemma keysNonEmpty_deletes ks c :
  keysNonEmpty (entries c) ->
  keysNonEmpty (entries (fold_left (fun c k => snd (delete k c)) ks c)).
Proof.
  revert c. induction ks as [|k ks IH]; simpl; intros c Hc; [assumption|].
  apply IH. unfold delete.
  destruct (JsMap.get k (entries c)); simpl; [|assumption].
  now apply keysNonEmpty_delete.
Qed.

Lemma apply_completes o c :
  op_keyed o -> keysNonEmpty (entries c) ->
  exists n c',
    (forall fuel, (n <= fuel)%nat -> apply fuel o c = Some c') /\
    keysNonEmpty (entries c').
Proof.
  destruct o as [k v sz gen|k|k|k| |g]; simpl; intros Ho Hc.
  - now apply set_completes.
  - exists O. eexists. split; [reflexivity|]. unfold get.
    destruct (JsMap.get k (entries c)) as [e|] eqn:E; simpl; [|assumption].
    unfold keysNonEmpty in *. rewrite Forall_forall in *.
    intros k' Hin. destruct (jsmap_keys_set _ _ _ _ Hin) as [->|H]; auto.
    apply Hc. apply jsmap_get_In in E.
    change k with (fst (k, e)). now apply in_map.
  - exists O. eexists. split; [reflexivity|assumption].
  - exists O. eexists. split; [reflexivity|]. unfold delete.
    destruct (JsMap.get k (entries c)); simpl; [|assumption].
    now apply keysNonEmpty_delete.
  - exists O. eexists. split; [reflexivity|]. constructor.
  - exists O. eexists. split; [reflexivity|].
    now apply keysNonEmpty_deletes.
Qed.

(** A script whose [set] calls use non-empty keys runs to completion. *)
Lemma run_completes ops c :
  Forall op_keyed ops -> keysNonEmpty (entries c) ->
  exists n c', forall fuel, (n <= fuel)%nat -> run fuel ops c = Some c'.
Proof.
  intros Hops. revert c.
  induction Hops as [|o ops Ho Hops IH]; intros c Hc.
  - exists O, c. reflexivity.
  - destruct (apply_completes o c Ho Hc) as (n1 & c1 & H1 & Hc1).
    destruct (IH c1 Hc1) as (n2 & c2 & H2).
    exists (Nat.max n1 n2), c2. intros fuel Hf. simpl.
    rewrite (H1 fuel) by lia. apply H2. lia.
Qed.
End CacheProgress.

(** ** More fuel never changes a result *)

Section CacheFuel.
Context {T : Type}.
Import Cache.
Local Abbreviation cache := (LRUTileCache T).
Implicit Types (c : cache).

Lemma evictWhile_mono fuel fuel' c c' :
  evictWhile fuel c = Some c' -> (fuel <= fuel')%nat ->
  evictWhile fuel' c = Some c'.
Proof.
  revert fuel' c. induction fuel as [|fuel IH]; intros fuel' c; simpl.
  - destruct (overLimit c) eqn:E; [discriminate|].
    intros H _. destruct fuel'; simpl; now rewrite E.
  - destruct (overLimit c) eqn:E.
    + intros H Hle. destruct fuel' as [|fuel']; [lia|].
      simpl. rewrite E. apply IH; [assumption|lia].
    + intros H _. destruct fuel'; simpl; now rewrite E.
Qed.

Lemma set_mono fuel fuel' k v sz gen c c' :
  set fuel k v sz gen c = Some c' -> (fuel <= fuel')%nat ->
  set fuel' k v sz gen c = Some c'.
Proof.
  unfold set. intros H Hle.
  destruct (evictWhile fuel (insert k v sz gen c)) as [c1|] eqn:E;
    [|discriminate].
  now rewrite (evictWhile_mono _ _ _ _ E Hle).
Qed.

Lemma apply_mono fuel fuel' o c c' :
  apply fuel o c = Some c' -> (fuel <= fuel')%nat ->
  apply fuel' o c = Some c'.
Proof. destruct o; simpl; auto. apply set_mono. Qed.

Lemma run_mono fuel fuel' ops c c' :
  run fuel ops c = Some c' -> (fuel <= fuel')%nat ->
  run fuel' ops c = Some c'.
Proof.
  revert c. induction ops as [|o ops IH]; simpl; intros c; [auto|].
  destruct (apply fuel o c) as [c1|] eqn:E; [|discriminate].
  intros H Hle. rewrite (apply_mono _ _ _ _ _ E Hle). now apply IH.
Qed.

Lemma run_deterministic fuel1 fuel2 ops c c1 c2 :
  run fuel1 ops c = Some c1 -> run fuel2 ops c = Some c2 -> c1 = c2.
Proof.
  intros H1 H2.
  apply (run_mono _ (Nat.max fuel1 fuel2)) in H1; [|lia].
  apply (run_mono _ (Nat.max fuel1 fuel2)) in H2; [|lia].
  congruence.
Qed.
End CacheFuel.

(** ** The tile at the origin *)

Section OriginTile.
Import Prioritizer.

(** A viewport that is the single point at longitude 0, latitude 0. *)
Definition origin : Bounds := mkBounds 0 0 0 0.

Definition originTile : PrioritizedTile :=
  mkPrioritized (mkCoord 0 0 0) "0/0/0" 0.

Lemma floor_half : floor (1 / 2)%R = 0.
Proof. symmetry. apply Int_part_spec. simpl. lra. Qed.

Lemma arcsinh_0 : arcsinh 0 = 0%R.
Proof.
  unfold arcsinh. replace (0 + sqrt (0 ^ 2 + 1))%R with 1%R.
  - apply ln_1.
  - replace (0 ^ 2 + 1)%R with 1%R by (simpl; lra). rewrite sqrt_1. lra.
Qed.

Lemma lngLatToTile_origin : lngLatToTile 0 0 0 = mkCoord 0 0 0.
Proof.
  unfold lngLatToTile. simpl powerRZ.
  replace (((0 + 180) / 360) * 1)%R with (1 / 2)%R by lra.
  replace ((0 * PI) / 180)%R with 0%R by lra.
  rewrite tan_0, arcsinh_0.
  replace (((1 - 0 / PI) / 2) * 1)%R with (1 / 2)%R by lra.
  rewrite floor_half. reflexivity.
Qed.

(** At zoom 0 the viewport [origin] shows the one tile of the world. *)
Lemma prioritized_origin :
  prioritizeTiles (getVisibleTiles origin 0) (getViewportCenterTile origin 0)
  = [originTile].
Proof.
  unfold getVisibleTiles, getViewportCenterTile.
  simpl west. simpl east. simpl north. simpl south.
  replace ((0 + 0) / 2)%R with 0%R by lra.
  rewrite lngLatToTile_origin. reflexivity.
Qed.
End OriginTile.

(** ** The tile loader *)

Section LoaderFacts.
Context {T E : Type}.
Variable truthy : T -> bool.
Import Loader.
Local Abbreviation World := (Loader.World T E).
Local Abbreviation TileData := (Loader.TileData T E).
Implicit Types (w : World) (k : string) (a : nat).

Definition generationOf w : Z := loadGeneration (loader w).

Lemma processViewChange_origin w :
  processViewChange origin 0 w = enqueue originTile w.
Proof. unfold processViewChange. now rewrite prioritized_origin. Qed.

Lemma jsset_delete_idem k s :
  JsSet.delete k (JsSet.delete k s) = JsSet.delete k s.
Proof.
  unfold JsSet.delete. induction s as [|k' s IH]; simpl; [reflexivity|].
  destruct (String.eqb k k') eqn:Ek; simpl; [assumption|].
  rewrite Ek. simpl. now rewrite IH.
Qed.

Lemma nth_error_updateAt a (f : TileData -> TileData) h :
  nth_error (updateAt a f h) a = option_map f (nth_error h a).
Proof.
  revert a. induction h as [|t h IH]; intros [|a]; simpl; auto.
Qed.

Lemma length_updateAt a (f : TileData -> TileData) h :
  List.length (updateAt a f h) = List.length h.
Proof.
  revert a. induction h as [|t h IH]; intros [|a]; simpl; auto.
Qed.

Lemma deref_modify a f w :
  deref a (modify a f w) = option_map f (deref a w).
Proof. unfold deref, modify. simpl. apply nth_error_updateAt. Qed.

(** *** What [processViewChange] does to the record of a key *)

(** The key is appended: it is neither cached, nor queued, nor loading. *)
Definition appendable k w : bool :=
  negb (Cache.has k (cache (loader w)))
  && negb (existsb (String.eqb k) (loadQueue (loader w)))
  && negb (JsSet.has k (loadingTiles (loader w))).

Lemma enqueue_not_appendable p w :
  appendable (Prioritizer.key p) w = false -> enqueue p w = w.
Proof.
  unfold appendable, enqueue. intros H.
  destruct (Cache.has _ _); [reflexivity|].
  destruct (existsb _ _); [reflexivity|].
  destruct (JsSet.has _ _); [reflexivity|discriminate].
Qed.

(** A key without a record gets a fresh [PENDING] record of the current
    generation. *)
Lemma enqueue_creates_record p w :
  appendable (Prioritizer.key p) w = true ->
  JsMap.has (Prioritizer.key p) (tiles (loader w)) = false ->
  let w' := enqueue p w in
  loadQueue (loader w') = loadQueue (loader w) ++ [Prioritizer.key p] /\
  tileOf (Prioritizer.key p) w' =
    Some (List.length (heap w),
          mkTile (Prioritizer.coord p) (Prioritizer.key p) PENDING
                 None None None (loadGeneration (loader w))).
Proof.
  unfold appendable, enqueue. intros H Hn. cbv zeta.
  destruct (Cache.has _ _); [discriminate|].
  destruct (existsb _ _); [discriminate|].
  destruct (JsSet.has _ _); [discriminate|]. simpl.
  rewrite Hn. simpl. split; [reflexivity|].
  unfold tileOf, deref. simpl. rewrite jsmap_get_set_same.
  rewrite nth_error_app2, Nat.sub_diag by lia. reflexivity.
Qed.

(** A key that has a record is appended and the record is left as it is,
    whatever its state and its generation. *)
Lemma enqueue_keeps_record p w a t :
  appendable (Prioritizer.key p) w = true ->
  tileOf (Prioritizer.key p) w = Some (a, t) ->
  enqueue p w
  = onLoader (fun l => setLoadQueue (loadQueue l ++ [Prioritizer.key p]) l) w.
Proof.
  unfold appendable, enqueue, tileOf. intros H Ht.
  destruct (Cache.has _ _); [discriminate|].
  destruct (existsb _ _); [discriminate|].
  destruct (JsSet.has _ _); [discriminate|]. simpl.
  unfold JsMap.has.
  destruct (JsMap.get (Prioritizer.key p) (tiles (loader w)));
    [reflexivity|discriminate].
Qed.

(** [processQueue] takes a key whose record is of an older generation off
    the queue and starts nothing. *)
Lemma processQueue_drops_stale k w a t :
  isZooming (loader w) = false ->
  loadQueue (loader w) = [k] ->
  JsSet.size (loadingTiles (loader w)) < maxConcurrentLoads (config (loader w)) ->
  0 < maxStartsPerFrame (config (loader w)) ->
  tileOf k w = Some (a, t) ->
  generation t < loadGeneration (loader w) ->
  processQueue w = onLoader (setLoadQueue []) w.
Proof.
  intros Hz Hq Hc Hs Ht Hg. unfold processQueue. rewrite Hz, Hq. simpl.
  apply Z.ltb_lt in Hc, Hs, Hg. rewrite Hc, Hs. simpl.
  change (tileOf k (onLoader (setLoadQueue []) w)) with (tileOf k w).
  rewrite Ht. simpl. now rewrite Hg.
Qed.

(** *** How each method moves [loadGeneration] *)

Lemma generation_cancelIfStale k w :
  generationOf (cancelIfStale k w) = generationOf w.
Proof.
  unfold cancelIfStale.
  destruct (tileOf k w) as [[a t]|]; [|reflexivity].
  destruct (generation t <? loadGeneration (loader w)); reflexivity.
Qed.

Lemma generation_cancel_all ks w :
  generationOf (fold_left (fun w k => cancelIfStale k w) ks w)
  = generationOf w.
Proof.
  revert w. induction ks as [|k ks IH]; intros w; simpl; [reflexivity|].
  now rewrite IH, generation_cancelIfStale.
Qed.

Lemma generation_handleZoomChange zoom w :
  generationOf (handleZoomChange zoom w) = generationOf w + 1.
Proof. unfold handleZoomChange. now rewrite generation_cancel_all. Qed.

Lemma lastZoom_cancel_all ks w :
  lastZoom (loader (fold_left (fun w k => cancelIfStale k w) ks w))
  = lastZoom (loader w).
Proof.
  revert w. induction ks as [|k ks IH]; intros w; simpl; [reflexivity|].
  rewrite IH. unfold cancelIfStale.
  destruct (tileOf k w) as [[a t]|]; [|reflexivity].
  destruct (generation t <? loadGeneration (loader w)); reflexivity.
Qed.

Lemma generation_enqueue p w : generationOf (enqueue p w) = generationOf w.
Proof.
  unfold enqueue.
  destruct (Cache.has _ _); [reflexivity|].
  destruct (_ || _); [reflexivity|].
  destruct (JsMap.has _ _); reflexivity.
Qed.

Lemma generation_enqueueAll ps w :
  generationOf (enqueueAll ps w) = generationOf w.
Proof.
  unfold enqueueAll. revert w.
  induction ps as [|p ps IH]; intros w; simpl; [reflexivity|].
  now rewrite IH, generation_enqueue.
Qed.

Lemma generation_processViewChange bounds zoom w :
  generationOf (processViewChange bounds zoom w) = generationOf w.
Proof. unfold processViewChange. apply generation_enqueueAll. Qed.

Lemma generation_updateViewport bounds zoom w :
  generationOf (updateViewport bounds zoom w)
  = generationOf w + (if zoom =? lastZoom (loader w) then 0 else 1).
Proof.
  unfold updateViewport.
  destruct (zoom =? lastZoom (loader w)); simpl negb; cbv iota.
  - destruct (panDebounceTimer (loader w));
      destruct (zoomDebounceTimer _); unfold generationOf; simpl; lia.
  - pose proof (generation_handleZoomChange zoom w) as H.
    destruct (panDebounceTimer (loader (handleZoomChange zoom w)));
      destruct (zoomDebounceTimer _); unfold generationOf in *; simpl;
      exact H.
Qed.

Lemma generation_runCallback cb w :
  generationOf (runCallback cb w) = generationOf w.
Proof.
  destruct cb; simpl; now rewrite generation_processViewChange.
Qed.

Lemma generation_drainQueue queue starts w :
  generationOf (drainQueue queue starts w) = generationOf w.
Proof.
  revert starts w. induction queue as [|k rest IH]; intros starts w; simpl;
    [reflexivity|].
  destruct (_ && _); [|reflexivity].
  destruct (tileOf k _) as [[a t]|].
  - destruct (generation t <? _); now rewrite IH.
  - now rewrite IH.
Qed.

Lemma generation_processQueue w :
  generationOf (processQueue w) = generationOf w.
Proof.
  unfold processQueue. destruct (isZooming (loader w)); [reflexivity|].
  apply generation_drainQueue.
Qed.

Lemma generation_getTile k w :
  generationOf (snd (getTile truthy k w)) = generationOf w.
Proof.
  unfold getTile.
  destruct (Cache.get k (cache (loader w))) as [[d|] c']; simpl;
    [|reflexivity].
  destruct (truthy d); [|reflexivity].
  destruct (JsMap.get k (tiles (loader w))); reflexivity.
Qed.

Lemma generation_walkParents fuel parent w r w' :
  walkParents truthy fuel parent w = Some (r, w') ->
  generationOf w' = generationOf w.
Proof.
  revert parent w. induction fuel as [|fuel IH]; intros [p|] w; simpl;
    try discriminate; try (intros [= _ <-]; reflexivity).
  pose proof (generation_getTile
                (Prioritizer.tileKey (Prioritizer.x p) (Prioritizer.y p)
                                     (Prioritizer.z p)) w) as Hg.
  destruct (getTile truthy _ w) as [r1 w1]. simpl in Hg.
  match goal with |- (if ?b then _ else _) = _ -> _ => destruct b end.
  - intros [= _ <-]. assumption.
  - intros H. rewrite (IH _ _ H). assumption.
Qed.

Lemma generation_settle fuel c result now w w' :
  settle fuel c result now w = Some w' -> generationOf w' = generationOf w.
Proof.
  unfold settle. destruct (deref (callTile c) w) as [tile|];
    [|now intros [= <-]].
  destruct (negb _); [now intros [= <-]|].
  destruct result as [d|err]; [|now intros [= <-]].
  destruct (Cache.set _ _ _ _ _ _); [now intros [= <-]|discriminate].
Qed.

Lemma generation_step fuel ev w w' :
  step truthy fuel ev w = Some w' ->
  generationOf w' =
  match ev with
  | Clear => 0
  | UpdateViewport _ zoom =>
      generationOf w + (if zoom =? lastZoom (loader w) then 0 else 1)
  | _ => generationOf w
  end.
Proof.
  destruct ev as [bounds zoom| |k| |c|a now| | | |id|i result now]; simpl.
  - intros [= <-]. apply generation_updateViewport.
  - intros [= <-]. apply generation_processQueue.
  - intros [= <-]. apply generation_getTile.
  - now intros [= <-].
  - unfold findLoadedParent.
    destruct (walkParents _ _ _ _) as [[r w1]|] eqn:Ew; [|discriminate].
    intros [= <-]. simpl. eapply generation_walkParents; eauto.
  - now intros [= <-].
  - now intros [= <-].
  - now intros [= <-].
  - now intros [= <-].
  - destruct (find _ _) as [t|]; intros [= <-]; [|reflexivity].
    now rewrite generation_runCallback.
  - destruct (nth_error _ _) as [c|]; [|now intros [= <-]].
    intros H. now rewrite (generation_settle _ _ _ _ _ _ H).
Qed.
End LoaderFacts.

(* ================================================================== *)
(** * The claims of the specification *)
(* ================================================================== *)

(** ** Cache *)

(** C1 (byte budget).  Start from the empty cache [new maxSizeMB], whose
    [maxSize] is [maxSizeMB * 2^20], and run any script of [set], [get],
    [has], [delete], [clear] and [invalidateOldGenerations] in which sizes
    are byte counts (not negative).  Whenever the script completes, either
    [totalSize <= maxSize] or exactly one entry is stored; since every
    prefix of a script is a script, this holds after each operation.  And
    a script whose [set] calls use non-empty keys does complete. *)
Theorem cache_byte_budget (T : Type) (maxSizeMB : Z) (ops : list (Cache.op T)) :
  0 <= maxSizeMB ->
  Forall Cache.op_sized ops ->
  (forall fuel c,
      Cache.run fuel ops (Cache.new maxSizeMB) = Some c ->
      Cache.maxSize c = maxSizeMB * 2 ^ 20 /\
      (Cache.totalSize c <= Cache.maxSize c \/
       JsMap.size (Cache.entries c) = 1)) /\
  (Forall Cache.op_keyed ops ->
   exists fuel c, Cache.run fuel ops (Cache.new maxSizeMB) = Some c).
Proof.
  intros Hmax Hops. split.
  - intros fuel c Hrun.
    destruct (run_budget fuel ops (Cache.new maxSizeMB) c Hops) as (_ & B & C).
    + now apply accounted_new.
    + left. simpl. lia.
    + assumption.
    + split; [|exact B]. rewrite C. simpl. lia.
  - intros Hk.
    destruct (run_completes ops (Cache.new maxSizeMB) Hk) as (n & c & H).
    + constructor.
    + exists n, c. apply H. lia.
Qed.

(** A script with one oversized entry, a second one that evicts it, and a
    deletion. *)
Definition budget_script : list (Cache.op Z) :=
  [Cache.OpSet "1/0/0" 7 2000000 0; Cache.OpSet "1/0/1" 8 2000000 0;
   Cache.OpGet "1/0/1"; Cache.OpDelete "1/0/0"].

Lemma cache_byte_budget_witness :
  exists c,
    Cache.run 1 budget_script (Cache.new 1) = Some c /\
    Cache.maxSize c = 1 * 2 ^ 20 /\
    (Cache.totalSize c <= Cache.maxSize c \/ JsMap.size (Cache.entries c) = 1).
Proof.
  eexists. split; [reflexivity|].
  apply (proj1 (cache_byte_budget Z 1 budget_script ltac:(lia)
                  ltac:(repeat constructor; simpl; lia)) 1%nat).
  reflexivity.
Defined.

(** The S1 scenario, with entries of [sz] bytes. *)
Definition s1_script (sz : Z) : list (Cache.op unit) :=
  [Cache.OpSet "0/0/0" tt sz 0; Cache.OpSet "0/0/1" tt sz 0;
   Cache.OpSet "0/0/2" tt sz 0; Cache.OpGet "0/0/0";
   Cache.OpSet "0/0/3" tt sz 0].

(** What the scenario expects of the final cache. *)
Definition s1_expected (sz : Z) : Prop :=
  exists fuel c,
    Cache.run fuel (s1_script sz) (Cache.new 1) = Some c /\
    Cache.evictions (Cache.stats c) = 1 /\
    (forall k, Cache.has k c = true <-> In k ["0/0/0"; "0/0/2"; "0/0/3"]) /\
    Cache.totalSize c = 1200000.

(** C5, as stated, fails: three entries of 400 KiB (409600 bytes, and just
    as well 400000 bytes) already exceed the budget of [1 * 2^20] bytes, so
    the third insertion evicts ["0/0/0"]; the final cache does not hold it. *)
Lemma s1_scenario_counterexample :
  ~ s1_expected 409600 /\ ~ s1_expected 400000.
Proof.
  split; intros (fuel & c & Hrun & _ & Hkeys & _).
  - assert (H1 : Cache.run 2 (s1_script 409600) (Cache.new 1) <> None)
      by (vm_compute; discriminate).
    destruct (Cache.run 2 (s1_script 409600) (Cache.new 1)) as [c0|] eqn:E;
      [|congruence].
    pose proof (run_deterministic _ _ _ _ _ _ Hrun E) as ->.
    vm_compute in E. injection E as <-.
    assert (Hin : In "0/0/0" ["0/0/0"; "0/0/2"; "0/0/3"]) by now left.
    apply Hkeys in Hin. vm_compute in Hin. discriminate.
  - assert (H1 : Cache.run 2 (s1_script 400000) (Cache.new 1) <> None)
      by (vm_compute; discriminate).
    destruct (Cache.run 2 (s1_script 400000) (Cache.new 1)) as [c0|] eqn:E;
      [|congruence].
    pose proof (run_deterministic _ _ _ _ _ _ Hrun E) as ->.
    vm_compute in E. injection E as <-.
    assert (Hin : In "0/0/0" ["0/0/0"; "0/0/2"; "0/0/3"]) by now left.
    apply Hkeys in Hin. vm_compute in Hin. discriminate.
Qed.

(** C5, amended.  With [maxSizeMB = 1] and entries of 400 KiB: inserting
    ["0/0/2"] evicts ["0/0/0"]; [get "0/0/0"] is then a miss; inserting
    ["0/0/3"] evicts ["0/0/1"].  Two evictions in all, the entries left are
    ["0/0/2"] and ["0/0/3"], and [totalSize = 819200], within the budget of
    1048576 bytes.  The loop needs one unit of fuel per insertion at most. *)
Theorem s1_scenario_amended :
  let sz := 400 * 1024 in
  forall fuel, (1 <= fuel)%nat ->
  exists c3 c5,
    Cache.run fuel (firstn 3 (s1_script sz)) (Cache.new 1) = Some c3 /\
    Cache.keys c3 = ["0/0/1"; "0/0/2"] /\
    Cache.evictions (Cache.stats c3) = 1 /\
    fst (Cache.get "0/0/0" c3) = None /\
    Cache.run fuel (s1_script sz) (Cache.new 1) = Some c5 /\
    Cache.keys c5 = ["0/0/2"; "0/0/3"] /\
    Cache.evictions (Cache.stats c5) = 2 /\
    Cache.misses (Cache.stats c5) = 1 /\
    Cache.totalSize c5 = 819200 /\
    Cache.maxSize c5 = 1048576.
Proof.
  intros sz fuel Hf.
  assert (H3 : exists c3,
             Cache.run 1 (firstn 3 (s1_script sz)) (Cache.new 1) = Some c3 /\
             Cache.keys c3 = ["0/0/1"; "0/0/2"] /\
             Cache.evictions (Cache.stats c3) = 1 /\
             fst (Cache.get "0/0/0" c3) = None).
  { eexists. split; [vm_compute; reflexivity|]. vm_compute. auto. }
  assert (H5 : exists c5,
             Cache.run 1 (s1_script sz) (Cache.new 1) = Some c5 /\
             Cache.keys c5 = ["0/0/2"; "0/0/3"] /\
             Cache.evictions (Cache.stats c5) = 2 /\
             Cache.misses (Cache.stats c5) = 1 /\
             Cache.totalSize c5 = 819200 /\
             Cache.maxSize c5 = 1048576).
  { eexists. split; [vm_compute; reflexivity|]. vm_compute. repeat split. }
  destruct H3 as (c3 & R3 & A3), H5 as (c5 & R5 & A5).
  exists c3, c5.
  split; [exact (run_mono _ _ _ _ _ R3 Hf)|].
  destruct A3 as (? & ? & ?). repeat (split; [assumption|]).
  split; [exact (run_mono _ _ _ _ _ R5 Hf)|]. exact A5.
Qed.

Lemma s1_scenario_amended_witness :
  exists c5,
    Cache.run 1 (s1_script (400 * 1024)) (Cache.new 1) = Some c5 /\
    Cache.keys c5 = ["0/0/2"; "0/0/3"] /\
    Cache.evictions (Cache.stats c5) = 2.
Proof.
  destruct (s1_scenario_amended 1%nat (le_n 1))
    as (c3 & c5 & _ & _ & _ & _ & R & K & E & _).
  exists c5. auto.
Defined.

(** C10 (termination of [set]).  In a cache whose keys are all non-empty
    strings, a [set] with a non-empty key ends: its loop runs some number
    [n] of iterations, each one entered with the loop condition true and
    each one removing exactly one entry (and counting one eviction); the
    result is the cache after [n] evictions, where the loop condition is
    false.  Any fuel of at least [n] gives that result, less fuel gives
    none. *)
Theorem set_eviction_loop_terminates (T : Type) (c : Cache.LRUTileCache T)
        (k : string) (v : T) (sz gen : Z) :
  keysNonEmpty (Cache.entries c) ->
  k <> EmptyString ->
  exists n,
    let c0 := Cache.insert k v sz gen c in
    let c' := Nat.iter n Cache.evictLRU c0 in
    (forall fuel, (n <= fuel)%nat ->
       Cache.set fuel k v sz gen c = Some (Cache.updateStats c')) /\
    (forall fuel, (fuel < n)%nat -> Cache.set fuel k v sz gen c = None) /\
    oneEvictionPerIteration n c0 /\
    Cache.overLimit c' = false /\
    (List.length (Cache.entries c') + n = List.length (Cache.entries c0))%nat.
Proof.
  intros Hc Hk.
  destruct (evictWhile_terminates (Cache.insert k v sz gen c))
    as (n & H1 & H2 & H3 & H4 & _).
  { simpl. now apply keysNonEmpty_set. }
  exists n. cbv zeta in *. repeat split.
  - intros fuel Hf. unfold Cache.set. now rewrite (H1 fuel Hf).
  - intros fuel Hf. unfold Cache.set. now rewrite (H2 fuel Hf).
  - apply H3; assumption.
  - apply H3; assumption.
  - apply H3; assumption.
  - assumption.
  - clear H1 H2 H4. revert H3. generalize (Cache.insert k v sz gen c).
    induction n as [|n IH]; intros c0 H3; simpl; [lia|].
    destruct (H3 n ltac:(lia)) as (_ & Hl & _). cbv zeta in Hl.
    assert (H3' : oneEvictionPerIteration n c0)
      by (intros i Hi; apply H3; lia).
    specialize (IH c0 H3'). lia.
Qed.

(** A cache with two stored tiles; a [set] of 900000 bytes evicts both. *)
Definition crowded : Cache.LRUTileCache Z :=
  Cache.insert "2/0/1" 2 400000 0
    (Cache.insert "2/0/0" 1 400000 0 (Cache.new 1)).

Lemma set_eviction_loop_terminates_witness :
  exists n,
    let c0 := Cache.insert "2/1/0" 3 900000 0 crowded in
    let c' := Nat.iter n Cache.evictLRU c0 in
    (forall fuel, (n <= fuel)%nat ->
       Cache.set fuel "2/1/0" 3 900000 0 crowded
       = Some (Cache.updateStats c')) /\
    (forall fuel, (fuel < n)%nat ->
       Cache.set fuel "2/1/0" 3 900000 0 crowded = None) /\
    oneEvictionPerIteration n c0 /\
    Cache.overLimit c' = false /\
    (List.length (Cache.entries c') + n = List.length (Cache.entries c0))%nat.
Proof.
  apply (set_eviction_loop_terminates Z crowded "2/1/0" 3 900000 0).
  - repeat constructor; discriminate.
  - discriminate.
Defined.

(** Without the precondition the loop can run forever: when the least
    recently used entry has the empty string as its key, [evictLRU] evicts
    nothing, and no amount of fuel ends the [set]. *)
Definition emptyKeyed : Cache.LRUTileCache Z :=
  Cache.insert "2/0/0" 1 600000 0
    (Cache.insert "" 0 600000 0 (Cache.new 1)).

Lemma set_diverges_on_empty_key (fuel : nat) :
  Cache.evictLRU emptyKeyed = emptyKeyed /\
  Cache.overLimit emptyKeyed = true /\
  Cache.evictWhile fuel emptyKeyed = None /\
  Cache.set fuel "2/0/0" 1 600000 0
            (Cache.insert "" 0 600000 0 (Cache.new 1)) = None.
Proof.
  assert (He : Cache.evictLRU emptyKeyed = emptyKeyed) by reflexivity.
  assert (Ho : Cache.overLimit emptyKeyed = true) by reflexivity.
  assert (Hw : Cache.evictWhile fuel emptyKeyed = None).
  { induction fuel as [|fuel IH]; cbn [Cache.evictWhile]; rewrite Ho;
      [reflexivity|]. now rewrite He. }
  repeat split; try assumption.
  unfold Cache.set. fold emptyKeyed. now rewrite Hw.
Qed.

(** ** Tile loader *)

Section LoaderSteps.
Context {T E : Type}.
Variable truthy : T -> bool.
Import Loader.
Local Abbreviation World := (Loader.World T E).
Implicit Types (w : World).

Lemma run_step fuel ev evs w w' :
  step truthy fuel ev w = Some w' ->
  run truthy fuel (ev :: evs) w = run truthy fuel evs w'.
Proof. intros H. simpl. now rewrite H. Qed.

(** The debounce timers of the viewport [origin] at zoom 0. *)
Lemma zoom_timer_fires_origin fuel id w t :
  find (fun t => Nat.eqb (timerId t) id) (timers w) = Some t ->
  callback t = ZoomDebounced origin 0 ->
  step truthy fuel (TimerFires id) w
  = Some (enqueue originTile
            (onLoader (setIsZooming false) (clearTimeout id w))).
Proof.
  intros Hf Hc. simpl. rewrite Hf, Hc. simpl.
  now rewrite processViewChange_origin.
Qed.

Lemma pan_timer_fires_origin fuel id w t :
  find (fun t => Nat.eqb (timerId t) id) (timers w) = Some t ->
  callback t = PanDebounced origin 0 ->
  step truthy fuel (TimerFires id) w
  = Some (enqueue originTile (clearTimeout id w)).
Proof.
  intros Hf Hc. simpl. rewrite Hf, Hc. simpl.
  now rewrite processViewChange_origin.
Qed.
End LoaderSteps.

(** One event of a script whose step is a call of a method. *)
Ltac method_step :=
  match goal with
  | |- Loader.run ?tr ?f (?ev :: ?evs) ?w = _ =>
      let r := eval cbn [Loader.step] in (Loader.step tr f ev w) in
      match r with
      | Some ?w' => rewrite (run_step tr f ev evs w w' eq_refl)
      end
  end.

(** One event of a script that is a debounce timer firing at [origin]. *)
Ltac timer_step :=
  erewrite run_step;
  [|first [eapply zoom_timer_fires_origin; vm_compute; reflexivity
          |eapply pan_timer_fires_origin; vm_compute; reflexivity]].

(** Payloads that are numbers: [0] is falsy. *)
Definition truthyNumber (n : Z) : bool := negb (n =? 0).

(** A loader that has started the load of tile 0/0/0: generation 1, the
    call of [loadTileCallback] still running. *)
Definition loadingOrigin : Loader.World Z string :=
  Loader.processQueue
    (Loader.enqueue originTile
       (Loader.onLoader (Loader.setIsZooming false)
          (Loader.clearTimeout 1
             (Loader.updateViewport origin 0
                (Loader.new Loader.DEFAULT_CONFIG))))).

Lemma loadingOrigin_reached :
  Loader.run truthyNumber 0
    [Loader.UpdateViewport origin 0; Loader.TimerFires 1; Loader.ProcessQueue]
    (Loader.new Loader.DEFAULT_CONFIG)
  = Some loadingOrigin.
Proof.
  method_step. timer_step. method_step. unfold loadingOrigin. reflexivity.
Qed.

(** C2 (stale results are discarded).  A call of [loadTileCallback] that
    captured generation [gen] settles, with a payload or with an error,
    when [gen < loadGeneration]: the handler removes the key of its tile
    from [loadingTiles] and changes nothing else.  Afterwards that key is
    not in [loadingTiles], whether or not it was, and every other key is
    in it exactly when it was before.  The tile record (state, data,
    error, loadTime) is as before, and so are the cache, the tile map, the
    queue and every other field of the loader; the host only forgets the
    settled call. *)
Theorem stale_completion_discarded
        (T E : Type) (truthy : T -> bool) (fuel i : nat) (c : Loader.Call)
        (result : T + E) (now : Z) (w : Loader.World T E)
        (tile : Loader.TileData T E) :
  nth_error (Loader.calls w) i = Some c ->
  Loader.deref (Loader.callTile c) w = Some tile ->
  Loader.callGeneration c < Loader.loadGeneration (Loader.loader w) ->
  exists w',
    Loader.step truthy fuel (Loader.CallSettles i result now) w = Some w' /\
    w' = Loader.setCalls (Loader.removeNth i (Loader.calls w))
           (Loader.removeLoading (Loader.key tile) w) /\
    ~ In (Loader.key tile) (Loader.loadingTiles (Loader.loader w')) /\
    (forall k, k <> Loader.key tile ->
       (In k (Loader.loadingTiles (Loader.loader w'))
        <-> In k (Loader.loadingTiles (Loader.loader w)))) /\
    Loader.loadingTiles (Loader.loader w')
      = JsSet.delete (Loader.key tile) (Loader.loadingTiles (Loader.loader w)) /\
    Loader.heap w' = Loader.heap w /\
    Loader.deref (Loader.callTile c) w' = Some tile /\
    Loader.cache (Loader.loader w') = Loader.cache (Loader.loader w) /\
    Loader.tiles (Loader.loader w') = Loader.tiles (Loader.loader w) /\
    Loader.loadQueue (Loader.loader w') = Loader.loadQueue (Loader.loader w) /\
    Loader.loadGeneration (Loader.loader w')
      = Loader.loadGeneration (Loader.loader w).
Proof.
  intros Hc Ht Hgen.
  exists (Loader.setCalls (Loader.removeNth i (Loader.calls w))
            (Loader.removeLoading (Loader.key tile) w)).
  split.
  { simpl. rewrite Hc. unfold Loader.settle.
    change (Loader.deref (Loader.callTile c)
              (Loader.setCalls (Loader.removeNth i (Loader.calls w)) w))
      with (Loader.deref (Loader.callTile c) w).
    rewrite Ht. simpl Loader.loader.
    assert (Hne : negb (Loader.callGeneration c
                        =? Loader.loadGeneration (Loader.loader w)) = true).
    { apply negb_true_iff, Z.eqb_neq. lia. }
    rewrite Hne. unfold Loader.removeLoading, Loader.onLoader. simpl.
    now rewrite jsset_delete_idem. }
  split; [reflexivity|]. split; [|split].
  - simpl. unfold JsSet.delete. intros Hin. apply filter_In in Hin.
    destruct Hin as [_ Hin]. rewrite String.eqb_refl in Hin. discriminate.
  - intros k Hk. simpl. unfold JsSet.delete. rewrite filter_In.
    split; [tauto|]. intros Hin. split; [assumption|].
    destruct (String.eqb_spec (Loader.key tile) k); [congruence|reflexivity].
  - repeat split; assumption.
Qed.

(** A loader that started the load of tile 0/0/0 in generation 1 and then
    saw the zoom change: generation 2, the call still running. *)
Definition zoomedWhileLoading : Loader.World Z string :=
  Loader.updateViewport origin 1
    (Loader.processQueue
       (Loader.enqueue originTile
          (Loader.onLoader (Loader.setIsZooming false)
             (Loader.clearTimeout 1
                (Loader.updateViewport origin 0
                   (Loader.new Loader.DEFAULT_CONFIG)))))).

Lemma zoomedWhileLoading_reached :
  Loader.run truthyNumber 0
    [Loader.UpdateViewport origin 0; Loader.TimerFires 1;
     Loader.ProcessQueue; Loader.UpdateViewport origin 1]
    (Loader.new Loader.DEFAULT_CONFIG)
  = Some zoomedWhileLoading.
Proof.
  method_step. timer_step. method_step. method_step.
  unfold zoomedWhileLoading. reflexivity.
Qed.

(** A loader on which a call of generation 1 is stale while its key is
    being loaded again: the load of tile 0/0/0 started in generation 1,
    [clear] dropped the record, the zoom changed twice (generation 2),
    and the tile was queued and started anew. *)
Definition staleInFlight : Loader.World Z string :=
  Loader.processQueue
    (Loader.enqueue originTile
       (Loader.onLoader (Loader.setIsZooming false)
          (Loader.clearTimeout 3
             (Loader.updateViewport origin 0
                (Loader.updateViewport origin 1
                   (Loader.clear loadingOrigin)))))).

Lemma staleInFlight_reached :
  Loader.run truthyNumber 0
    [Loader.UpdateViewport origin 0; Loader.TimerFires 1;
     Loader.ProcessQueue; Loader.Clear; Loader.UpdateViewport origin 1;
     Loader.UpdateViewport origin 0; Loader.TimerFires 3;
     Loader.ProcessQueue]
    (Loader.new Loader.DEFAULT_CONFIG)
  = Some staleInFlight.
Proof.
  method_step. timer_step. method_step. method_step. method_step.
  method_step. timer_step. method_step.
  unfold staleInFlight, loadingOrigin. reflexivity.
Qed.

Lemma stale_completion_discarded_witness :
  In "0/0/0" (Loader.loadingTiles (Loader.loader staleInFlight)) /\
  exists w',
    Loader.step truthyNumber 0 (Loader.CallSettles 0 (inl 42) 1000)
                staleInFlight = Some w' /\
    ~ In "0/0/0" (Loader.loadingTiles (Loader.loader w')) /\
    Loader.heap w' = Loader.heap staleInFlight /\
    Loader.cache (Loader.loader w')
      = Loader.cache (Loader.loader staleInFlight).
Proof.
  split; [vm_compute; auto|].
  destruct (stale_completion_discarded Z string truthyNumber 0 0
              (Loader.mkCall 0 (Prioritizer.mkCoord 0 0 0) 1)
              (inl 42) 1000 staleInFlight
              (Loader.mkTile (Prioritizer.mkCoord 0 0 0) "0/0/0"
                             Loader.LOADING None None None 1))
    as (w' & Hs & _ & Hn & _ & _ & Hh & _ & Hc & _).
  - vm_compute. reflexivity.
  - vm_compute. reflexivity.
  - vm_compute. reflexivity.
  - exists w'. auto.
Defined.

(** The zoom then goes back to 0 (generation 3), and the debounce timer of
    that last change fires. *)
Definition zoomedBack : Loader.World Z string :=
  Loader.updateViewport origin 0 zoomedWhileLoading.

Definition requeued : Loader.World Z string :=
  Loader.enqueue originTile
    (Loader.onLoader (Loader.setIsZooming false)
       (Loader.clearTimeout 3 zoomedBack)).

(** C3 (record of an enqueued key), on the code.  The loader reaches
    [zoomedBack] by public calls; there the debounce timer runs
    [processViewChange origin 0], which appends ["0/0/0"] to the queue.  The
    record of that key exists since generation 1 and is left as it was:
    its generation is 1 while [loadGeneration] is 3.  The next
    [processQueue] takes the key off the queue, finds the record stale and
    starts no load: the queue is empty again, nothing is loading, no call
    was made, and the record is still [PENDING]. *)
Theorem processViewChange_keeps_stale_record :
  let staleRecord :=
    Loader.mkTile (T := Z) (E := string) (Prioritizer.mkCoord 0 0 0) "0/0/0"
                  Loader.PENDING None None None 1 in
  Loader.run truthyNumber 0
    [Loader.UpdateViewport origin 0; Loader.TimerFires 1;
     Loader.ProcessQueue; Loader.UpdateViewport origin 1;
     Loader.UpdateViewport origin 0]
    (Loader.new Loader.DEFAULT_CONFIG) = Some zoomedBack /\
  Loader.step truthyNumber 0 (Loader.TimerFires 3) zoomedBack = Some requeued /\
  requeued =
    Loader.processViewChange origin 0
      (Loader.onLoader (Loader.setIsZooming false)
         (Loader.clearTimeout 3 zoomedBack)) /\
  Loader.loadQueue (Loader.loader zoomedBack) = [] /\
  Loader.loadQueue (Loader.loader requeued) = ["0/0/0"] /\
  Loader.loadGeneration (Loader.loader requeued) = 3 /\
  Loader.tileOf "0/0/0" requeued = Some (0%nat, staleRecord) /\
  let w := Loader.processQueue requeued in
  Loader.loadQueue (Loader.loader w) = [] /\
  Loader.loadingTiles (Loader.loader w) = [] /\
  Loader.calls w = Loader.calls requeued /\
  Loader.tileOf "0/0/0" w = Some (0%nat, staleRecord).
Proof.
  cbv zeta. split; [|split; [|split]].
  - method_step. timer_step. method_step. method_step. method_step.
    unfold zoomedBack, zoomedWhileLoading. reflexivity.
  - unfold requeued.
    eapply zoom_timer_fires_origin; vm_compute; reflexivity.
  - unfold requeued. now rewrite processViewChange_origin.
  - vm_compute. repeat split.
Qed.

(** A record left in [ERROR] in the current generation is not reset either
    when its key is appended again: it stays [ERROR] until the load
    starts. *)
Definition failedOnce : Loader.World Z string :=
  Loader.updateViewport origin 0
    (Loader.removeLoading "0/0/0"
       (Loader.modify 0 (Loader.setError "network")
          (Loader.modify 0 (Loader.setState Loader.ERROR)
             (Loader.setCalls []
                (Loader.processQueue
                   (Loader.enqueue originTile
                      (Loader.onLoader (Loader.setIsZooming false)
                         (Loader.clearTimeout 1
                            (Loader.updateViewport origin 0
                               (Loader.new Loader.DEFAULT_CONFIG)))))))))).

Lemma processViewChange_keeps_error_state :
  Loader.run truthyNumber 0
    [Loader.UpdateViewport origin 0; Loader.TimerFires 1;
     Loader.ProcessQueue; Loader.CallSettles 0 (inr "network") 1000;
     Loader.UpdateViewport origin 0]
    (Loader.new Loader.DEFAULT_CONFIG) = Some failedOnce /\
  let w := Loader.processViewChange origin 0 (Loader.clearTimeout 2 failedOnce) in
  Loader.step truthyNumber 0 (Loader.TimerFires 2) failedOnce = Some w /\
  Loader.loadQueue (Loader.loader failedOnce) = [] /\
  Loader.loadQueue (Loader.loader w) = ["0/0/0"] /\
  Loader.loadGeneration (Loader.loader w) = 1 /\
  Loader.tileOf "0/0/0" w =
    Some (0%nat,
          Loader.mkTile (Prioritizer.mkCoord 0 0 0) "0/0/0" Loader.ERROR
                        None (Some "network") None 1).
Proof.
  split.
  - method_step. timer_step. method_step.
    erewrite run_step by (vm_compute; reflexivity).
    method_step. vm_compute. reflexivity.
  - cbv zeta. rewrite processViewChange_origin. split.
    + eapply pan_timer_fires_origin; vm_compute; reflexivity.
    + vm_compute. repeat split.
Qed.

(** What C4 says of [getTile] on a cached key: it returns a record, in
    state [LOADED], that carries the cached payload. *)
Definition getTile_reflects_cache {T E : Type} (truthy : T -> bool)
           (w : Loader.World T E) (k : string) : Prop :=
  forall e,
    JsMap.get k (Cache.entries (Loader.cache (Loader.loader w))) = Some e ->
    exists a t,
      fst (Loader.getTile truthy k w) = Some a /\
      Loader.deref a (snd (Loader.getTile truthy k w)) = Some t /\
      Loader.state t = Loader.LOADED /\
      Loader.data t = Some (Cache.value e).

(** A load that is running when [clear] is called, in generation 0. *)
Definition clearRace : list (Loader.event Z string) :=
  [Loader.UpdateViewport origin 0; Loader.TimerFires 1; Loader.Clear;
   Loader.UpdateViewport origin 0; Loader.TimerFires 2; Loader.ProcessQueue;
   Loader.Clear; Loader.CallSettles 0 (inl 7) 1000].

(** C4, as stated, fails.  After [clearRace] the cache holds the payload of
    ["0/0/0"] and the tile map holds no record for it; [getTile] returns
    [undefined] and creates no record. *)
Lemma getTile_thin_record_counterexample :
  exists w,
    Loader.run truthyNumber 0 clearRace (Loader.new Loader.DEFAULT_CONFIG)
    = Some w /\
    Cache.has "0/0/0" (Loader.cache (Loader.loader w)) = true /\
    fst (Loader.getTile truthyNumber "0/0/0" w) = None /\
    Loader.tiles (Loader.loader (snd (Loader.getTile truthyNumber "0/0/0" w)))
      = [] /\
    ~ getTile_reflects_cache truthyNumber w "0/0/0".
Proof.
  eexists. split.
  - unfold clearRace.
    method_step. timer_step. method_step. method_step. timer_step.
    method_step. method_step.
    erewrite run_step by (vm_compute; reflexivity).
    reflexivity.
  - split; [vm_compute; reflexivity|].
    split; [vm_compute; reflexivity|].
    split; [vm_compute; reflexivity|].
    intros H.
    destruct (H (Cache.mkEntry "0/0/0" 7 1048576 1 0)) as (a & t & Ha & _).
    + vm_compute. reflexivity.
    + vm_compute in Ha. discriminate.
Qed.

(** C4, amended.  [getTile] never creates a record and always returns the
    reference that the tile map holds for the key, or none.  When the cache
    holds a truthy payload for the key and the map holds a record, that
    record is set to [LOADED] with the cached payload before it is
    returned; when the map holds no record the result is none, cached or
    not; when the key is not cached no record changes. *)
Theorem getTile_behaviour (T E : Type) (truthy : T -> bool) (k : string)
        (w : Loader.World T E) :
  let r := fst (Loader.getTile truthy k w) in
  let w' := snd (Loader.getTile truthy k w) in
  let cached := JsMap.get k (Cache.entries (Loader.cache (Loader.loader w))) in
  let stored := JsMap.get k (Loader.tiles (Loader.loader w)) in
  r = stored /\
  Loader.tiles (Loader.loader w') = Loader.tiles (Loader.loader w) /\
  List.length (Loader.heap w') = List.length (Loader.heap w) /\
  (forall e a t,
      cached = Some e -> truthy (Cache.value e) = true ->
      stored = Some a -> Loader.deref a w = Some t ->
      r = Some a /\
      Loader.deref a w' =
        Some (Loader.setState Loader.LOADED
                (Loader.setData (Cache.value e) t))) /\
  (stored = None -> r = None /\ Loader.heap w' = Loader.heap w) /\
  (cached = None -> Loader.heap w' = Loader.heap w).
Proof.
  cbv zeta. unfold Loader.getTile, Cache.get.
  destruct (JsMap.get k (Cache.entries (Loader.cache (Loader.loader w))))
    as [e|] eqn:Ec; simpl.
  - destruct (truthy (Cache.value e)) eqn:Et.
    + destruct (JsMap.get k (Loader.tiles (Loader.loader w))) as [a|] eqn:Es;
        simpl.
      * split; [reflexivity|]. split; [reflexivity|].
        split; [now rewrite !length_updateAt|].
        split; [|split; discriminate].
        intros e0 a0 t [= <-] _ [= <-] Hd. split; [reflexivity|].
        unfold Loader.deref in *. simpl.
        rewrite !nth_error_updateAt, Hd. reflexivity.
      * split; [reflexivity|]. split; [reflexivity|].
        split; [reflexivity|].
        split; [discriminate|]. split; [auto|discriminate].
    + split; [reflexivity|]. split; [reflexivity|]. split; [reflexivity|].
      split; [|split; [auto|discriminate]].
      intros e0 a t [= <-]. congruence.
  - split; [reflexivity|]. split; [reflexivity|]. split; [reflexivity|].
    split; [discriminate|]. split; auto.
Qed.

(** A cache hit on a tile whose record was reset to [PENDING]. *)
Definition resetRecord : Loader.World Z string :=
  let rec := Loader.mkTile (Prioritizer.mkCoord 1 0 1) "1/1/0"
                           Loader.PENDING None None None 1 in
  let w := Loader.new Loader.DEFAULT_CONFIG in
  Loader.onLoader
    (fun l =>
       Loader.setTiles [("1/1/0", 0%nat)]
         (Loader.setCache
            (Cache.insert "1/1/0" 7 1048576 1 (Loader.cache l)) l))
    (Loader.setHeap [rec] w).

Lemma getTile_behaviour_witness :
  fst (Loader.getTile truthyNumber "1/1/0" resetRecord) = Some 0%nat /\
  Loader.deref 0 (snd (Loader.getTile truthyNumber "1/1/0" resetRecord))
  = Some (Loader.mkTile (Prioritizer.mkCoord 1 0 1) "1/1/0"
                        Loader.LOADED (Some 7) None None 1).
Proof.
  destruct (getTile_behaviour Z string truthyNumber "1/1/0" resetRecord)
    as (_ & _ & _ & H & _).
  apply (H (Cache.mkEntry "1/1/0" 7 1048576 1 1) 0%nat
           (Loader.mkTile (Prioritizer.mkCoord 1 0 1) "1/1/0"
                          Loader.PENDING None None None 1));
    vm_compute; reflexivity.
Defined.

(** Monotonicity of the generation: no step of a loader decreases
    [loadGeneration]. *)
Definition generation_never_decreases (T E : Type) (truthy : T -> bool)
  : Prop :=
  forall fuel evs ev (w w' : Loader.World T E),
    Loader.run truthy fuel evs (Loader.new Loader.DEFAULT_CONFIG) = Some w ->
    Loader.step truthy fuel ev w = Some w' ->
    Loader.loadGeneration (Loader.loader w)
    <= Loader.loadGeneration (Loader.loader w').

(** Monotonicity fails: [clear] sets [loadGeneration] back to 0.  After
    one [updateViewport] the generation is 1; after [clear] it is 0. *)
Lemma generation_counterexample :
  ~ generation_never_decreases Z string truthyNumber.
Proof.
  intros H.
  specialize (H 0%nat [Loader.UpdateViewport origin 0] Loader.Clear
                _ _ eq_refl eq_refl).
  vm_compute in H. now apply H.
Qed.

(** How each step moves [loadGeneration]: [clear] resets it to 0; every
    other step leaves it as it is, except [updateViewport] with a zoom
    different from [lastZoom], which adds one; so no step other than
    [clear] decreases it, and a script without [clear] never does. *)
Theorem generation_changes (T E : Type) (truthy : T -> bool) (fuel : nat)
        (ev : Loader.event T E) (w w' : Loader.World T E) :
  Loader.step truthy fuel ev w = Some w' ->
  Loader.loadGeneration (Loader.loader w') =
    match ev with
    | Loader.Clear => 0
    | Loader.UpdateViewport _ zoom =>
        Loader.loadGeneration (Loader.loader w)
        + (if zoom =? Loader.lastZoom (Loader.loader w) then 0 else 1)
    | _ => Loader.loadGeneration (Loader.loader w)
    end /\
  (ev <> Loader.Clear ->
   Loader.loadGeneration (Loader.loader w)
   <= Loader.loadGeneration (Loader.loader w')).
Proof.
  intros H. pose proof (generation_step truthy fuel ev w w' H) as G.
  unfold generationOf in G. split; [exact G|].
  intros Hne. rewrite G. destruct ev; try lia; try congruence.
  destruct (zoom =? Loader.lastZoom (Loader.loader w)); lia.
Qed.

Lemma generation_changes_witness :
  Loader.loadGeneration
    (Loader.loader (Loader.updateViewport origin 0 zoomedWhileLoading)) = 3 /\
  Loader.loadGeneration (Loader.loader (Loader.clear zoomedWhileLoading)) = 0.
Proof.
  split.
  - destruct (generation_changes Z string truthyNumber 0
                (Loader.UpdateViewport origin 0) zoomedWhileLoading _ eq_refl)
      as [G _].
    rewrite G. vm_compute. reflexivity.
  - destruct (generation_changes Z string truthyNumber 0 Loader.Clear
                zoomedWhileLoading _ eq_refl) as [G _].
    exact G.
Defined.

(** A script without [clear] never decreases [loadGeneration]. *)
Lemma generation_monotone_without_clear (T E : Type) (truthy : T -> bool)
      (fuel : nat) (evs : list (Loader.event T E)) (w w' : Loader.World T E) :
  Forall (fun ev => ev <> Loader.Clear) evs ->
  Loader.run truthy fuel evs w = Some w' ->
  Loader.loadGeneration (Loader.loader w)
  <= Loader.loadGeneration (Loader.loader w').
Proof.
  intros Hevs. revert w.
  induction Hevs as [|ev evs Hev Hevs IH]; intros w; simpl.
  - intros [= <-]. lia.
  - destruct (Loader.step truthy fuel ev w) as [w1|] eqn:Es; [|discriminate].
    intros Hr. pose proof (generation_step _ _ _ _ _ Es) as G.
    unfold generationOf in G. specialize (IH _ Hr).
    destruct ev; try congruence; try lia.
    destruct (zoom =? Loader.lastZoom (Loader.loader w)); lia.
Qed.

(** A loader that was cleared while the load of tile 0/0/0, started in
    generation 1, was running, and then saw the zoom change to 1: the
    generation is 1 again. *)
Definition clearedWhileLoading : Loader.World Z string :=
  Loader.updateViewport origin 1 (Loader.clear loadingOrigin).

(** C6 (generation monotonicity): the code breaks it, and with it the
    check that the generation exists for.  [clear] sets [loadGeneration]
    back from 1 to 0 while the call started in generation 1 is still
    running, and the next zoom change brings the generation back to 1.
    When that call settles, its captured generation equals
    [loadGeneration], so the completion is taken for a current one: the
    payload is stored in the cache under key 0/0/0 with generation 1 and
    the dropped record is set to [LOADED], although the load predates both
    the [clear] and the zoom change, and the tile map holds no record. *)
Theorem clear_revives_earlier_load (d now : Z) :
  exists w,
    Loader.run truthyNumber 0
      [Loader.UpdateViewport origin 0; Loader.TimerFires 1;
       Loader.ProcessQueue]
      (Loader.new Loader.DEFAULT_CONFIG) = Some loadingOrigin /\
    Loader.loadGeneration (Loader.loader loadingOrigin) = 1 /\
    Loader.calls loadingOrigin
    = [Loader.mkCall 0 (Prioritizer.mkCoord 0 0 0) 1] /\
    Loader.step truthyNumber 0 Loader.Clear loadingOrigin
    = Some (Loader.clear loadingOrigin) /\
    Loader.loadGeneration (Loader.loader (Loader.clear loadingOrigin)) = 0 /\
    Loader.step truthyNumber 0 (Loader.UpdateViewport origin 1)
                (Loader.clear loadingOrigin)
    = Some clearedWhileLoading /\
    Loader.loadGeneration (Loader.loader clearedWhileLoading) = 1 /\
    Loader.lastZoom (Loader.loader clearedWhileLoading) = 1 /\
    Loader.tiles (Loader.loader clearedWhileLoading) = [] /\
    Loader.calls clearedWhileLoading
    = [Loader.mkCall 0 (Prioritizer.mkCoord 0 0 0) 1] /\
    Loader.step truthyNumber 0 (Loader.CallSettles 0 (inl d) now)
                clearedWhileLoading = Some w /\
    JsMap.get "0/0/0" (Cache.entries (Loader.cache (Loader.loader w)))
    = Some (Cache.mkEntry "0/0/0" d (1024 * 1024) 1 1) /\
    Loader.deref 0 w
    = Some (Loader.mkTile (Prioritizer.mkCoord 0 0 0) "0/0/0" Loader.LOADED
                          (Some d) None (Some now) 1) /\
    Loader.tiles (Loader.loader w) = [].
Proof.
  eexists.
  split; [exact loadingOrigin_reached|].
  split; [vm_compute; reflexivity|].
  split; [vm_compute; reflexivity|].
  split; [cbn [Loader.step]; reflexivity|].
  split; [vm_compute; reflexivity|].
  split; [cbn [Loader.step]; unfold clearedWhileLoading; reflexivity|].
  split; [vm_compute; reflexivity|].
  split; [vm_compute; reflexivity|].
  split; [vm_compute; reflexivity|].
  split; [vm_compute; reflexivity|].
  split; [vm_compute; reflexivity|].
  split; [vm_compute; reflexivity|].
  split; vm_compute; reflexivity.
Qed.

(** ** Projection *)

Section ProjectionFacts.
Import Projection.
Local Open Scope R_scope.

Lemma ORIGIN_SHIFT_pos : 0 < ORIGIN_SHIFT.
Proof.
  unfold ORIGIN_SHIFT, EARTH_RADIUS.
  apply Rmult_lt_0_compat; [apply PI_RGT_0|lra].
Qed.

(** The angle whose tangent the forward projection takes lies strictly
    between 0 and a right angle for latitudes strictly between the
    poles. *)
Lemma half_colatitude_range lat :
  -90 < lat < 90 ->
  0 < ((90 + lat) * PI) / 360 < PI / 2.
Proof.
  intros [Hlo Hhi]. pose proof PI_RGT_0 as Hpi. split.
  - apply Rdiv_lt_0_compat; [|lra].
    apply Rmult_lt_0_compat; lra.
  - apply Rmult_lt_reg_r with 360; [lra|].
    replace ((90 + lat) * PI / 360 * 360) with ((90 + lat) * PI) by field.
    replace (PI / 2 * 360) with (180 * PI) by field.
    apply Rmult_lt_compat_r; lra.
Qed.

Lemma latitude_roundtrip lat :
  -90 < lat < 90 ->
  snd (webMercatorToWGS84 0 (snd (wgs84ToWebMercator 0 lat))) = lat.
Proof.
  intros Hlat. pose proof PI_RGT_0 as Hpi.
  pose proof ORIGIN_SHIFT_pos as Hs.
  destruct (half_colatitude_range lat Hlat) as [H0 H1].
  unfold webMercatorToWGS84, wgs84ToWebMercator. simpl snd.
  set (theta := (90 + lat) * PI / 360) in *.
  replace (ln (tan theta) / (PI / 180) * ORIGIN_SHIFT / 180 / ORIGIN_SHIFT
           * PI)
    with (ln (tan theta)) by (field; lra).
  rewrite exp_ln by (now apply tan_gt_0).
  rewrite atan_tan by (split; lra).
  unfold theta. field. lra.
Qed.
End ProjectionFacts.

(** C9 (projection round trip), over the reals.  For a longitude in
    [-180, 180] and a latitude in [-85.0511, 85.0511], projecting to Web
    Mercator and back gives the same longitude and latitude, exactly. *)
Theorem projection_roundtrip (lng lat : R) :
  (-180 <= lng <= 180)%R ->
  (-85.0511 <= lat <= 85.0511)%R ->
  let xy := Projection.wgs84ToWebMercator lng lat in
  Projection.webMercatorToWGS84 (fst xy) (snd xy) = (lng, lat).
Proof.
  intros Hlng Hlat. cbv zeta.
  pose proof ORIGIN_SHIFT_pos as Hs.
  assert (Hl : (-90 < lat < 90)%R) by lra.
  pose proof (latitude_roundtrip lat Hl) as Hr.
  unfold Projection.webMercatorToWGS84, Projection.wgs84ToWebMercator in *.
  simpl fst in *. simpl snd in *. f_equal.
  - field. lra.
  - exact Hr.
Qed.

Lemma projection_roundtrip_witness :
  let xy := Projection.wgs84ToWebMercator (-73.9857) 40.7484 in
  Projection.webMercatorToWGS84 (fst xy) (snd xy) = ((-73.9857)%R, 40.7484%R).
Proof. apply projection_roundtrip; lra. Defined.

(** ** Tile arithmetic *)

Section RegionFacts.
Import Prioritizer.

(** The ancestor of a tile [n] levels up, by [getParentTile]. *)
Fixpoint nthParent (n : nat) (tile : TileCoord) : option TileCoord :=
  match n with
  | O => Some tile
  | S n' =>
      match getParentTile tile with
      | Some parent => nthParent n' parent
      | None => None
      end
  end.

(** [parent] is [child] or one of the tiles above it. *)
Definition isAncestor (parent child : TileCoord) : Prop :=
  exists n, nthParent n child = Some parent.

Lemma nthParent_coords n child parent :
  nthParent n child = Some parent ->
  z parent = z child - Z.of_nat n /\
  x parent = x child / 2 ^ Z.of_nat n /\
  y parent = y child / 2 ^ Z.of_nat n.
Proof.
  revert child. induction n as [|n IH]; intros child.
  - intros [= <-]. simpl. rewrite !Z.div_1_r. lia.
  - cbn [nthParent]. unfold getParentTile.
    destruct (z child =? 0); [discriminate|].
    intros H. apply IH in H. simpl in H. destruct H as (Hz & Hx & Hy).
    rewrite Nat2Z.inj_succ, Z.pow_succ_r by lia.
    rewrite <- !Z.div_div by lia. repeat split; try assumption. lia.
Qed.

Lemma powerRZ_2_nat n : powerRZ 2 (Z.of_nat n) = IZR (2 ^ Z.of_nat n).
Proof. rewrite <- pow_powerRZ. now rewrite pow_IZR. Qed.

(** The offset of a tile inside the cell of its ancestor [n] levels up. *)
Lemma offset_in_unit (c : Z) (n : nat) :
  let scale := powerRZ 2 (Z.of_nat n) in
  let offset := (IZR c / scale - IZR (c / 2 ^ Z.of_nat n))%R in
  (0 <= offset /\ offset + 1 / scale <= 1)%R.
Proof.
  cbv zeta. rewrite powerRZ_2_nat.
  assert (Hp : 0 < 2 ^ Z.of_nat n) by (apply Z.pow_pos_nonneg; lia).
  set (s := 2 ^ Z.of_nat n) in *.
  pose proof (Z.div_mod c s ltac:(lia)) as Hdm.
  pose proof (Z.mod_pos_bound c s Hp) as Hm.
  assert (HsR : (0 < IZR s)%R) by (apply IZR_lt; lia).
  assert (Hc : IZR c = (IZR s * IZR (c / s) + IZR (c mod s))%R).
  { rewrite <- mult_IZR, <- plus_IZR. now f_equal. }
  assert (Hm0 : (0 <= IZR (c mod s))%R) by (apply IZR_le; lia).
  assert (Hm1 : (IZR (c mod s) + 1 <= IZR s)%R).
  { rewrite <- plus_IZR. apply IZR_le. lia. }
  rewrite Hc.
  replace ((IZR s * IZR (c / s) + IZR (c mod s)) / IZR s - IZR (c / s))%R
    with (IZR (c mod s) / IZR s)%R by (field; lra).
  split.
  - apply Rmult_le_pos; [assumption|].
    apply Rlt_le, Rinv_0_lt_compat; assumption.
  - replace (IZR (c mod s) / IZR s + 1 / IZR s)%R
      with ((IZR (c mod s) + 1) / IZR s)%R by (field; lra).
    apply Rmult_le_reg_r with (IZR s); [assumption|].
    replace ((IZR (c mod s) + 1) / IZR s * IZR s)%R
      with (IZR (c mod s) + 1)%R by (field; lra).
    lra.
Qed.
End RegionFacts.

(** What C8 says of a parent that is not an ancestor. *)
Definition region_checks_ancestry : Prop :=
  forall child parent : Prioritizer.TileCoord,
    ~ isAncestor parent child ->
    Prioritizer.getChildRegionInParent child parent = None.

(** C8, as stated, fails: the only check is on the zoom levels.  Tile
    (z 2, x 3, y 3) lies under (z 1, x 1, y 1), not under (z 1, x 0, y 0),
    and for the latter the function still returns a region, at offset
    (1.5, 1.5), outside the unit square. *)
Lemma region_counterexample :
  let child := Prioritizer.mkCoord 3 3 2 in
  let parent := Prioritizer.mkCoord 0 0 1 in
  ~ isAncestor parent child /\
  Prioritizer.getChildRegionInParent child parent
  = Some (Prioritizer.Region.mk (3 / 2) (3 / 2) (1 / 2) (1 / 2)) /\
  ~ region_checks_ancestry.
Proof.
  cbv zeta.
  assert (Hna : ~ isAncestor (Prioritizer.mkCoord 0 0 1)
                             (Prioritizer.mkCoord 3 3 2)).
  { intros [n Hn]. destruct n as [|[|[|n]]]; vm_compute in Hn; discriminate. }
  assert (Hr : Prioritizer.getChildRegionInParent
                 (Prioritizer.mkCoord 3 3 2) (Prioritizer.mkCoord 0 0 1)
               = Some (Prioritizer.Region.mk (3 / 2) (3 / 2) (1 / 2) (1 / 2))).
  { unfold Prioritizer.getChildRegionInParent. simpl.
    f_equal. f_equal; lra. }
  split; [exact Hna|]. split; [exact Hr|].
  intros H. specialize (H _ _ Hna). rewrite Hr in H. discriminate.
Qed.

(** C8, amended.  [getChildRegionInParent child parent] is none exactly
    when [parent] is at a deeper zoom level than [child]; it does not check
    that [parent] is an ancestor.  Otherwise it returns the region of width
    and height [2 ^ (parent.z - child.z)] at offset
    [child.x / 2 ^ (child.z - parent.z) - parent.x] (and the same for y).
    When [parent] is an ancestor of [child] the region lies in the unit
    square of the parent. *)
Theorem region_in_parent (child parent : Prioritizer.TileCoord) :
  (Prioritizer.getChildRegionInParent child parent = None <->
   Prioritizer.z child < Prioritizer.z parent) /\
  (Prioritizer.z parent <= Prioritizer.z child ->
   exists r,
     Prioritizer.getChildRegionInParent child parent = Some r /\
     Prioritizer.Region.width r
       = powerRZ 2 (Prioritizer.z parent - Prioritizer.z child) /\
     Prioritizer.Region.height r = Prioritizer.Region.width r /\
     Prioritizer.Region.x r
       = (IZR (Prioritizer.x child)
          / powerRZ 2 (Prioritizer.z child - Prioritizer.z parent)
          - IZR (Prioritizer.x parent))%R /\
     Prioritizer.Region.y r
       = (IZR (Prioritizer.y child)
          / powerRZ 2 (Prioritizer.z child - Prioritizer.z parent)
          - IZR (Prioritizer.y parent))%R /\
     (isAncestor parent child ->
      (0 <= Prioritizer.Region.x r /\
       Prioritizer.Region.x r + Prioritizer.Region.width r <= 1 /\
       0 <= Prioritizer.Region.y r /\
       Prioritizer.Region.y r + Prioritizer.Region.height r <= 1)%R)).
Proof.
  unfold Prioritizer.getChildRegionInParent. split.
  - destruct (Z.ltb_spec (Prioritizer.z child - Prioritizer.z parent) 0);
      split; intros; try lia; try discriminate. reflexivity.
  - intros Hz.
    destruct (Z.ltb_spec (Prioritizer.z child - Prioritizer.z parent) 0);
      [lia|].
    eexists. split; [reflexivity|]. simpl.
    split.
    { replace (Prioritizer.z parent - Prioritizer.z child)
        with (- (Prioritizer.z child - Prioritizer.z parent)) by lia.
      rewrite powerRZ_neg'. unfold Rdiv. now rewrite Rmult_1_l. }
    split; [reflexivity|]. split; [reflexivity|]. split; [reflexivity|].
    intros [n Hn]. apply nthParent_coords in Hn.
    destruct Hn as (Hzn & Hx & Hy).
    replace (Prioritizer.z child - Prioritizer.z parent)
      with (Z.of_nat n) by lia.
    rewrite Hx, Hy.
    destruct (offset_in_unit (Prioritizer.x child) n) as [X0 X1].
    destruct (offset_in_unit (Prioritizer.y child) n) as [Y0 Y1].
    cbv zeta in *. tauto.
Qed.

Lemma region_in_parent_witness :
  exists r,
    Prioritizer.getChildRegionInParent
      (Prioritizer.mkCoord 5 6 3) (Prioritizer.mkCoord 1 1 1) = Some r /\
    (0 <= Prioritizer.Region.x r /\
     Prioritizer.Region.x r + Prioritizer.Region.width r <= 1)%R.
Proof.
  destruct (proj2 (region_in_parent (Prioritizer.mkCoord 5 6 3)
                                    (Prioritizer.mkCoord 1 1 1)))
    as (r & Hr & _ & _ & _ & _ & Hin).
  - simpl. lia.
  - exists r. split; [exact Hr|].
    destruct Hin as (A & B & _).
    + exists 2%nat. vm_compute. reflexivity.
    + split; assumption.
Defined.

(** ** Tile keys *)

Section KeyFacts.
Import Prioritizer.
Local Open Scope string_scope.

(** No character of [s] is the separator. *)
Fixpoint freeOf (sep : ascii) (s : string) : bool :=
  match s with
  | EmptyString => true
  | String c s' => negb (Ascii.eqb c sep) && freeOf sep s'
  end.

(** A component of a key: not empty, without ["/"]. *)
Definition isPart (s : string) : Prop :=
  s <> EmptyString /\ freeOf "/" s = true.

Lemma split_nonempty sep s : split sep s <> [].
Proof.
  destruct s as [|c s]; simpl; [discriminate|].
  destruct (Ascii.eqb c sep); [discriminate|].
  destruct (split sep s); discriminate.
Qed.

Lemma split_free sep p : freeOf sep p = true -> split sep p = [p].
Proof.
  induction p as [|c p IH]; simpl; [reflexivity|].
  destruct (Ascii.eqb c sep); simpl; [discriminate|].
  intros H. now rewrite (IH H).
Qed.

Lemma split_app sep p s :
  freeOf sep p = true ->
  split sep (p ++ String sep s) = p :: split sep s.
Proof.
  induction p as [|c p IH]; simpl.
  - now rewrite Ascii.eqb_refl.
  - destruct (Ascii.eqb c sep); simpl; [discriminate|].
    intros H. now rewrite (IH H).
Qed.

(** Every piece is free of the separator, and the pieces joined by the
    separator give the string back. *)
Lemma split_pieces_free sep s :
  Forall (fun p => freeOf sep p = true) (split sep s).
Proof.
  induction s as [|c s IH]; simpl; [repeat constructor|].
  destruct (Ascii.eqb c sep) eqn:Ec; [now constructor|].
  destruct (split sep s) as [|p ps]; [repeat constructor; simpl; now rewrite Ec|].
  inversion IH; subst. constructor; [|assumption].
  simpl. now rewrite Ec.
Qed.

Lemma split_join sep s :
  String.concat (String sep EmptyString) (split sep s) = s.
Proof.
  induction s as [|c s IH]; simpl; [reflexivity|].
  destruct (Ascii.eqb_spec c sep) as [->|Hne].
  - pose proof (split_nonempty sep s) as Hn.
    destruct (split sep s) as [|p ps] eqn:E; [congruence|].
    cbn [String.concat]. simpl. now rewrite <- IH.
  - pose proof (split_nonempty sep s) as Hn.
    destruct (split sep s) as [|p ps] eqn:E; [congruence|].
    rewrite <- IH. destruct ps; reflexivity.
Qed.

Lemma truthy_string_false s : truthy_string s = false -> s = EmptyString.
Proof. destruct s; [reflexivity|discriminate]. Qed.

(** *** What [parseTileKey] accepts *)

Lemma parseTileKey_parts a b c :
  isPart a -> isPart b -> isPart c ->
  parseTileKey (a ++ "/" ++ b ++ "/" ++ c)
  = Some {| z := parseInt a; x := parseInt b; y := parseInt c |}.
Proof.
  intros [Ha Fa] [Hb Fb] [Hc Fc]. unfold parseTileKey.
  change (a ++ "/" ++ b ++ "/" ++ c)
    with (a ++ String "/" (b ++ String "/" c)).
  rewrite (split_app _ _ _ Fa), (split_app _ _ _ Fb), (split_free _ _ Fc).
  rewrite !truthy_string_true by assumption. reflexivity.
Qed.

Lemma parseTileKey_some key r :
  parseTileKey key = Some r ->
  exists a b c,
    isPart a /\ isPart b /\ isPart c /\
    key = a ++ "/" ++ b ++ "/" ++ c /\
    r = {| z := parseInt a; x := parseInt b; y := parseInt c |}.
Proof.
  unfold parseTileKey.
  pose proof (split_pieces_free "/" key) as Hf.
  pose proof (split_join "/" key) as Hj.
  destruct (split "/" key) as [|a [|b [|c [|d l]]]]; try discriminate.
  destruct (truthy_string a) eqn:Ta; [|discriminate].
  destruct (truthy_string b) eqn:Tb; [|discriminate].
  destruct (truthy_string c) eqn:Tc; [|discriminate].
  simpl. intros [= <-].
  inversion Hf as [|? ? Fa Hf1]; subst.
  inversion Hf1 as [|? ? Fb Hf2]; subst.
  inversion Hf2 as [|? ? Fc _]; subst.
  exists a, b, c. unfold isPart.
  repeat split; try assumption;
    try (intros ->; discriminate).
Qed.

(** *** Decimal digits *)

Definition nonNil (d : Decimal.uint) : bool :=
  match d with Decimal.Nil => false | _ => true end.

Ltac digit_step :=
  cbn [NilEmpty.string_of_uint parseDigits];
  match goal with
  | |- context [digitValue ?c] =>
      let v := eval vm_compute in (digitValue c) in
      change (digitValue c) with v
  end;
  cbv iota.

Lemma parseDigits_acc d (acc : positive) seen :
  parseDigits (NilEmpty.string_of_uint d) (Z.pos acc) seen
  = (Z.pos (Pos.of_uint_acc d acc), seen || nonNil d).
Proof.
  revert acc seen. induction d; intros acc seen;
    [simpl; now rewrite orb_false_r|..];
    digit_step; cbn [Pos.of_uint_acc nonNil];
    match goal with
    | |- parseDigits _ ?a _ = (Z.pos (Pos.of_uint_acc _ ?p), _) =>
        replace a with (Z.pos p) by lia
    end;
    rewrite IHd, orb_true_r; reflexivity.
Qed.

Lemma parseDigits_uint d seen :
  parseDigits (NilEmpty.string_of_uint d) 0 seen
  = (Z.of_N (Pos.of_uint d), seen || nonNil d).
Proof.
  revert seen. induction d; intros seen;
    [simpl; now rewrite orb_false_r
    |digit_step; cbn [Pos.of_uint nonNil]; simpl Z.add;
     rewrite IHd, orb_true_r; reflexivity
    |..];
    digit_step; cbn [Pos.of_uint nonNil]; simpl Z.add;
    rewrite parseDigits_acc, orb_true_r; reflexivity.
Qed.

Lemma digits_free d : freeOf "/" (NilEmpty.string_of_uint d) = true.
Proof. induction d; simpl; auto. Qed.

Lemma trimStart_digits d :
  trimStart (NilEmpty.string_of_uint d) = NilEmpty.string_of_uint d.
Proof. destruct d; reflexivity. Qed.

Lemma parseInt_uint d :
  nonNil d = true ->
  parseInt (NilEmpty.string_of_uint d) = Num (Z.of_N (Pos.of_uint d)).
Proof.
  intros Hd. unfold parseInt. rewrite trimStart_digits.
  assert (Hsign :
    match NilEmpty.string_of_uint d with
    | String "-" t' => (-1, t')
    | String "+" t' => (1, t')
    | _ => (1, NilEmpty.string_of_uint d)
    end = (1, NilEmpty.string_of_uint d)) by (destruct d; reflexivity).
  rewrite Hsign, parseDigits_uint, Hd. simpl.
  f_equal. destruct (Pos.of_uint d); reflexivity.
Qed.

Lemma parseInt_negative d :
  nonNil d = true ->
  parseInt (String "-" (NilEmpty.string_of_uint d))
  = Num (- Z.of_N (Pos.of_uint d)).
Proof.
  intros Hd. unfold parseInt.
  replace (trimStart (String "-" (NilEmpty.string_of_uint d)))
    with (String "-" (NilEmpty.string_of_uint d)) by reflexivity.
  cbv iota beta. rewrite parseDigits_uint, Hd. simpl orb. cbv iota.
  f_equal; lia.
Qed.

Lemma to_uint_nonNil p : nonNil (Pos.to_uint p) = true.
Proof.
  pose proof (DecimalPos.Unsigned.to_uint_nonnil p).
  destruct (Pos.to_uint p); [congruence|reflexivity..].
Qed.

Lemma parseInt_numberToString n : parseInt (numberToString n) = Num n.
Proof.
  unfold numberToString. rewrite <- (DecimalZ.of_to n) at 2.
  destruct n as [|p|p]; simpl Z.to_int; cbn [NilEmpty.string_of_int].
  - reflexivity.
  - now rewrite parseInt_uint by apply to_uint_nonNil.
  - now rewrite parseInt_negative by apply to_uint_nonNil.
Qed.

Lemma numberToString_part n : isPart (numberToString n).
Proof.
  unfold numberToString, isPart.
  destruct n as [|p|p]; simpl Z.to_int; cbn [NilEmpty.string_of_int].
  - split; [discriminate|reflexivity].
  - pose proof (DecimalPos.Unsigned.to_uint_nonnil p) as Hn.
    split; [|apply digits_free].
    destruct (Pos.to_uint p); simpl; congruence.
  - split; [discriminate|]. simpl. apply digits_free.
Qed.

(** Tile-key round trip. *)
Lemma parseTileKey_tileKey x0 y0 z0 :
  parseTileKey (tileKey x0 y0 z0)
  = Some {| z := Num z0; x := Num x0; y := Num y0 |}.
Proof.
  unfold tileKey.
  rewrite parseTileKey_parts by apply numberToString_part.
  now rewrite !parseInt_numberToString.
Qed.
End KeyFacts.

(** A canonical key: the serialization of a tile coordinate with three
    non-negative integers. *)
Definition canonicalKey (s : string) : Prop :=
  exists x y z : Z,
    0 <= x /\ 0 <= y /\ 0 <= z /\ s = Prioritizer.tileKey x y z.

(** What C7 says. *)
Definition parseTileKey_rejects_malformed : Prop :=
  forall s, ~ canonicalKey s -> Prioritizer.parseTileKey s = None.

(** C7, as stated, fails: [parseTileKey] checks that there are three
    non-empty components and nothing else.  ["a/b/c"] gives a coordinate of
    three [NaN]; ["1x/ 2/-3"] gives (z 1, x 2, y -3). *)
Lemma parseTileKey_counterexample :
  ~ canonicalKey "a/b/c" /\
  Prioritizer.parseTileKey "a/b/c"
  = Some (Prioritizer.mkCoord Prioritizer.NaN Prioritizer.NaN Prioritizer.NaN) /\
  ~ canonicalKey "1x/ 2/-3" /\
  Prioritizer.parseTileKey "1x/ 2/-3"
  = Some (Prioritizer.mkCoord (Prioritizer.Num 2) (Prioritizer.Num (-3))
                              (Prioritizer.Num 1)) /\
  ~ parseTileKey_rejects_malformed.
Proof.
  assert (H1 : ~ canonicalKey "a/b/c").
  { intros (x & y & z & _ & _ & _ & H).
    apply (f_equal Prioritizer.parseTileKey) in H.
    rewrite parseTileKey_tileKey in H. vm_compute in H. discriminate. }
  assert (H2 : ~ canonicalKey "1x/ 2/-3").
  { intros (x & y & z & _ & Hy & _ & H).
    apply (f_equal Prioritizer.parseTileKey) in H.
    rewrite parseTileKey_tileKey in H. vm_compute in H.
    injection H as Hx Hy' Hz. lia. }
  split; [exact H1|]. split; [reflexivity|].
  split; [exact H2|]. split; [reflexivity|].
  intros H. specialize (H _ H1). vm_compute in H. discriminate.
Qed.

(** C7, amended.  [parseTileKey] returns none exactly for the strings that
    are not three non-empty components separated by two ["/"]; it does not
    check that a component is a number.  On three such components it
    returns the coordinate of their [parseInt] values, which is [NaN] for a
    component without a leading integer and ignores what follows the
    digits.  On the canonical key of integers [x], [y], [z] it returns that
    coordinate. *)
Theorem parseTileKey_accepts (key : string) :
  (Prioritizer.parseTileKey key = None <->
   ~ exists a b c,
       isPart a /\ isPart b /\ isPart c /\
       key = (a ++ "/" ++ b ++ "/" ++ c)%string) /\
  (forall a b c,
      isPart a -> isPart b -> isPart c ->
      key = (a ++ "/" ++ b ++ "/" ++ c)%string ->
      Prioritizer.parseTileKey key
      = Some (Prioritizer.mkCoord (Prioritizer.parseInt b)
                (Prioritizer.parseInt c) (Prioritizer.parseInt a))) /\
  (forall x y z : Z,
      key = Prioritizer.tileKey x y z ->
      Prioritizer.parseTileKey key
      = Some (Prioritizer.mkCoord (Prioritizer.Num x) (Prioritizer.Num y)
                                  (Prioritizer.Num z))).
Proof.
  split; [split|split].
  - intros Hn (a & b & c & Ha & Hb & Hc & ->).
    rewrite parseTileKey_parts in Hn by assumption. discriminate.
  - intros Hn. destruct (Prioritizer.parseTileKey key) as [r|] eqn:E;
      [|reflexivity].
    exfalso. apply Hn.
    destruct (parseTileKey_some _ _ E) as (a & b & c & Ha & Hb & Hc & Hk & _).
    exists a, b, c. auto.
  - intros a b c Ha Hb Hc ->. now apply parseTileKey_parts.
  - intros x y z ->. apply parseTileKey_tileKey.
Qed.

Lemma parseTileKey_accepts_witness :
  Prioritizer.parseTileKey "5/3/4"
  = Some (Prioritizer.mkCoord (Prioritizer.Num 3) (Prioritizer.Num 4)
                              (Prioritizer.Num 5)) /\
  Prioritizer.parseTileKey "7px/north/-0"
  = Some (Prioritizer.mkCoord Prioritizer.NaN (Prioritizer.Num 0)
                              (Prioritizer.Num 7)).
Proof.
  split.
  - apply (proj2 (proj2 (parseTileKey_accepts "5/3/4")) 3 4 5). reflexivity.
  - apply (proj1 (proj2 (parseTileKey_accepts "7px/north/-0"))
             "7px" "north" "-0");
      try (split; [discriminate|reflexivity]); reflexivity.
Defined.

(* ================================================================== *)
(** * Further properties of the code *)
(* ================================================================== *)

(** ** More on the insertion-ordered map *)

Section JsMapMore.
Context {V : Type}.
Implicit Types (m : JsMap.t V) (k : string) (v : V).

Lemma jsmap_keys_set_eq k v m :
  JsMap.keys (JsMap.set k v m)
  = if JsMap.has k m then JsMap.keys m else JsMap.keys m ++ [k].
Proof.
  unfold JsMap.has. induction m as [|[k' v'] m IH]; simpl; [reflexivity|].
  destruct (String.eqb_spec k k') as [->|Hne]; simpl; [reflexivity|].
  rewrite IH. now destruct (JsMap.get k m).
Qed.

Lemma jsmap_has_In k m : JsMap.has k m = true <-> In k (JsMap.keys m).
Proof.
  unfold JsMap.has. split.
  - destruct (JsMap.get k m) as [v|] eqn:E; [|discriminate].
    intros _. apply jsmap_get_In in E.
    change k with (fst (k, v)). now apply in_map.
  - intros H. destruct (jsmap_In_get _ _ H) as [v ->]. reflexivity.
Qed.

Lemma jsmap_NoDup_set k v m :
  NoDup (JsMap.keys m) -> NoDup (JsMap.keys (JsMap.set k v m)).
Proof.
  intros H. rewrite jsmap_keys_set_eq.
  destruct (JsMap.has k m) eqn:E; [assumption|].
  apply NoDup_app; [assumption|repeat constructor; auto|].
  intros x Hx [<-|[]]. apply jsmap_has_In in Hx. congruence.
Qed.

Lemma jsmap_NoDup_delete k m :
  NoDup (JsMap.keys m) -> NoDup (JsMap.keys (JsMap.delete k m)).
Proof.
  induction m as [|[k' v'] m IH]; simpl; [auto|].
  intros H. inversion H as [|? ? Hn Hm]; subst.
  destruct (String.eqb k k'); [assumption|]. simpl.
  constructor; [|now apply IH].
  intros Hin. apply Hn. eapply jsmap_keys_delete_incl; eauto.
Qed.

Lemma jsmap_get_delete_other k k' m :
  k' <> k -> JsMap.get k' (JsMap.delete k m) = JsMap.get k' m.
Proof.
  intros Hne. induction m as [|[k0 v0] m IH]; simpl; [reflexivity|].
  destruct (String.eqb_spec k k0) as [->|Hk]; simpl.
  - destruct (String.eqb_spec k' k0); congruence.
  - destruct (String.eqb k' k0); congruence.
Qed.

Lemma jsmap_get_not_In k m : ~ In k (JsMap.keys m) -> JsMap.get k m = None.
Proof.
  intros H. destruct (JsMap.get k m) as [v|] eqn:E; [|reflexivity].
  exfalso. apply H. apply jsmap_has_In. unfold JsMap.has. now rewrite E.
Qed.

Lemma jsmap_get_delete_same k m :
  NoDup (JsMap.keys m) -> JsMap.get k (JsMap.delete k m) = None.
Proof.
  induction m as [|[k' v'] m IH]; simpl; [reflexivity|].
  intros H. inversion H as [|? ? Hn Hm]; subst.
  destruct (String.eqb_spec k k') as [->|Hne].
  - now apply jsmap_get_not_In.
  - simpl. destruct (String.eqb_spec k k'); [congruence|]. now apply IH.
Qed.

Lemma jsmap_In_get_NoDup k v m :
  NoDup (JsMap.keys m) -> In (k, v) m -> JsMap.get k m = Some v.
Proof.
  induction m as [|[k' v'] m IH]; simpl; [tauto|].
  intros H. inversion H as [|? ? Hn Hm]; subst.
  intros [[= -> ->]|Hin].
  - now rewrite String.eqb_refl.
  - destruct (String.eqb_spec k k') as [->|Hne]; [|now apply IH].
    exfalso. apply Hn. change k' with (fst (k', v)). now apply in_map.
Qed.

Lemma jsmap_delete_filter k m :
  NoDup (JsMap.keys m) ->
  JsMap.delete k m = filter (fun kv => negb (String.eqb k (fst kv))) m.
Proof.
  induction m as [|[k' v'] m IH]; simpl; [reflexivity|].
  intros H. inversion H as [|? ? Hn Hm]; subst.
  destruct (String.eqb_spec k k') as [->|Hne]; simpl.
  - symmetry. apply forallb_filter_id. apply forallb_forall.
    intros [k0 v0] Hin. simpl.
    destruct (String.eqb_spec k' k0) as [->|]; [|reflexivity].
    exfalso. apply Hn. change k0 with (fst (k0, v0)). now apply in_map.
  - now rewrite IH.
Qed.

Lemma jsmap_In_set k v m k' v' :
  NoDup (JsMap.keys m) ->
  In (k', v') (JsMap.set k v m) ->
  (k' = k /\ v' = v) \/ (k' <> k /\ In (k', v') m).
Proof.
  induction m as [|[k0 v0] m IH]; simpl.
  - intros _ [[= <- <-]|[]]. now left.
  - intros H. inversion H as [|? ? Hn Hm]; subst.
    destruct (String.eqb_spec k k0) as [->|Hne]; simpl.
    + intros [[= <- <-]|Hin]; [now left|]. right.
      split; [|now right]. intros ->. apply Hn.
      change k0 with (fst (k0, v')). now apply in_map.
    + intros [[= <- <-]|Hin].
      * right. split; [congruence|now left].
      * destruct (IH Hm Hin) as [?|[? ?]]; [now left|].
        right. split; [assumption|now right].
Qed.

Lemma jsmap_In_delete k m k' v' :
  In (k', v') (JsMap.delete k m) -> In (k', v') m.
Proof.
  induction m as [|[k0 v0] m IH]; simpl; [tauto|].
  destruct (String.eqb k k0); simpl; [now right|].
  intros [H|H]; [now left|right; now apply IH].
Qed.
End JsMapMore.

(** ** The LRU cache: well-formed states *)

Section CacheMore.
Context {T : Type}.
Import Cache.
Local Abbreviation cache := (LRUTileCache T).
Implicit Types (c : cache) (m : JsMap.t (CacheEntry T)) (k : string).

(** The [lastAccess] of a stored pair. *)
Definition accessOf (ke : string * CacheEntry T) : Z := lastAccess (snd ke).

(** What every cache built by the public operations satisfies: keys are
    unique and repeated in their entries, the tracked total is the sum of
    the sizes, and the [lastAccess] stamps are distinct and not above the
    counter. *)
Record wellFormed c : Prop := mkWellFormed {
  wf_keys : NoDup (JsMap.keys (entries c));
  wf_keyfield : Forall (fun ke => key (snd ke) = fst ke) (entries c);
  wf_total : totalSize c = sumSizes (entries c);
  wf_recent : Forall (fun ke => accessOf ke <= accessCounter c) (entries c);
  wf_distinct : NoDup (map accessOf (entries c))
}.

(** The statistics record mirrors the cache. *)
Definition statsSynced c : Prop :=
  stat_entries (stats c) = JsMap.size (entries c) /\
  stat_totalSize (stats c) = totalSize c /\
  stat_maxSize (stats c) = maxSize c.

Lemma NoDup_map_set (f : string * CacheEntry T -> Z) k e m :
  NoDup (map f m) ->
  (forall ke, In ke m -> f ke <> f (k, e)) ->
  (forall k1 k2 e', f (k1, e') = f (k2, e')) ->
  NoDup (map f (JsMap.set k e m)).
Proof.
  intros Hnd Hne Hk. induction m as [|[k0 e0] m IH]; simpl.
  - repeat constructor. auto.
  - inversion Hnd as [|? ? Hn Hm]; subst.
    assert (Hin : forall x, In x (map f (JsMap.set k e m)) ->
                            x = f (k, e) \/ In x (map f m)).
    { clear. induction m as [|[k1 e1] m IHm]; simpl.
      - intros x [H|[]]; auto.
      - destruct (String.eqb k k1); simpl; intros x [H|H]; auto.
        destruct (IHm x H); auto. }
    destruct (String.eqb k k0); simpl.
    + constructor; [|assumption].
      intros Hx. apply in_map_iff in Hx. destruct Hx as (ke & Hke & Hi).
      apply (Hne ke); [now right|assumption].
    + constructor.
      * intros Hx. destruct (Hin _ Hx) as [Hx'|Hx']; [|contradiction].
        apply (Hne (k0, e0)); [now left|assumption].
      * apply IH; [assumption|]. intros ke Hi. apply Hne. now right.
Qed.

Lemma NoDup_map_delete (f : string * CacheEntry T -> Z) k m :
  NoDup (map f m) -> NoDup (map f (JsMap.delete k m)).
Proof.
  induction m as [|[k0 e0] m IH]; simpl; [auto|].
  intros H. inversion H as [|? ? Hn Hm]; subst.
  destruct (String.eqb k k0); [assumption|]. simpl.
  constructor; [|now apply IH].
  intros Hx. apply Hn. apply in_map_iff in Hx.
  destruct Hx as ([k1 e1] & Hke & Hi). apply in_map_iff.
  exists (k1, e1). split; [assumption|]. eapply jsmap_In_delete; eauto.
Qed.

Lemma NoDup_map_eq {A B : Type} (f : A -> B) (l : list A) x y :
  NoDup (map f l) -> In x l -> In y l -> f x = f y -> x = y.
Proof.
  induction l as [|a l IH]; simpl; [tauto|].
  intros H. inversion H as [|? ? Hn Hl]; subst.
  intros [->|Hx] [->|Hy] Hf; auto.
  - exfalso. apply Hn. rewrite Hf. now apply in_map.
  - exfalso. apply Hn. rewrite <- Hf. now apply in_map.
Qed.

Lemma wellFormed_new maxSizeMB : wellFormed (new maxSizeMB).
Proof. split; simpl; constructor. Qed.

Lemma wellFormed_updateStats c : wellFormed c -> wellFormed (updateStats c).
Proof. intros [H1 H2 H3 H4 H5]. split; assumption. Qed.

(** Storing, under [k], an entry stamped with the next counter value. *)
Lemma wellFormed_stamp c k v sz gen total :
  wellFormed c ->
  total = sumSizes (JsMap.set k (mkEntry k v sz (accessCounter c + 1) gen)
                              (entries c)) ->
  wellFormed
    (mkCache (JsMap.set k (mkEntry k v sz (accessCounter c + 1) gen)
                        (entries c))
             (accessCounter c + 1) total (maxSize c) (stats c)).
Proof.
  intros [H1 H2 H3 H4 H5] Ht. split; simpl.
  - now apply jsmap_NoDup_set.
  - now apply jsmap_Forall_set.
  - assumption.
  - apply jsmap_Forall_set; [unfold accessOf; simpl; lia|].
    eapply Forall_impl; [|exact H4]. intros ke Hke. simpl in Hke. lia.
  - apply NoDup_map_set; [assumption| |reflexivity].
    intros ke Hin. unfold accessOf. simpl.
    rewrite Forall_forall in H4. specialize (H4 _ Hin).
    unfold accessOf in H4. lia.
Qed.

Lemma wellFormed_get k c : wellFormed c -> wellFormed (snd (get k c)).
Proof.
  intros Hc. unfold get.
  destruct (JsMap.get k (entries c)) as [e|] eqn:E; simpl.
  - assert (Hk : key e = k).
    { destruct Hc as [_ H2 _ _ _]. rewrite Forall_forall in H2.
      exact (H2 _ (jsmap_get_In _ _ _ E)). }
    rewrite Hk.
    destruct (wellFormed_stamp c k (value e) (size e) (generation e)
                (totalSize c) Hc) as [W1 W2 W3 W4 W5].
    + rewrite sumSizes_set, E. simpl. destruct Hc. lia.
    + split; assumption.
  - destruct Hc. split; assumption.
Qed.

Lemma wellFormed_insert k v sz gen c :
  wellFormed c -> wellFormed (insert k v sz gen c).
Proof.
  intros Hc. unfold insert. apply wellFormed_stamp; [assumption|].
  rewrite sumSizes_set. simpl. destruct Hc as [_ _ H3 _ _].
  destruct (JsMap.get k (entries c)); lia.
Qed.

(** Removing a stored key, with its size taken off the total. *)
Lemma wellFormed_remove k e c st :
  wellFormed c -> JsMap.get k (entries c) = Some e ->
  wellFormed (mkCache (JsMap.delete k (entries c)) (accessCounter c)
                      (totalSize c - size e) (maxSize c) st).
Proof.
  intros [H1 H2 H3 H4 H5] E. split; simpl.
  - now apply jsmap_NoDup_delete.
  - now apply jsmap_Forall_delete.
  - rewrite (sumSizes_delete _ _ _ E). lia.
  - now apply jsmap_Forall_delete.
  - now apply NoDup_map_delete.
Qed.

Lemma wellFormed_delete k c : wellFormed c -> wellFormed (snd (delete k c)).
Proof.
  intros Hc. unfold delete.
  destruct (JsMap.get k (entries c)) as [e|] eqn:E; simpl; [|assumption].
  apply wellFormed_updateStats. now apply wellFormed_remove.
Qed.

Lemma wellFormed_evictLRU c : wellFormed c -> wellFormed (evictLRU c).
Proof.
  intros Hc. unfold evictLRU.
  destruct (fst (scanLRU (entries c))) as [k|]; [|assumption].
  destruct (truthy_string k); [|assumption].
  destruct (JsMap.get k (entries c)) as [e|] eqn:E; [|assumption].
  now apply wellFormed_remove.
Qed.

Lemma wellFormed_evictWhile fuel c c' :
  wellFormed c -> evictWhile fuel c = Some c' -> wellFormed c'.
Proof.
  revert c. induction fuel as [|fuel IH]; intros c Hc; simpl;
    destruct (overLimit c); try discriminate; try (now intros [= <-]).
  apply IH. now apply wellFormed_evictLRU.
Qed.

Lemma wellFormed_deletes ks c :
  wellFormed c -> wellFormed (fold_left (fun c k => snd (delete k c)) ks c).
Proof.
  revert c. induction ks as [|k ks IH]; simpl; intros c Hc; [assumption|].
  apply IH. now apply wellFormed_delete.
Qed.

Lemma wellFormed_apply fuel o c c' :
  wellFormed c -> apply fuel o c = Some c' -> wellFormed c'.
Proof.
  destruct o as [k v sz gen|k|k|k| |g]; simpl; intros Hc.
  - unfold set.
    destruct (evictWhile fuel (insert k v sz gen c)) as [c1|] eqn:E;
      [|discriminate].
    intros [= <-]. apply wellFormed_updateStats.
    eapply wellFormed_evictWhile; [|exact E]. now apply wellFormed_insert.
  - intros [= <-]. now apply wellFormed_get.
  - now intros [= <-].
  - intros [= <-]. now apply wellFormed_delete.
  - intros [= <-]. unfold clear. split; simpl; constructor.
  - intros [= <-]. now apply wellFormed_deletes.
Qed.

Lemma wellFormed_run fuel ops c c' :
  wellFormed c -> run fuel ops c = Some c' -> wellFormed c'.
Proof.
  revert c. induction ops as [|o ops IH]; simpl; intros c Hc.
  - now intros [= <-].
  - destruct (apply fuel o c) as [c1|] eqn:E; [|discriminate].
    apply IH. eapply wellFormed_apply; eauto.
Qed.

(** *** The statistics stay in step *)

Lemma statsSynced_deletes ks c :
  statsSynced c ->
  statsSynced (fold_left (fun c k => snd (delete k c)) ks c).
Proof.
  revert c. induction ks as [|k ks IH]; simpl; intros c Hc; [assumption|].
  apply IH. unfold delete.
  destruct (JsMap.get k (entries c)); simpl; [|assumption].
  destruct Hc as (_ & _ & Hm). repeat split. exact Hm.
Qed.

Lemma maxSize_evictLRU c :
  maxSize (evictLRU c) = maxSize c /\
  stat_maxSize (stats (evictLRU c)) = stat_maxSize (stats c).
Proof.
  unfold evictLRU.
  destruct (fst (scanLRU (entries c))) as [k|]; [|auto].
  destruct (truthy_string k); [|auto].
  destruct (JsMap.get k (entries c)); auto.
Qed.

Lemma maxSize_evictWhile fuel c c' :
  evictWhile fuel c = Some c' ->
  maxSize c' = maxSize c /\ stat_maxSize (stats c') = stat_maxSize (stats c).
Proof.
  revert c. induction fuel as [|fuel IH]; intros c; simpl;
    destruct (overLimit c); try discriminate; try (now intros [= <-]).
  intros H. destruct (IH _ H) as [A B].
  destruct (maxSize_evictLRU c) as [A' B']. split; congruence.
Qed.

Lemma statsSynced_apply fuel o c c' :
  statsSynced c -> apply fuel o c = Some c' -> statsSynced c'.
Proof.
  destruct o as [k v sz gen|k|k|k| |g]; simpl; intros Hc.
  - unfold set.
    destruct (evictWhile fuel (insert k v sz gen c)) as [c1|] eqn:E;
      [|discriminate].
    intros [= <-]. destruct (maxSize_evictWhile _ _ _ E) as [A B].
    simpl in A, B. destruct Hc as (_ & _ & Hm).
    repeat split. simpl. congruence.
  - intros [= <-]. unfold get.
    destruct (JsMap.get k (entries c)) as [e|] eqn:E; simpl.
    + destruct Hc as (H1 & H2 & H3). repeat split; simpl; try assumption.
      rewrite H1. unfold JsMap.size. rewrite jsmap_length_set.
      unfold JsMap.has. now rewrite E.
    + exact Hc.
  - now intros [= <-].
  - intros [= <-]. unfold delete.
    destruct (JsMap.get k (entries c)); simpl; [|assumption].
    destruct Hc as (_ & _ & Hm). repeat split. exact Hm.
  - intros [= <-]. destruct Hc as (_ & _ & Hm). repeat split. exact Hm.
  - intros [= <-]. now apply statsSynced_deletes.
Qed.

Lemma statsSynced_run fuel ops c c' :
  statsSynced c -> run fuel ops c = Some c' -> statsSynced c'.
Proof.
  revert c. induction ops as [|o ops IH]; simpl; intros c Hc.
  - now intros [= <-].
  - destruct (apply fuel o c) as [c1|] eqn:E; [|discriminate].
    apply IH. eapply statsSynced_apply; eauto.
Qed.
End CacheMore.

(** ** The LRU cache: the victim, recency, lookups *)

Section CacheVictim.
Context {T : Type}.
Import Cache.
Local Abbreviation cache := (LRUTileCache T).
Implicit Types (c : cache) (m : JsMap.t (CacheEntry T)) (k : string).

(** From a candidate on, the scan ends on a pair whose stamp is the least
    seen: the candidate's, or that of a stored pair. *)
Lemma scan_min m k a :
  exists k' a',
    fold_left scanStep m (Some k, Some a) = (Some k', Some a') /\
    a' <= a /\
    Forall (fun ke => a' <= accessOf ke) m /\
    ((k' = k /\ a' = a) \/ exists e, In (k', e) m /\ lastAccess e = a').
Proof.
  revert k a. induction m as [|[k0 e0] m IH]; intros k a; simpl.
  - exists k, a. repeat split; [lia|constructor|now left].
  - unfold scanStep at 2. simpl.
    destruct (Z.ltb_spec (lastAccess e0) a) as [Hlt|Hge].
    + destruct (IH k0 (lastAccess e0)) as (k' & a' & H1 & H2 & H3 & H4).
      exists k', a'. split; [assumption|]. split; [lia|]. split.
      * constructor; [unfold accessOf; simpl; lia|assumption].
      * right. destruct H4 as [[-> ->]|(e & Hi & He)].
        -- exists e0. split; [now left|reflexivity].
        -- exists e. split; [now right|assumption].
    + destruct (IH k a) as (k' & a' & H1 & H2 & H3 & H4).
      exists k', a'. split; [assumption|]. split; [assumption|]. split.
      * constructor; [unfold accessOf; simpl; lia|assumption].
      * destruct H4 as [?|(e & Hi & He)]; [now left|].
        right. exists e. split; [now right|assumption].
Qed.

(** On a non-empty map the scan selects a stored pair with the least
    [lastAccess]. *)
Lemma scanLRU_min m :
  m <> [] ->
  exists k e,
    fst (scanLRU m) = Some k /\ In (k, e) m /\
    Forall (fun ke => lastAccess e <= accessOf ke) m.
Proof.
  destruct m as [|[k0 e0] m]; [congruence|]. intros _.
  unfold scanLRU. simpl. unfold scanStep at 2. simpl.
  destruct (scan_min m k0 (lastAccess e0)) as (k' & a' & H1 & H2 & H3 & H4).
  rewrite H1. simpl.
  destruct H4 as [[-> ->]|(e & Hi & He)].
  - exists k0, e0. split; [reflexivity|]. split; [now left|].
    constructor; [unfold accessOf; simpl; lia|assumption].
  - exists k', e. subst a'. split; [reflexivity|]. split; [now right|].
    constructor; [unfold accessOf; simpl; lia|assumption].
Qed.

(** In a well-formed cache the victim is the one entry whose stamp is below
    all the others. *)
Lemma victim_least c :
  wellFormed c -> entries c <> [] ->
  exists k e,
    fst (scanLRU (entries c)) = Some k /\
    JsMap.get k (entries c) = Some e /\
    (forall k' e', In (k', e') (entries c) -> k' <> k ->
                   lastAccess e < lastAccess e').
Proof.
  intros [H1 _ _ _ H5] Hne.
  destruct (scanLRU_min _ Hne) as (k & e & Hs & Hin & Hmin).
  exists k, e. split; [assumption|].
  split; [now apply jsmap_In_get_NoDup|].
  intros k' e' Hin' Hk.
  rewrite Forall_forall in Hmin. specialize (Hmin _ Hin').
  unfold accessOf in Hmin. simpl in Hmin.
  assert (lastAccess e <> lastAccess e'); [|lia].
  intros Heq.
  assert (Hp : (k, e) = (k', e')).
  { eapply (NoDup_map_eq accessOf); eauto. }
  congruence.
Qed.

(** [k] holds the most recent stamp. *)
Definition newest k m : Prop :=
  exists e,
    JsMap.get k m = Some e /\
    forall k' e', In (k', e') m -> k' <> k -> lastAccess e' < lastAccess e.

Lemma another_entry k m e :
  NoDup (JsMap.keys m) -> JsMap.get k m = Some e -> 1 < JsMap.size m ->
  exists k' e', In (k', e') m /\ k' <> k.
Proof.
  unfold JsMap.size.
  destruct m as [|[k1 e1] [|[k2 e2] m]]; simpl; try lia.
  intros H _ _. inversion H as [|? ? Hn _]; subst.
  destruct (string_dec k1 k) as [->|Hk].
  - exists k2, e2. split; [right; now left|].
    intros ->. apply Hn. now left.
  - exists k1, e1. split; [now left|assumption].
Qed.

(** One call of [evictLRU] on a map of two entries or more never removes
    the entry with the most recent stamp. *)
Lemma evictLRU_spares_newest k c :
  NoDup (JsMap.keys (entries c)) -> 1 < JsMap.size (entries c) ->
  newest k (entries c) -> newest k (entries (evictLRU c)).
Proof.
  intros Hnd Hsz (e & Hg & Hnew).
  destruct (scanLRU_min (entries c) (size_gt_1_nonempty _ Hsz))
    as (kv & ev & Hs & Hin & Hmin).
  unfold evictLRU. rewrite Hs.
  destruct (truthy_string kv); [|exists e; auto].
  rewrite (jsmap_In_get_NoDup _ _ _ Hnd Hin). simpl.
  assert (Hne : kv <> k).
  { intros ->.
    destruct (another_entry _ _ _ Hnd Hg Hsz) as (k' & e' & Hi & Hk).
    pose proof (Hnew _ _ Hi Hk) as Hlt.
    rewrite (jsmap_In_get_NoDup _ _ _ Hnd Hin) in Hg. injection Hg as ->.
    rewrite Forall_forall in Hmin. specialize (Hmin _ Hi).
    unfold accessOf in Hmin. simpl in Hmin. lia. }
  exists e. split.
  - rewrite jsmap_get_delete_other; [assumption|congruence].
  - intros k' e' Hi Hk. apply (Hnew k' e'); [|assumption].
    eapply jsmap_In_delete; eauto.
Qed.

Lemma evictLRU_NoDup c :
  NoDup (JsMap.keys (entries c)) -> NoDup (JsMap.keys (entries (evictLRU c))).
Proof.
  intros H. unfold evictLRU.
  destruct (fst (scanLRU (entries c))) as [kv|]; [|assumption].
  destruct (truthy_string kv); [|assumption].
  destruct (JsMap.get kv (entries c)); [|assumption].
  simpl. now apply jsmap_NoDup_delete.
Qed.

(** Eviction never changes the entry under a key that stays. *)
Lemma evictLRU_get k c e :
  NoDup (JsMap.keys (entries c)) ->
  JsMap.get k (entries (evictLRU c)) = Some e ->
  JsMap.get k (entries c) = Some e.
Proof.
  intros Hnd. unfold evictLRU.
  destruct (fst (scanLRU (entries c))) as [kv|]; [|auto].
  destruct (truthy_string kv); [|auto].
  destruct (JsMap.get kv (entries c)) eqn:Ek; [|auto].
  simpl. destruct (string_dec k kv) as [->|Hne].
  - rewrite jsmap_get_delete_same by assumption. discriminate.
  - now rewrite jsmap_get_delete_other by assumption.
Qed.

Lemma evictWhile_get fuel k c c' e :
  NoDup (JsMap.keys (entries c)) ->
  evictWhile fuel c = Some c' ->
  JsMap.get k (entries c') = Some e ->
  JsMap.get k (entries c) = Some e.
Proof.
  revert c. induction fuel as [|fuel IH]; intros c Hnd; simpl;
    destruct (overLimit c); try discriminate;
    try (intros [= <-]; auto).
  intros H He. apply evictLRU_get; [assumption|].
  eapply IH; eauto. now apply evictLRU_NoDup.
Qed.

Lemma evictWhile_spares_newest fuel k c c' :
  NoDup (JsMap.keys (entries c)) -> newest k (entries c) ->
  evictWhile fuel c = Some c' -> newest k (entries c').
Proof.
  revert c. induction fuel as [|fuel IH]; intros c Hnd Hn; simpl;
    destruct (overLimit c) eqn:E; try discriminate; try (now intros [= <-]).
  destruct (overLimit_true _ E) as [_ Hsz].
  apply IH; [now apply evictLRU_NoDup|now apply evictLRU_spares_newest].
Qed.

(** After a stamp with the next counter value, [k] is the newest. *)
Lemma newest_after_stamp c k e :
  wellFormed c -> lastAccess e = accessCounter c + 1 ->
  newest k (JsMap.set k e (entries c)).
Proof.
  intros [H1 _ _ H4 _] He. exists e. split; [apply jsmap_get_set_same|].
  intros k' e' Hin Hk.
  destruct (jsmap_In_set _ _ _ _ _ H1 Hin) as [[? _]|[_ Hi]]; [congruence|].
  rewrite Forall_forall in H4. specialize (H4 _ Hi).
  unfold accessOf in H4. simpl in H4. lia.
Qed.

(** The entry that [set] stores is still there when [set] returns. *)
Lemma set_keeps_key fuel k v sz gen c c' :
  wellFormed c -> set fuel k v sz gen c = Some c' ->
  JsMap.get k (entries c')
  = Some (mkEntry k v sz (accessCounter c + 1) gen).
Proof.
  intros Hc. unfold set.
  destruct (evictWhile fuel (insert k v sz gen c)) as [c1|] eqn:E;
    [|discriminate].
  intros [= <-]. simpl.
  pose proof (wellFormed_insert k v sz gen c Hc) as Hi.
  assert (Hn : newest k (entries (insert k v sz gen c))).
  { simpl. now apply newest_after_stamp. }
  destruct (evictWhile_spares_newest _ _ _ _ (wf_keys _ Hi) Hn E)
    as (e & He & _).
  pose proof (evictWhile_get _ _ _ _ _ (wf_keys _ Hi) E He) as Hg.
  simpl in Hg. rewrite jsmap_get_set_same in Hg. congruence.
Qed.
End CacheVictim.

Section CacheCounters.
Context {T : Type}.
Import Cache.
Local Abbreviation cache := (LRUTileCache T).
Implicit Types (c : cache) (k : string).

(** Number of [get] calls of a script. *)
Definition countGets (ops : list (op T)) : Z :=
  Z.of_nat (List.length
              (filter (fun o => match o with OpGet _ => true | _ => false end)
                      ops)).

Definition lookups c : Z := hits (stats c) + misses (stats c).

Lemma lookups_evictLRU c : lookups (evictLRU c) = lookups c.
Proof.
  unfold evictLRU.
  destruct (fst (scanLRU (entries c))) as [k|]; [|reflexivity].
  destruct (truthy_string k); [|reflexivity].
  now destruct (JsMap.get k (entries c)).
Qed.

Lemma lookups_evictWhile fuel c c' :
  evictWhile fuel c = Some c' -> lookups c' = lookups c.
Proof.
  revert c. induction fuel as [|fuel IH]; intros c; simpl;
    destruct (overLimit c); try discriminate; try (now intros [= <-]).
  intros H. rewrite (IH _ H). apply lookups_evictLRU.
Qed.

Lemma lookups_deletes ks c :
  lookups (fold_left (fun c k => snd (delete k c)) ks c) = lookups c.
Proof.
  revert c. induction ks as [|k ks IH]; simpl; intros c; [reflexivity|].
  rewrite IH. unfold delete. now destruct (JsMap.get k (entries c)).
Qed.

Lemma lookups_run fuel ops c c' :
  run fuel ops c = Some c' -> lookups c' = lookups c + countGets ops.
Proof.
  unfold countGets. revert c.
  induction ops as [|o ops IH]; simpl; intros c.
  - intros [= <-]. lia.
  - destruct (apply fuel o c) as [c1|] eqn:E; [|discriminate].
    intros H. rewrite (IH _ H). clear IH H.
    destruct o as [k v sz gen|k|k|k| |g]; simpl in *.
    + unfold set in E.
      destruct (evictWhile fuel (insert k v sz gen c)) as [c2|] eqn:E2;
        [|discriminate].
      injection E as <-. apply lookups_evictWhile in E2.
      unfold lookups in *. simpl in *. lia.
    + injection E as <-. unfold get, lookups.
      destruct (JsMap.get k (entries c)); simpl; lia.
    + injection E as <-. lia.
    + injection E as <-. unfold delete, lookups.
      destruct (JsMap.get k (entries c)); simpl; lia.
    + injection E as <-. unfold lookups. simpl. lia.
    + injection E as <-. unfold invalidateOldGenerations.
      rewrite lookups_deletes. lia.
Qed.

(** *** Deleting a list of keys *)

Lemma entries_delete k c :
  entries (snd (delete k c)) = JsMap.delete k (entries c).
Proof.
  unfold delete. destruct (JsMap.get k (entries c)) eqn:E; simpl;
    [reflexivity|]. symmetry. now apply jsmap_get_None_delete.
Qed.

Lemma entries_deletes ks c :
  NoDup (JsMap.keys (entries c)) ->
  entries (fold_left (fun c k => snd (delete k c)) ks c)
  = filter (fun ke => negb (existsb (String.eqb (fst ke)) ks)) (entries c).
Proof.
  revert c. induction ks as [|k ks IH]; simpl; intros c Hnd.
  - symmetry. apply forallb_filter_id. now apply forallb_forall.
  - rewrite IH by (rewrite entries_delete; now apply jsmap_NoDup_delete).
    rewrite entries_delete, jsmap_delete_filter by assumption.
    generalize (entries c). intros m.
    induction m as [|[k0 e0] m IHm]; simpl; [reflexivity|].
    rewrite (String.eqb_sym k0 k).
    destruct (String.eqb k k0); simpl; [assumption|].
    destruct (existsb (String.eqb k0) ks); simpl; [assumption|].
    now rewrite IHm.
Qed.

Lemma invalidate_entries g c :
  NoDup (JsMap.keys (entries c)) ->
  entries (invalidateOldGenerations g c)
  = filter (fun ke => negb (generation (snd ke) <? g)) (entries c).
Proof.
  intros Hnd. unfold invalidateOldGenerations.
  rewrite entries_deletes by assumption.
  apply filter_ext_in. intros [k e] Hin. simpl. f_equal.
  unfold keysToDelete.
  destruct (generation e <? g) eqn:Eg.
  - apply existsb_exists. exists k. split; [|apply String.eqb_refl].
    change k with (fst (k, e)). apply in_map.
    apply filter_In. split; assumption.
  - destruct (existsb (String.eqb k) _) eqn:Ex; [|reflexivity].
    apply existsb_exists in Ex. destruct Ex as (k' & Hk' & Heq).
    apply String.eqb_eq in Heq. subst k'.
    apply in_map_iff in Hk'. destruct Hk' as ([k1 e1] & Hf & Hi).
    simpl in Hf. subst k1. apply filter_In in Hi. destruct Hi as [Hi Hold].
    simpl in Hold.
    assert (e1 = e).
    { pose proof (jsmap_In_get_NoDup _ _ _ Hnd Hi).
      pose proof (jsmap_In_get_NoDup _ _ _ Hnd Hin). congruence. }
    subst. congruence.
Qed.
Lemma maxSize_run fuel ops c c' :
  run fuel ops c = Some c' -> maxSize c' = maxSize c.
Proof.
  revert c. induction ops as [|o ops IH]; simpl; intros c.
  - now intros [= <-].
  - destruct (apply fuel o c) as [c1|] eqn:E; [|discriminate].
    intros Hr. rewrite (IH _ Hr). clear IH Hr.
    destruct o as [k v sz gen|k|k|k| |g]; simpl in E.
    + unfold set in E.
      destruct (evictWhile fuel (insert k v sz gen c)) as [c2|] eqn:E2;
        [|discriminate].
      injection E as <-. simpl. now destruct (maxSize_evictWhile _ _ _ E2).
    + injection E as <-. unfold get.
      now destruct (JsMap.get k (entries c)).
    + now injection E as <-.
    + injection E as <-. unfold delete.
      now destruct (JsMap.get k (entries c)).
    + now injection E as <-.
    + injection E as <-. unfold invalidateOldGenerations.
      generalize (keysToDelete g c). intros ks. revert c.
      induction ks as [|k ks IHk]; simpl; intros c; [reflexivity|].
      rewrite IHk. unfold delete. now destruct (JsMap.get k (entries c)).
Qed.
End CacheCounters.

(** A script that fills a cache of 1 MiB, reads its first entry and stores
    a third one, which evicts the second. *)
Definition recencyScript : list (Cache.op Z) :=
  [Cache.OpSet "3/1/1" 11 600000 0; Cache.OpSet "3/1/2" 12 300000 1;
   Cache.OpGet "3/1/1"; Cache.OpGet "3/9/9"; Cache.OpSet "3/2/2" 13 300000 1].

(** X1 (size accounting).  After any script of public operations, with
    sizes of either sign, the tracked [totalSize] is the sum of the sizes
    of the stored entries, and [getStats()] reports the number of entries,
    that total and the budget. *)
Theorem cache_accounting (T : Type) (maxSizeMB : Z) (ops : list (Cache.op T))
        (fuel : nat) (c : Cache.LRUTileCache T) :
  Cache.run fuel ops (Cache.new maxSizeMB) = Some c ->
  Cache.totalSize c = sumSizes (Cache.entries c) /\
  Cache.stat_entries (Cache.getStats c) = Cache.count c /\
  Cache.stat_totalSize (Cache.getStats c) = Cache.totalSize c /\
  Cache.stat_maxSize (Cache.getStats c) = maxSizeMB * 1024 * 1024.
Proof.
  intros H.
  pose proof (wellFormed_run _ _ _ _ (wellFormed_new maxSizeMB) H) as W.
  assert (S0 : statsSynced (Cache.new (T := T) maxSizeMB))
    by (repeat split).
  destruct (statsSynced_run _ _ _ _ S0 H) as (S1 & S2 & S3).
  split; [exact (wf_total _ W)|]. split; [exact S1|]. split; [exact S2|].
  unfold Cache.getStats. rewrite S3, (maxSize_run _ _ _ _ H). reflexivity.
Qed.

Lemma cache_accounting_witness :
  exists c,
    Cache.run 1 recencyScript (Cache.new 1) = Some c /\
    Cache.totalSize c = sumSizes (Cache.entries c) /\
    Cache.stat_entries (Cache.getStats c) = Cache.count c.
Proof.
  eexists. split; [reflexivity|].
  destruct (cache_accounting Z 1 recencyScript 1 _ eq_refl) as (A & B & _).
  split; assumption.
Defined.

(** X2 (one entry per key).  After any script no two stored entries share
    a key, every entry carries the key it is stored under, and no two
    entries carry the same [lastAccess] stamp. *)
Theorem cache_keys_unique (T : Type) (maxSizeMB : Z) (ops : list (Cache.op T))
        (fuel : nat) (c : Cache.LRUTileCache T) :
  Cache.run fuel ops (Cache.new maxSizeMB) = Some c ->
  NoDup (Cache.keys c) /\
  Forall (fun ke => Cache.key (snd ke) = fst ke) (Cache.entries c) /\
  NoDup (map (fun ke => Cache.lastAccess (snd ke)) (Cache.entries c)).
Proof.
  intros H.
  destruct (wellFormed_run _ _ _ _ (wellFormed_new maxSizeMB) H)
    as [W1 W2 _ _ W5].
  split; [exact W1|]. split; [exact W2|exact W5].
Qed.

Lemma cache_keys_unique_witness :
  exists c,
    Cache.run 1 recencyScript (Cache.new 1) = Some c /\ NoDup (Cache.keys c).
Proof.
  eexists. split; [reflexivity|].
  exact (proj1 (cache_keys_unique Z 1 recencyScript 1 _ eq_refl)).
Defined.

(** X3 (the victim is the least recently used entry).  In a cache built by
    a script and not empty, [evictLRU] selects the one stored key whose
    [lastAccess] is strictly below that of every other entry; when that
    key is not the empty string it removes exactly that entry, takes its
    size off the total and counts one eviction. *)
Theorem eviction_victim_least_recent
        (T : Type) (maxSizeMB : Z) (ops : list (Cache.op T)) (fuel : nat)
        (c : Cache.LRUTileCache T) :
  Cache.run fuel ops (Cache.new maxSizeMB) = Some c ->
  Cache.entries c <> [] ->
  exists k e,
    JsMap.get k (Cache.entries c) = Some e /\
    (forall k' e', In (k', e') (Cache.entries c) -> k' <> k ->
                   Cache.lastAccess e < Cache.lastAccess e') /\
    (k <> EmptyString ->
     Cache.evictLRU c =
       Cache.mkCache (JsMap.delete k (Cache.entries c))
                     (Cache.accessCounter c)
                     (Cache.totalSize c - Cache.size e) (Cache.maxSize c)
                     (Cache.with_evictions (Cache.stats c)
                        (Cache.evictions (Cache.stats c) + 1)) /\
     JsMap.get k (Cache.entries (Cache.evictLRU c)) = None).
Proof.
  intros H Hne.
  pose proof (wellFormed_run _ _ _ _ (wellFormed_new maxSizeMB) H) as W.
  destruct (victim_least c W Hne) as (k & e & Hs & Hg & Hmin).
  exists k, e. split; [assumption|]. split; [assumption|].
  intros Hk. unfold Cache.evictLRU.
  rewrite Hs, (truthy_string_true _ Hk), Hg. split; [reflexivity|].
  simpl. apply jsmap_get_delete_same. exact (wf_keys _ W).
Qed.

Lemma eviction_victim_least_recent_witness :
  exists c k e,
    Cache.run 1 (firstn 3 recencyScript) (Cache.new 1) = Some c /\
    JsMap.get k (Cache.entries c) = Some e /\
    (forall k' e', In (k', e') (Cache.entries c) -> k' <> k ->
                   Cache.lastAccess e < Cache.lastAccess e').
Proof.
  eexists.
  destruct (eviction_victim_least_recent Z 1 (firstn 3 recencyScript) 1
              _ eq_refl) as (k & e & Hg & Hmin & _).
  - simpl. discriminate.
  - exists k, e. split; [reflexivity|]. split; assumption.
Defined.

(** X4 (a stored entry survives its own [set]).  When [set] returns, on a
    cache built by a script, the key just stored is present with the value
    just stored, however far the cache is over budget: a following [get]
    returns that value. *)
Theorem set_then_get (T : Type) (maxSizeMB : Z) (ops : list (Cache.op T))
        (fuel : nat) (c c' : Cache.LRUTileCache T)
        (k : string) (v : T) (sz gen : Z) :
  Cache.run fuel ops (Cache.new maxSizeMB) = Some c ->
  Cache.set fuel k v sz gen c = Some c' ->
  Cache.has k c' = true /\ fst (Cache.get k c') = Some v.
Proof.
  intros H Hs.
  pose proof (wellFormed_run _ _ _ _ (wellFormed_new maxSizeMB) H) as W.
  pose proof (set_keeps_key _ _ _ _ _ _ _ W Hs) as Hg.
  unfold Cache.has, JsMap.has, Cache.get. rewrite Hg. auto.
Qed.

Lemma set_then_get_witness :
  exists c c',
    Cache.run 1 recencyScript (Cache.new 1) = Some c /\
    Cache.set 2 "3/3/3" 14 2000000 1 c = Some c' /\
    fst (Cache.get "3/3/3" c') = Some 14.
Proof.
  eexists. eexists. split; [reflexivity|]. split; [reflexivity|].
  exact (proj2 (set_then_get Z 1 recencyScript 2 _ _ "3/3/3" 14 2000000 1
                  eq_refl eq_refl)).
Defined.

(** X5 (a [get] protects its entry).  After a [get] that hits, on a cache
    built by a script that holds two entries or more, the next [evictLRU]
    does not remove the entry that was read. *)
Theorem get_protects_entry (T : Type) (maxSizeMB : Z) (ops : list (Cache.op T))
        (fuel : nat) (c : Cache.LRUTileCache T) (k : string) (v : T) :
  Cache.run fuel ops (Cache.new maxSizeMB) = Some c ->
  fst (Cache.get k c) = Some v ->
  1 < Cache.count c ->
  Cache.has k (Cache.evictLRU (snd (Cache.get k c))) = true.
Proof.
  intros H Hg Hsz.
  pose proof (wellFormed_run _ _ _ _ (wellFormed_new maxSizeMB) H) as W.
  pose proof (wellFormed_get k c W) as Wg.
  unfold Cache.get in *.
  destruct (JsMap.get k (Cache.entries c)) as [e|] eqn:E; [|discriminate].
  simpl in *.
  assert (Hn : newest k (Cache.entries
            (Cache.mkCache
               (JsMap.set k
                  (Cache.mkEntry (Cache.key e) (Cache.value e) (Cache.size e)
                     (Cache.accessCounter c + 1) (Cache.generation e))
                  (Cache.entries c))
               (Cache.accessCounter c + 1) (Cache.totalSize c)
               (Cache.maxSize c)
               (Cache.with_hits (Cache.stats c)
                  (Cache.hits (Cache.stats c) + 1))))).
  { simpl. now apply newest_after_stamp. }
  apply evictLRU_spares_newest in Hn.
  - destruct Hn as (e' & He' & _). unfold Cache.has, JsMap.has.
    now rewrite He'.
  - exact (wf_keys _ Wg).
  - simpl. unfold Cache.count, JsMap.size in *.
    rewrite jsmap_length_set. unfold JsMap.has. now rewrite E.
Qed.

Lemma get_protects_entry_witness :
  exists c,
    Cache.run 1 (firstn 2 recencyScript) (Cache.new 1) = Some c /\
    Cache.has "3/1/1" (Cache.evictLRU (snd (Cache.get "3/1/1" c))) = true.
Proof.
  eexists. split; [reflexivity|].
  apply (get_protects_entry Z 1 (firstn 2 recencyScript) 1 _ "3/1/1" 11
           eq_refl); [reflexivity|]. vm_compute. reflexivity.
Defined.

(** X6 (every lookup is counted once).  After any script, [hits + misses]
    is the number of [get] calls of the script: [has], [set], [delete],
    [clear] and [invalidateOldGenerations] count nothing, and [clear] does
    not reset the counters. *)
Theorem hits_and_misses_count_gets
        (T : Type) (maxSizeMB : Z) (ops : list (Cache.op T)) (fuel : nat)
        (c : Cache.LRUTileCache T) :
  Cache.run fuel ops (Cache.new maxSizeMB) = Some c ->
  Cache.hits (Cache.getStats c) + Cache.misses (Cache.getStats c)
  = countGets ops.
Proof.
  intros H. pose proof (lookups_run _ _ _ _ H) as L.
  unfold lookups in L. simpl in L. unfold Cache.getStats. lia.
Qed.

Lemma hits_and_misses_count_gets_witness :
  exists c,
    Cache.run 1 recencyScript (Cache.new 1) = Some c /\
    Cache.hits (Cache.getStats c) + Cache.misses (Cache.getStats c) = 2.
Proof.
  eexists. split; [reflexivity|].
  exact (hits_and_misses_count_gets Z 1 recencyScript 1 _ eq_refl).
Defined.

(** X7 (generation invalidation).  On a cache built by a script,
    [invalidateOldGenerations g] keeps exactly the entries whose generation
    is at least [g], in their order, and the total stays the sum of the
    sizes that are left. *)
Theorem invalidate_keeps_current
        (T : Type) (maxSizeMB : Z) (ops : list (Cache.op T)) (fuel : nat)
        (c : Cache.LRUTileCache T) (g : Z) :
  Cache.run fuel ops (Cache.new maxSizeMB) = Some c ->
  let c' := Cache.invalidateOldGenerations g c in
  Cache.entries c'
  = filter (fun ke => g <=? Cache.generation (snd ke)) (Cache.entries c) /\
  Cache.totalSize c' = sumSizes (Cache.entries c') /\
  Cache.evictions (Cache.stats c') = Cache.evictions (Cache.stats c).
Proof.
  intros H. cbv zeta.
  pose proof (wellFormed_run _ _ _ _ (wellFormed_new maxSizeMB) H) as W.
  split; [|split].
  - rewrite invalidate_entries by exact (wf_keys _ W).
    apply filter_ext. intros ke.
    destruct (Z.ltb_spec (Cache.generation (snd ke)) g);
      destruct (Z.leb_spec g (Cache.generation (snd ke))); simpl; lia || auto.
  - exact (wf_total _ (wellFormed_deletes _ _ W)).
  - unfold Cache.invalidateOldGenerations.
    generalize (Cache.keysToDelete g c). intros ks. clear. revert c.
    induction ks as [|k ks IH]; simpl; intros c; [reflexivity|].
    rewrite IH. unfold Cache.delete.
    now destruct (JsMap.get k (Cache.entries c)).
Qed.

Lemma invalidate_keeps_current_witness :
  exists c,
    Cache.run 1 recencyScript (Cache.new 1) = Some c /\
    Cache.keys (Cache.invalidateOldGenerations 1 c) = ["3/2/2"].
Proof.
  eexists. split; [reflexivity|].
  destruct (invalidate_keeps_current Z 1 recencyScript 1 _ 1 eq_refl)
    as (E & _).
  unfold Cache.keys. rewrite E. reflexivity.
Defined.

(** X8 ([delete] removes one key).  On a cache built by a script,
    [delete k] returns whether [k] was stored; afterwards [k] is not
    stored, every other key holds the entry it held, and the total is
    reduced by the size of the removed entry. *)
Theorem delete_removes_one_key
        (T : Type) (maxSizeMB : Z) (ops : list (Cache.op T)) (fuel : nat)
        (c : Cache.LRUTileCache T) (k : string) :
  Cache.run fuel ops (Cache.new maxSizeMB) = Some c ->
  let c' := snd (Cache.delete k c) in
  fst (Cache.delete k c) = Cache.has k c /\
  Cache.has k c' = false /\
  (forall k', k' <> k ->
     JsMap.get k' (Cache.entries c') = JsMap.get k' (Cache.entries c)) /\
  Cache.totalSize c' =
    Cache.totalSize c -
    match JsMap.get k (Cache.entries c) with
    | Some e => Cache.size e
    | None => 0
    end.
Proof.
  intros H. cbv zeta.
  pose proof (wellFormed_run _ _ _ _ (wellFormed_new maxSizeMB) H) as W.
  unfold Cache.has, JsMap.has. rewrite entries_delete.
  split; [|split; [|split]].
  - unfold Cache.delete. now destruct (JsMap.get k (Cache.entries c)).
  - rewrite jsmap_get_delete_same by exact (wf_keys _ W). reflexivity.
  - intros k' Hk. now apply jsmap_get_delete_other.
  - unfold Cache.delete. destruct (JsMap.get k (Cache.entries c)); simpl; lia.
Qed.

Lemma delete_removes_one_key_witness :
  exists c,
    Cache.run 1 recencyScript (Cache.new 1) = Some c /\
    Cache.has "3/1/1" (snd (Cache.delete "3/1/1" c)) = false.
Proof.
  eexists. split; [reflexivity|].
  exact (proj1 (proj2 (delete_removes_one_key Z 1 recencyScript 1 _ "3/1/1"
                         eq_refl))).
Defined.

(** ** Tile arithmetic and ordering *)

Section PrioritizerMore.
Import Prioritizer.

Lemma range_In lo hi i : In i (range lo hi) <-> lo <= i <= hi.
Proof.
  unfold range. rewrite in_map_iff. split.
  - intros (n & <- & Hn). apply in_seq in Hn. lia.
  - intros H. exists (Z.to_nat (i - lo)). split; [lia|].
    apply in_seq. lia.
Qed.

Lemma range_NoDup lo hi : NoDup (range lo hi).
Proof.
  unfold range. apply Injective_map_NoDup; [|apply seq_NoDup].
  intros a b H. lia.
Qed.

Lemma range_length lo hi :
  List.length (range lo hi) = Z.to_nat (hi - lo + 1).
Proof. unfold range. now rewrite length_map, length_seq. Qed.

(** [Math.floor] is monotone and brackets its argument. *)
Lemma floor_spec r : (IZR (floor r) <= r < IZR (floor r) + 1)%R.
Proof. unfold floor. pose proof (base_Int_part r). lra. Qed.

Lemma floor_le r1 r2 : (r1 <= r2)%R -> floor r1 <= floor r2.
Proof.
  intros H. pose proof (floor_spec r1). pose proof (floor_spec r2).
  assert (IZR (floor r1) < IZR (floor r2 + 1))%R
    by (rewrite plus_IZR; lra).
  apply lt_IZR in H2. lia.
Qed.

Lemma powerRZ_2_nonneg zoom : 0 <= zoom -> powerRZ 2 zoom = IZR (2 ^ zoom).
Proof.
  intros H. rewrite <- (Z2Nat.id zoom) by assumption. apply powerRZ_2_nat.
Qed.

(** *** The stable sort *)

Definition atDistance (d : Z) (p : PrioritizedTile) : bool := distance p =? d.

Lemma insertByDistance_perm p l :
  Permutation (insertByDistance p l) (p :: l).
Proof.
  induction l as [|q l IH]; simpl; [reflexivity|].
  destruct (distance q <? distance p); [|reflexivity].
  rewrite IH. apply perm_swap.
Qed.

Lemma sortByDistance_perm l : Permutation (sortByDistance l) l.
Proof.
  unfold sortByDistance. induction l as [|p l IH]; simpl; [reflexivity|].
  rewrite insertByDistance_perm. now constructor.
Qed.

Definition closerOrEqual (p q : PrioritizedTile) : Prop :=
  distance p <= distance q.

Lemma insertByDistance_sorted p l :
  StronglySorted closerOrEqual l ->
  StronglySorted closerOrEqual (insertByDistance p l).
Proof.
  induction 1 as [|q l Hl IH Hq]; simpl.
  - repeat constructor.
  - destruct (Z.ltb_spec (distance q) (distance p)) as [Hlt|Hge].
    + constructor; [assumption|].
      rewrite Forall_forall in *. intros r Hr.
      apply (Permutation_in _ (insertByDistance_perm p l)) in Hr.
      destruct Hr as [<-|Hr]; [unfold closerOrEqual; lia|auto].
    + constructor; [now constructor|].
      constructor; [assumption|].
      eapply Forall_impl; [|exact Hq].
      unfold closerOrEqual. intros r Hr. lia.
Qed.

Lemma sortByDistance_sorted l :
  StronglySorted closerOrEqual (sortByDistance l).
Proof.
  unfold sortByDistance. induction l as [|p l IH]; simpl; [constructor|].
  now apply insertByDistance_sorted.
Qed.

Lemma insertByDistance_filter d p l :
  filter (atDistance d) (insertByDistance p l)
  = filter (atDistance d) (p :: l).
Proof.
  induction l as [|q l IH]; simpl; [reflexivity|].
  destruct (Z.ltb_spec (distance q) (distance p)) as [Hlt|Hge];
    [|reflexivity].
  simpl. rewrite IH. simpl. unfold atDistance.
  destruct (Z.eqb_spec (distance q) d), (Z.eqb_spec (distance p) d);
    try reflexivity. lia.
Qed.

Lemma sortByDistance_stable d l :
  filter (atDistance d) (sortByDistance l) = filter (atDistance d) l.
Proof.
  unfold sortByDistance. induction l as [|p l IH]; simpl; [reflexivity|].
  rewrite insertByDistance_filter. simpl. now rewrite IH.
Qed.

(** *** Parents *)

Lemma getParentTiles_steps (n : nat) (tile : TileCoord) (minZoom : Z) :
  0 <= z tile -> Z.of_nat n = z tile - Z.max minZoom 0 ->
  exists l,
    (forall fuel, (n < fuel)%nat -> getParentTiles fuel tile minZoom = Some l) /\
    List.length l = n /\
    (forall i, (i < n)%nat -> nth_error l i = nthParent (S i) tile).
Proof.
  revert tile. induction n as [|n IH]; intros tile Hz Hn.
  - exists []. split; [|split; [reflexivity|intros i Hi; lia]].
    intros [|fuel] Hf; [lia|]. simpl.
    destruct (Z.ltb_spec minZoom (z tile)) as [Hlt|Hge]; [|reflexivity].
    assert (Hz0 : z tile = 0) by lia.
    unfold getParentTile. now rewrite Hz0.
  - assert (Hlt : minZoom < z tile) by lia.
    assert (Hz0 : z tile <> 0) by lia.
    set (parent := {| x := x tile / 2; y := y tile / 2; z := z tile - 1 |}).
    assert (Hp : getParentTile tile = Some parent).
    { unfold getParentTile. destruct (Z.eqb_spec (z tile) 0); [lia|].
      reflexivity. }
    destruct (IH parent) as (l & Hl & Hlen & Hnth); [simpl; lia|simpl; lia|].
    exists (parent :: l). split; [|split].
    + intros [|fuel] Hf; [lia|]. simpl.
      destruct (Z.ltb_spec minZoom (z tile)); [|lia].
      rewrite Hp. rewrite Hl by lia. reflexivity.
    + simpl. now rewrite Hlen.
    + intros [|i] Hi.
      * simpl. rewrite Hp. reflexivity.
      * change (nth_error (parent :: l) (S i)) with (nth_error l i).
        rewrite Hnth by lia. cbn [nthParent]. now rewrite Hp.
Qed.
End PrioritizerMore.

(** X9 (children and parent).  The four tiles of [getChildTiles tile] are
    distinct, lie one zoom level below, and [getParentTile] takes each of
    them back to [tile]; this needs [z tile <> -1], so that the children
    are not at zoom 0. *)
Theorem children_have_parent (tile : Prioritizer.TileCoord) :
  Prioritizer.z tile <> -1 ->
  Forall (fun child => Prioritizer.getParentTile child = Some tile)
         (Prioritizer.getChildTiles tile) /\
  NoDup (Prioritizer.getChildTiles tile) /\
  List.length (Prioritizer.getChildTiles tile) = 4%nat.
Proof.
  intros Hz. destruct tile as [tx ty tz]. simpl in Hz.
  assert (Hd0 : tx * 2 / 2 = tx) by (apply Z.div_mul; lia).
  assert (Hd1 : (tx * 2 + 1) / 2 = tx)
    by (symmetry; apply Z.div_unique with (r := 1); lia).
  assert (He0 : ty * 2 / 2 = ty) by (apply Z.div_mul; lia).
  assert (He1 : (ty * 2 + 1) / 2 = ty)
    by (symmetry; apply Z.div_unique with (r := 1); lia).
  split; [|split; [|reflexivity]].
  - unfold Prioritizer.getChildTiles.
    repeat constructor; unfold Prioritizer.getParentTile;
      cbn [Prioritizer.x Prioritizer.y Prioritizer.z];
      (destruct (Z.eqb_spec (tz + 1) 0); [lia|]);
      replace (tz + 1 - 1) with tz by lia;
      rewrite ?Hd0, ?Hd1, ?He0, ?He1; reflexivity.
  - unfold Prioritizer.getChildTiles. simpl.
    repeat constructor; simpl; intros H;
      repeat (destruct H as [H|H]; [injection H; lia|]); exact H.
Qed.

Lemma children_have_parent_witness :
  Forall (fun child =>
            Prioritizer.getParentTile child = Some (Prioritizer.mkCoord 3 5 4))
         (Prioritizer.getChildTiles (Prioritizer.mkCoord 3 5 4)).
Proof.
  apply (children_have_parent (Prioritizer.mkCoord 3 5 4)). simpl. lia.
Defined.

(** X10 (center-out order).  [prioritizeTiles tiles center] is a
    rearrangement of the given tiles in which the squared distance to the
    center never decreases; tiles at the same distance keep the order they
    had in [tiles]; every element carries the key of its tile and that
    squared distance. *)
Theorem prioritizeTiles_center_out
        (tiles : list Prioritizer.TileCoord) (center : Prioritizer.TileCoord) :
  let sq (t : Prioritizer.TileCoord) :=
    (Prioritizer.x t - Prioritizer.x center)
    * (Prioritizer.x t - Prioritizer.x center)
    + (Prioritizer.y t - Prioritizer.y center)
      * (Prioritizer.y t - Prioritizer.y center) in
  let result := Prioritizer.prioritizeTiles tiles center in
  Permutation (map Prioritizer.coord result) tiles /\
  StronglySorted (fun p q => Prioritizer.distance p <= Prioritizer.distance q)
                 result /\
  Forall (fun p =>
            Prioritizer.distance p = sq (Prioritizer.coord p) /\
            Prioritizer.key p
            = Prioritizer.tileKey (Prioritizer.x (Prioritizer.coord p))
                                  (Prioritizer.y (Prioritizer.coord p))
                                  (Prioritizer.z (Prioritizer.coord p)))
         result /\
  (forall d,
     map Prioritizer.coord
         (filter (fun p => Prioritizer.distance p =? d) result)
     = filter (fun t => sq t =? d) tiles).
Proof.
  cbv zeta. unfold Prioritizer.prioritizeTiles.
  match goal with
  | |- context [Prioritizer.sortByDistance (map ?g tiles)] => set (f := g)
  end.
  pose proof (sortByDistance_perm (map f tiles)) as Hp.
  split; [|split; [|split]].
  - rewrite (Permutation_map Prioritizer.coord Hp), map_map. simpl.
    now rewrite map_id.
  - exact (sortByDistance_sorted (map f tiles)).
  - rewrite Forall_forall. intros p Hin.
    apply (Permutation_in _ Hp) in Hin. apply in_map_iff in Hin.
    destruct Hin as (t & <- & _). simpl. auto.
  - intros d.
    change (fun p => Prioritizer.distance p =? d) with (atDistance d).
    rewrite sortByDistance_stable.
    clear Hp. induction tiles as [|t tiles IH]; simpl; [reflexivity|].
    unfold atDistance at 1. unfold f at 1. simpl.
    destruct (_ =? d); simpl; rewrite IH; reflexivity.
Qed.

(** X11 (visible tiles form a rectangle).  [getVisibleTiles bounds zoom]
    lists, without repetition, exactly the tiles at [zoom] whose column and
    row lie between those of the two corner tiles; both corner tiles are
    in the list, which is therefore never empty. *)
Theorem getVisibleTiles_rectangle (bounds : Prioritizer.Bounds) (zoom : Z) :
  let nw := Prioritizer.lngLatToTile (Prioritizer.west bounds)
                                     (Prioritizer.north bounds) zoom in
  let se := Prioritizer.lngLatToTile (Prioritizer.east bounds)
                                     (Prioritizer.south bounds) zoom in
  let tiles := Prioritizer.getVisibleTiles bounds zoom in
  (forall t,
     In t tiles <->
     Prioritizer.z t = zoom /\
     Z.min (Prioritizer.x nw) (Prioritizer.x se) <= Prioritizer.x t
       <= Z.max (Prioritizer.x nw) (Prioritizer.x se) /\
     Z.min (Prioritizer.y nw) (Prioritizer.y se) <= Prioritizer.y t
       <= Z.max (Prioritizer.y nw) (Prioritizer.y se)) /\
  NoDup tiles /\
  In nw tiles /\ In se tiles /\
  Z.of_nat (List.length tiles)
  = (Z.abs (Prioritizer.x nw - Prioritizer.x se) + 1)
    * (Z.abs (Prioritizer.y nw - Prioritizer.y se) + 1).
Proof.
  cbv zeta. unfold Prioritizer.getVisibleTiles.
  set (nw := Prioritizer.lngLatToTile _ _ _).
  set (se := Prioritizer.lngLatToTile _ _ _).
  set (xlo := Z.min (Prioritizer.x nw) (Prioritizer.x se)).
  set (xhi := Z.max (Prioritizer.x nw) (Prioritizer.x se)).
  set (ylo := Z.min (Prioritizer.y nw) (Prioritizer.y se)).
  set (yhi := Z.max (Prioritizer.y nw) (Prioritizer.y se)).
  assert (Hmem : forall t,
    In t (flat_map
            (fun x' => map (fun y' => Prioritizer.mkCoord x' y' zoom)
                           (Prioritizer.range ylo yhi))
            (Prioritizer.range xlo xhi)) <->
    Prioritizer.z t = zoom /\ xlo <= Prioritizer.x t <= xhi /\
    ylo <= Prioritizer.y t <= yhi).
  { intros t. rewrite in_flat_map. split.
    - intros (x' & Hx & Hin). apply in_map_iff in Hin.
      destruct Hin as (y' & <- & Hy). apply range_In in Hx, Hy. simpl. auto.
    - intros (Hz & Hx & Hy). exists (Prioritizer.x t).
      split; [now apply range_In|]. apply in_map_iff.
      exists (Prioritizer.y t). split; [|now apply range_In].
      destruct t; simpl in *. now subst. }
  assert (Hznw : Prioritizer.z nw = zoom) by reflexivity.
  assert (Hzse : Prioritizer.z se = zoom) by reflexivity.
  split; [exact Hmem|]. split; [|split; [|split]].
  - generalize (range_NoDup xlo xhi). generalize (Prioritizer.range xlo xhi).
    intros xs Hxs. induction Hxs as [|x0 xs Hn Hxs IH]; simpl; [constructor|].
    apply NoDup_app; [|assumption|].
    + apply Injective_map_NoDup; [|apply range_NoDup].
      intros a b H. now injection H.
    + intros t Ht Hin. apply in_map_iff in Ht. destruct Ht as (y' & <- & _).
      apply in_flat_map in Hin. destruct Hin as (x1 & Hx1 & Hin).
      apply in_map_iff in Hin. destruct Hin as (y1 & Heq & _).
      injection Heq as -> _. contradiction.
  - apply Hmem. unfold xlo, xhi, ylo, yhi. lia.
  - apply Hmem. unfold xlo, xhi, ylo, yhi. lia.
  - assert (Hlen : forall xs,
      List.length (flat_map
        (fun x' => map (fun y' => Prioritizer.mkCoord x' y' zoom)
                       (Prioritizer.range ylo yhi)) xs)
      = (List.length xs * List.length (Prioritizer.range ylo yhi))%nat).
    { induction xs as [|x0 xs IH]; simpl; [reflexivity|].
      now rewrite length_app, length_map, IH. }
    rewrite Hlen, !range_length, Nat2Z.inj_mul, !Z2Nat.id
      by (unfold xlo, xhi, ylo, yhi; lia).
    unfold xlo, xhi, ylo, yhi. lia.
Qed.

(** X12 (the chain of parents).  For a tile at a zoom level [z >= 0],
    [getParentTiles tile minZoom] ends after [z - max minZoom 0]
    iterations and returns the ancestors of the tile in ascending order:
    the parent first, then its parent, down to zoom [max minZoom 0]. *)
Theorem getParentTiles_chain (tile : Prioritizer.TileCoord) (minZoom : Z) :
  0 <= Prioritizer.z tile ->
  let n := Z.to_nat (Prioritizer.z tile - Z.max minZoom 0) in
  exists parents,
    (forall fuel, (n < fuel)%nat ->
       Prioritizer.getParentTiles fuel tile minZoom = Some parents) /\
    List.length parents = n /\
    (forall i, (i < n)%nat -> nth_error parents i = nthParent (S i) tile) /\
    Forall (fun p => isAncestor p tile /\
                     Z.max minZoom 0 <= Prioritizer.z p < Prioritizer.z tile)
           parents.
Proof.
  intros Hz n.
  destruct (Z_le_gt_dec (Prioritizer.z tile) (Z.max minZoom 0)) as [Hle|Hgt].
  - (* nothing above the tile is asked for *)
    assert (Hn : n = O) by (unfold n; lia).
    exists []. rewrite Hn.
    split; [|split; [reflexivity|split; [intros i Hi; lia|constructor]]].
    intros [|fuel] Hf; [lia|]. simpl.
    destruct (Z.ltb_spec minZoom (Prioritizer.z tile)); [|reflexivity].
    assert (Hz0 : Prioritizer.z tile = 0) by lia.
    unfold Prioritizer.getParentTile. now rewrite Hz0.
  - destruct (getParentTiles_steps n tile minZoom Hz) as (l & Hl & Hlen & Hnth).
    { unfold n. lia. }
    exists l. split; [assumption|]. split; [assumption|].
    split; [assumption|].
    rewrite Forall_forall. intros p Hin.
    apply In_nth_error in Hin. destruct Hin as (i & Hi).
    assert (Hlt : (i < n)%nat).
    { rewrite <- Hlen. apply nth_error_Some. congruence. }
    rewrite Hnth in Hi by assumption.
    split; [now exists (S i)|].
    apply nthParent_coords in Hi. destruct Hi as (Hzp & _).
    unfold n in Hlt. lia.
Qed.

Lemma getParentTiles_chain_witness :
  exists parents,
    Prioritizer.getParentTiles 3 (Prioritizer.mkCoord 5 6 3) 1 = Some parents /\
    List.length parents = 2%nat.
Proof.
  destruct (getParentTiles_chain (Prioritizer.mkCoord 5 6 3) 1)
    as (l & Hl & Hlen & _).
  - simpl. lia.
  - exists l. split; [apply Hl; simpl; lia|exact Hlen].
Defined.

(** X13 (keys identify tiles).  Two tile coordinates with the same key are
    the same coordinate: [tileKey] is injective on integers. *)
Theorem tileKey_injective (x y z x' y' z' : Z) :
  Prioritizer.tileKey x y z = Prioritizer.tileKey x' y' z' ->
  x = x' /\ y = y' /\ z = z'.
Proof.
  intros H. apply (f_equal Prioritizer.parseTileKey) in H.
  rewrite !parseTileKey_tileKey in H. injection H as Hx Hy Hz. auto.
Qed.

Lemma tileKey_injective_witness :
  Prioritizer.tileKey 7 9 4 = "4/7/9" /\ (7 = 7 /\ 9 = 9 /\ 4 = 4).
Proof.
  split; [reflexivity|]. apply (tileKey_injective 7 9 4 7 9 4). reflexivity.
Defined.

(** X14 (tile column of a longitude).  For a zoom level from 0 to 1023
    (where [2 ** zoom] is a finite double) and a longitude in
    [-180, 180], the tile of a point is at level [zoom] and its column
    lies between 0 and [2^zoom], both included: longitude -180 gives
    column 0 and longitude 180 gives column [2^zoom], one past the last
    column, since nothing clamps.  Within that range the column never
    decreases when the longitude grows.  Only bounds that the rounding of
    doubles preserves are stated: rounding is monotone and exact at both
    ends of the range, whereas just below 180 the sum [lng + 180] can
    round up to 360. *)
Theorem lngLatToTile_column (lng lat : R) (zoom : Z) :
  0 <= zoom <= 1023 ->
  (-180 <= lng <= 180)%R ->
  Prioritizer.z (Prioritizer.lngLatToTile lng lat zoom) = zoom /\
  0 <= Prioritizer.x (Prioritizer.lngLatToTile lng lat zoom) <= 2 ^ zoom /\
  (forall lng' lat', (lng <= lng' <= 180)%R ->
     Prioritizer.x (Prioritizer.lngLatToTile lng lat zoom)
     <= Prioritizer.x (Prioritizer.lngLatToTile lng' lat' zoom)) /\
  Prioritizer.x (Prioritizer.lngLatToTile (-180) lat zoom) = 0 /\
  Prioritizer.x (Prioritizer.lngLatToTile 180 lat zoom) = 2 ^ zoom.
Proof.
  intros [Hz _] [Hlo Hhi]. unfold Prioritizer.lngLatToTile. simpl.
  rewrite (powerRZ_2_nonneg zoom Hz).
  assert (Hp : 0 < 2 ^ zoom) by (apply Z.pow_pos_nonneg; lia).
  assert (HpR : (0 < IZR (2 ^ zoom))%R) by (apply IZR_lt; lia).
  split; [reflexivity|]. split; [|split; [|split]].
  - set (r := ((lng + 180) / 360 * IZR (2 ^ zoom))%R).
    pose proof (floor_spec r) as [F1 F2].
    assert (Hr0 : (0 <= r)%R).
    { unfold r. apply Rmult_le_pos; [|lra].
      apply Rmult_le_pos; [lra|]. lra. }
    assert (Hr1 : (r <= IZR (2 ^ zoom))%R).
    { unfold r. rewrite <- (Rmult_1_l (IZR (2 ^ zoom))) at 2.
      apply Rmult_le_compat_r; [lra|]. lra. }
    split.
    + assert (H : (IZR (-1) < IZR (Prioritizer.floor r))%R)
        by (simpl; lra).
      apply lt_IZR in H. lia.
    + apply le_IZR. lra.
  - intros lng' lat' [Hle _]. apply floor_le.
    apply Rmult_le_compat_r; [lra|]. lra.
  - replace ((-180 + 180) / 360 * IZR (2 ^ zoom))%R with (IZR 0)
      by (simpl; field).
    symmetry. apply Int_part_spec. simpl. lra.
  - replace ((180 + 180) / 360 * IZR (2 ^ zoom))%R with (IZR (2 ^ zoom))
      by field.
    symmetry. apply Int_part_spec. lra.
Qed.

Lemma lngLatToTile_column_witness :
  0 <= Prioritizer.x (Prioritizer.lngLatToTile (-73.9857) 40.7484 12)
    <= 2 ^ 12.
Proof.
  apply (lngLatToTile_column (-73.9857) 40.7484 12); [lia|lra].
Defined.

(** ** Projection: the other direction, and converters *)

Section ProjectionMore.
Import Projection.
Local Open Scope string_scope.

(** Every character of [s] is a decimal digit. *)
Fixpoint allDigits (s : string) : bool :=
  match s with
  | EmptyString => true
  | String c s' => isDigit c && allDigits s'
  end.

(** No character of [s] is a decimal digit. *)
Fixpoint noDigit (s : string) : bool :=
  match s with
  | EmptyString => true
  | String c s' => negb (isDigit c) && noDigit s'
  end.

(** [s] does not begin with a digit. *)
Definition notDigitFirst (s : string) : bool :=
  match s with
  | EmptyString => true
  | String c _ => negb (isDigit c)
  end.

Lemma takeDigits_app d rest :
  allDigits d = true -> notDigitFirst rest = true ->
  takeDigits (d ++ rest) = d.
Proof.
  intros Hd Hr. induction d as [|c d IH]; simpl in *.
  - destruct rest as [|c r]; simpl in *; [reflexivity|].
    now destruct (isDigit c).
  - apply andb_true_iff in Hd. destruct Hd as [Hc Hd].
    rewrite Hc, (IH Hd). reflexivity.
Qed.

Lemma firstDigitRun_app prefix d rest :
  noDigit prefix = true -> allDigits d = true -> d <> EmptyString ->
  notDigitFirst rest = true ->
  firstDigitRun (prefix ++ d ++ rest) = Some d.
Proof.
  intros Hp Hd Hne Hr. induction prefix as [|c p IH]; simpl in *.
  - destruct d as [|c d]; [congruence|]. simpl in *.
    apply andb_true_iff in Hd. destruct Hd as [Hc Hd].
    rewrite Hc, takeDigits_app by assumption. reflexivity.
  - apply andb_true_iff in Hp. destruct Hp as [Hc Hp].
    apply negb_true_iff in Hc. rewrite Hc. now apply IH.
Qed.

Lemma takeDigits_allDigits s : allDigits (takeDigits s) = true.
Proof.
  induction s as [|c s IH]; simpl; [reflexivity|].
  destruct (isDigit c) eqn:E; simpl; [now rewrite E|reflexivity].
Qed.

Lemma firstDigitRun_digits s d :
  firstDigitRun s = Some d -> allDigits d = true /\ d <> EmptyString.
Proof.
  induction s as [|c s IH]; simpl; [discriminate|].
  destruct (isDigit c) eqn:E; [|assumption].
  intros [= <-]. split.
  - simpl. now rewrite E, takeDigits_allDigits.
  - discriminate.
Qed.

Lemma append_empty s : s ++ "" = s.
Proof. induction s as [|c s IH]; simpl; [reflexivity|now rewrite IH]. Qed.

Lemma normalizeEPSG_digits d :
  allDigits d = true -> d <> EmptyString -> normalizeEPSG d = d.
Proof.
  intros Hd Hne. unfold normalizeEPSG.
  pose proof (firstDigitRun_app "" d "" eq_refl Hd Hne eq_refl) as H.
  simpl in H. rewrite append_empty in H. now rewrite H.
Qed.

Lemma mercator_there_and_back (x y : R) :
  wgs84ToWebMercator (fst (webMercatorToWGS84 x y))
                     (snd (webMercatorToWGS84 x y)) = (x, y).
Proof.
  pose proof ORIGIN_SHIFT_pos as Hs. pose proof PI_RGT_0 as Hpi.
  unfold webMercatorToWGS84, wgs84ToWebMercator.
  simpl fst. simpl snd. f_equal.
  - field. lra.
  - set (u := (y / ORIGIN_SHIFT * PI)%R).
    replace ((90 + (atan (exp u) * 360 / PI - 90)) * PI / 360)%R
      with (atan (exp u)) by (field; lra).
    rewrite tan_atan, ln_exp. unfold u. field. lra.
Qed.
End ProjectionMore.

(** X15 (projection round trip, the other way).  For a point of the Web
    Mercator square, both coordinates between [-ORIGIN_SHIFT] and
    [ORIGIN_SHIFT], [webMercatorToWGS84] gives a longitude in
    [-180, 180] and a latitude strictly between -90 and 90, and
    [wgs84ToWebMercator] takes that pair back to the point.  This is the
    identity of the two formulas over the reals; far outside the square
    the code's [Math.atan] saturates and the way back is lost. *)
Theorem mercator_roundtrip (x y : R) :
  (- Projection.ORIGIN_SHIFT <= x <= Projection.ORIGIN_SHIFT)%R ->
  (- Projection.ORIGIN_SHIFT <= y <= Projection.ORIGIN_SHIFT)%R ->
  let lnglat := Projection.webMercatorToWGS84 x y in
  (-180 <= fst lnglat <= 180)%R /\
  (-90 < snd lnglat < 90)%R /\
  Projection.wgs84ToWebMercator (fst lnglat) (snd lnglat) = (x, y).
Proof.
  intros Hx _. cbv zeta.
  split; [|split; [|apply mercator_there_and_back]].
  - pose proof ORIGIN_SHIFT_pos as Hs.
    unfold Projection.webMercatorToWGS84. simpl fst.
    assert (Hq : (-1 <= x / Projection.ORIGIN_SHIFT <= 1)%R).
    { split.
      - apply Rmult_le_reg_r with Projection.ORIGIN_SHIFT; [exact Hs|].
        unfold Rdiv. rewrite Rmult_assoc, Rinv_l by lra. lra.
      - apply Rmult_le_reg_r with Projection.ORIGIN_SHIFT; [exact Hs|].
        unfold Rdiv. rewrite Rmult_assoc, Rinv_l by lra. lra. }
    lra.
  - pose proof PI_RGT_0 as Hpi.
    unfold Projection.webMercatorToWGS84. simpl snd.
    set (a := atan (exp (y / Projection.ORIGIN_SHIFT * PI))).
    assert (Ha : (0 < a < PI / 2)%R).
    { split; [|apply atan_bound].
      unfold a. rewrite <- atan_0. apply atan_increasing, exp_pos. }
    assert (Hq : (0 < a / PI < 1 / 2)%R).
    { split.
      - apply Rdiv_lt_0_compat; lra.
      - apply Rmult_lt_reg_r with PI; [exact Hpi|].
        unfold Rdiv at 1. rewrite Rmult_assoc, Rinv_l by lra. lra. }
    replace (a * 360 / PI)%R with (360 * (a / PI))%R by (field; lra).
    lra.
Qed.

Lemma mercator_roundtrip_witness :
  Projection.wgs84ToWebMercator
    (fst (Projection.webMercatorToWGS84 1000000 (-2000000)))
    (snd (Projection.webMercatorToWGS84 1000000 (-2000000)))
  = (1000000%R, (-2000000)%R).
Proof.
  apply (mercator_roundtrip 1000000 (-2000000));
    pose proof PI2_1; unfold Projection.ORIGIN_SHIFT, Projection.EARTH_RADIUS;
    lra.
Defined.

(** X16 (which converters exist).  [createConverter source target] reads
    only the first run of digits of each argument.  It fails exactly when
    the two codes differ and are neither 3857 then 4326 nor 4326 then
    3857.  From 3857 to 4326 its [forward] is [webMercatorToWGS84] and its
    [inverse] is [wgs84ToWebMercator]; from 4326 to 3857 it is the other
    way round; between equal codes both directions are the identity; and
    the converter for the swapped arguments is the same converter with
    [forward] and [inverse] exchanged. *)
Theorem createConverter_cases (source target : string) :
  let src := Projection.normalizeEPSG source in
  let tgt := Projection.normalizeEPSG target in
  (Projection.createConverter source target = None <->
   src <> tgt /\
   ~ (src = "3857" /\ tgt = "4326") /\ ~ (src = "4326" /\ tgt = "3857")) /\
  (src = "3857" -> tgt = "4326" ->
   exists cv,
     Projection.createConverter source target = Some cv /\
     (forall p, Projection.forward cv p
                = Projection.webMercatorToWGS84 (fst p) (snd p)) /\
     (forall p, Projection.inverse cv p
                = Projection.wgs84ToWebMercator (fst p) (snd p))) /\
  (src = "4326" -> tgt = "3857" ->
   exists cv,
     Projection.createConverter source target = Some cv /\
     (forall p, Projection.forward cv p
                = Projection.wgs84ToWebMercator (fst p) (snd p)) /\
     (forall p, Projection.inverse cv p
                = Projection.webMercatorToWGS84 (fst p) (snd p))) /\
  (src = tgt ->
   exists cv,
     Projection.createConverter source target = Some cv /\
     (forall p, Projection.forward cv p = p) /\
     (forall p, Projection.inverse cv p = p)) /\
  (forall cv,
     Projection.createConverter source target = Some cv ->
     Projection.createConverter target source
     = Some (Projection.mkConverter (Projection.inverse cv)
                                    (Projection.forward cv))).
Proof.
  cbv zeta. unfold Projection.createConverter.
  set (src := Projection.normalizeEPSG source).
  set (tgt := Projection.normalizeEPSG target).
  split; [|split; [|split; [|split]]].
  - destruct (String.eqb_spec src "3857"), (String.eqb_spec tgt "4326"),
      (String.eqb_spec src "4326"), (String.eqb_spec tgt "3857"),
      (String.eqb_spec src tgt); simpl;
      intuition (try congruence; try discriminate).
  - intros -> ->. simpl. eexists. split; [reflexivity|].
    split; reflexivity.
  - intros -> ->. simpl. eexists. split; [reflexivity|].
    split; reflexivity.
  - intros <-.
    destruct (String.eqb_spec src "3857"), (String.eqb_spec src "4326");
      simpl; try congruence; rewrite String.eqb_refl;
      eexists; (split; [reflexivity|]); split; reflexivity.
  - intros cv.
    destruct (String.eqb_spec src "3857"), (String.eqb_spec tgt "4326"),
      (String.eqb_spec src "4326"), (String.eqb_spec tgt "3857"),
      (String.eqb_spec src tgt), (String.eqb_spec tgt src); simpl;
      try congruence; intros [= <-]; reflexivity.
Qed.

Lemma createConverter_cases_witness :
  exists cv,
    Projection.createConverter "EPSG:3857" "4326" = Some cv /\
    (forall p, Projection.inverse cv p
               = Projection.wgs84ToWebMercator (fst p) (snd p)).
Proof.
  destruct (proj1 (proj2 (createConverter_cases "EPSG:3857" "4326")))
    as (cv & Hc & _ & Hi); [reflexivity|reflexivity|].
  exists cv. split; assumption.
Defined.

(** X17 (reading an EPSG code).  [normalizeEPSG] returns the first run of
    decimal digits of its argument, whatever surrounds it, so
    ["EPSG:3857"] and ["3857"] read the same; an argument without any digit
    is returned as it is; and normalizing twice is normalizing once. *)
Theorem normalizeEPSG_first_digits (s : string) :
  (forall prefix digits rest,
     noDigit prefix = true -> allDigits digits = true ->
     digits <> EmptyString -> notDigitFirst rest = true ->
     s = (prefix ++ digits ++ rest)%string ->
     Projection.normalizeEPSG s = digits) /\
  (noDigit s = true -> Projection.normalizeEPSG s = s) /\
  Projection.normalizeEPSG (Projection.normalizeEPSG s)
  = Projection.normalizeEPSG s.
Proof.
  split; [|split].
  - intros prefix digits rest Hp Hd Hne Hr ->.
    unfold Projection.normalizeEPSG.
    now rewrite firstDigitRun_app.
  - intros Hn. unfold Projection.normalizeEPSG.
    assert (H : Projection.firstDigitRun s = None).
    { induction s as [|c s IH]; simpl in *; [reflexivity|].
      apply andb_true_iff in Hn. destruct Hn as [Hc Hn].
      apply negb_true_iff in Hc. rewrite Hc. now apply IH. }
    now rewrite H.
  - unfold Projection.normalizeEPSG at 2 3.
    destruct (Projection.firstDigitRun s) as [d|] eqn:E.
    + destruct (firstDigitRun_digits _ _ E) as [Hd Hne].
      now apply normalizeEPSG_digits.
    + unfold Projection.normalizeEPSG. now rewrite E.
Qed.

Lemma normalizeEPSG_first_digits_witness :
  Projection.normalizeEPSG "EPSG:3857" = "3857" /\
  Projection.normalizeEPSG "urn:ogc:def:crs:EPSG::4326 (WGS84)" = "4326".
Proof.
  split.
  - apply (proj1 (normalizeEPSG_first_digits "EPSG:3857") "EPSG:" "3857" "");
      reflexivity || discriminate.
  - apply (proj1 (normalizeEPSG_first_digits
                    "urn:ogc:def:crs:EPSG::4326 (WGS84)")
             "urn:ogc:def:crs:EPSG::" "4326" " (WGS84)");
      reflexivity || discriminate.
Defined.

(** ** The tile loader: what every reachable state satisfies *)

Section LoaderCore.
Context {T E : Type}.
Variable truthy : T -> bool.
Import Loader.
Local Abbreviation World := (Loader.World T E).
Local Abbreviation TileData := (Loader.TileData T E).
Implicit Types (w : World) (k : string) (a : nat).

(** The part of the state that the queue, the loads and the cache live
    in; timers and flags are left out. *)
Definition core w :=
  (loadQueue (loader w), loadingTiles (loader w), tiles (loader w), heap w,
   cache (loader w), config (loader w), loadGeneration (loader w), calls w).

Lemma core_updateViewport bounds zoom w :
  core (updateViewport bounds zoom w)
  = core (if zoom =? lastZoom (loader w) then w else handleZoomChange zoom w).
Proof.
  unfold updateViewport.
  destruct (zoom =? lastZoom (loader w)); simpl negb; cbv iota.
  - destruct (panDebounceTimer (loader w));
      destruct (zoomDebounceTimer _); reflexivity.
  - destruct (panDebounceTimer (loader (handleZoomChange zoom w)));
      destruct (zoomDebounceTimer _); reflexivity.
Qed.

(** *** Sets of keys *)

Lemma jsset_has_In k s : JsSet.has k s = true <-> In k s.
Proof.
  unfold JsSet.has. rewrite existsb_exists. split.
  - intros (k' & Hin & Heq). apply String.eqb_eq in Heq. now subst.
  - intros H. exists k. split; [assumption|apply String.eqb_refl].
Qed.

Lemma jsset_has_false k s : JsSet.has k s = false <-> ~ In k s.
Proof.
  rewrite <- jsset_has_In. destruct (JsSet.has k s); split; congruence.
Qed.

Lemma jsset_In_delete k k' s : In k' (JsSet.delete k s) <-> In k' s /\ k' <> k.
Proof.
  unfold JsSet.delete. rewrite filter_In. split.
  - intros [H1 H2]. split; [assumption|].
    intros ->. rewrite String.eqb_refl in H2. discriminate.
  - intros [H1 H2]. split; [assumption|].
    destruct (String.eqb_spec k k'); [congruence|reflexivity].
Qed.

Lemma jsset_In_add k k' s : In k' (JsSet.add k s) <-> In k' s \/ k' = k.
Proof.
  unfold JsSet.add. destruct (JsSet.has k s) eqn:Eh.
  - apply jsset_has_In in Eh. split; [auto|]. intros [H| ->]; assumption.
  - rewrite in_app_iff. simpl. split; intros [H|H]; auto.
    + destruct H as [H|[]]; auto.
Qed.

Lemma jsset_size_delete k s : JsSet.size (JsSet.delete k s) <= JsSet.size s.
Proof.
  unfold JsSet.size, JsSet.delete.
  pose proof (filter_length_le (fun k' => negb (String.eqb k k')) s). lia.
Qed.

Lemma jsset_size_add k s : JsSet.size (JsSet.add k s) <= JsSet.size s + 1.
Proof.
  unfold JsSet.size, JsSet.add. destruct (JsSet.has k s); [lia|].
  rewrite length_app. simpl. lia.
Qed.

(** *** Records and their keys *)

(** Every key of the tile map leads to a record that carries that key. *)
Definition keyed (ts : JsMap.t nat) (h : list TileData) : Prop :=
  forall k a, JsMap.get k ts = Some a ->
              exists t, nth_error h a = Some t /\ key t = k.

Lemma nth_error_updateAt_other a a' (f : TileData -> TileData) h :
  a <> a' -> nth_error (updateAt a f h) a' = nth_error h a'.
Proof.
  revert a a'. induction h as [|t h IH]; intros [|a] [|a'] Hne; simpl;
    try reflexivity; try congruence.
  apply IH. congruence.
Qed.

Lemma keyed_updateAt ts h a (f : TileData -> TileData) :
  (forall t, key (f t) = key t) -> keyed ts h -> keyed ts (updateAt a f h).
Proof.
  intros Hf Hk k a' Hg. destruct (Hk k a' Hg) as (t & Ht & Hkey).
  destruct (Nat.eq_dec a a') as [->|Hne].
  - exists (f t). rewrite nth_error_updateAt, Ht. simpl.
    split; [reflexivity|]. now rewrite Hf.
  - exists t. rewrite nth_error_updateAt_other by assumption. auto.
Qed.

Lemma keyed_alloc ts h k (t : TileData) :
  key t = k -> keyed ts h ->
  keyed (JsMap.set k (List.length h) ts) (h ++ [t]).
Proof.
  intros Ht Hk k' a Hg. destruct (string_dec k' k) as [->|Hne].
  - rewrite jsmap_get_set_same in Hg. injection Hg as <-.
    exists t. rewrite nth_error_app2, Nat.sub_diag by lia. auto.
  - rewrite jsmap_get_set_other in Hg by assumption.
    destruct (Hk k' a Hg) as (t' & Ht' & Hkey). exists t'.
    split; [|assumption].
    rewrite nth_error_app1; [assumption|].
    apply nth_error_Some. congruence.
Qed.

Lemma keyed_tileOf w k a t :
  keyed (tiles (loader w)) (heap w) -> tileOf k w = Some (a, t) -> key t = k.
Proof.
  unfold tileOf, deref. intros Hk.
  destruct (JsMap.get k (tiles (loader w))) as [a'|] eqn:Eg; [|discriminate].
  destruct (Hk _ _ Eg) as (t' & Ht' & Hkey). rewrite Ht'.
  now intros [= <- <-].
Qed.

(** *** Queue and loads *)

(** The queue has no repeated key, no queued key is being loaded, and the
    tile map is keyed. *)
Record queueSound w : Prop := mkQueueSound {
  qs_nodup : NoDup (loadQueue (loader w));
  qs_disjoint : forall k, In k (loadQueue (loader w)) ->
                          ~ In k (loadingTiles (loader w));
  qs_keyed : keyed (tiles (loader w)) (heap w)
}.

Lemma queueSound_core w w' : core w' = core w -> queueSound w -> queueSound w'.
Proof.
  unfold core. intros [= Hq Hl Ht Hh _ _ _ _] [H1 H2 H3].
  split; rewrite ?Hq, ?Hl, ?Ht, ?Hh; assumption.
Qed.

Lemma queueSound_cancelIfStale k w :
  queueSound w -> queueSound (cancelIfStale k w).
Proof.
  intros [H1 H2 H3]. unfold cancelIfStale.
  destruct (tileOf k w) as [[a t]|]; [|now split].
  destruct (generation t <? loadGeneration (loader w)); [|now split].
  split; simpl.
  - assumption.
  - intros k' Hin Hl. apply jsset_In_delete in Hl. apply (H2 k'); tauto.
  - now apply keyed_updateAt.
Qed.

Lemma queueSound_cancel_all ks w :
  queueSound w ->
  queueSound (fold_left (fun w k => cancelIfStale k w) ks w).
Proof.
  revert w. induction ks as [|k ks IH]; simpl; intros w Hw; [assumption|].
  apply IH. now apply queueSound_cancelIfStale.
Qed.

Lemma queueSound_handleZoomChange zoom w :
  queueSound w -> queueSound (handleZoomChange zoom w).
Proof.
  intros [H1 H2 H3]. unfold handleZoomChange.
  apply queueSound_cancel_all. split; simpl; [constructor|tauto|assumption].
Qed.

Lemma queueSound_updateViewport bounds zoom w :
  queueSound w -> queueSound (updateViewport bounds zoom w).
Proof.
  intros Hw. eapply queueSound_core; [apply core_updateViewport|].
  destruct (zoom =? lastZoom (loader w)); [assumption|].
  now apply queueSound_handleZoomChange.
Qed.

Lemma existsb_eqb_false k l :
  existsb (String.eqb k) l = false <-> ~ In k l.
Proof. exact (jsset_has_false k l). Qed.

Lemma queueSound_enqueue p w : queueSound w -> queueSound (enqueue p w).
Proof.
  intros [H1 H2 H3]. unfold enqueue.
  destruct (Cache.has _ _); [now split|].
  destruct (existsb _ _) eqn:Eq; [now split|].
  destruct (JsSet.has _ _) eqn:El; [now split|]. simpl.
  apply existsb_eqb_false in Eq. apply jsset_has_false in El.
  assert (Hnd : NoDup (loadQueue (loader w) ++ [Prioritizer.key p])).
  { apply NoDup_app; [assumption|repeat constructor; auto|].
    intros x Hx [<-|[]]. contradiction. }
  assert (Hdj : forall k, In k (loadQueue (loader w) ++ [Prioritizer.key p]) ->
                          ~ In k (loadingTiles (loader w))).
  { intros k Hin. apply in_app_iff in Hin.
    destruct Hin as [Hin|[<-|[]]]; [now apply H2|assumption]. }
  destruct (JsMap.has _ _); simpl.
  - split; assumption.
  - split; simpl; [assumption|assumption|].
    now apply keyed_alloc.
Qed.

Lemma queueSound_enqueueAll ps w :
  queueSound w -> queueSound (enqueueAll ps w).
Proof.
  unfold enqueueAll. revert w.
  induction ps as [|p ps IH]; simpl; intros w Hw; [assumption|].
  apply IH. now apply queueSound_enqueue.
Qed.

Lemma queueSound_runCallback cb w :
  queueSound w -> queueSound (runCallback cb w).
Proof.
  intros Hw. destruct cb; simpl; unfold processViewChange;
    apply queueSound_enqueueAll; [|assumption].
  eapply queueSound_core; [|exact Hw]. reflexivity.
Qed.

Lemma queueSound_drainQueue queue starts w :
  queueSound w -> loadQueue (loader w) = queue ->
  queueSound (drainQueue queue starts w).
Proof.
  revert starts w. induction queue as [|k rest IH]; intros starts w Hw Hq;
    simpl; [assumption|].
  destruct (_ && _); [|assumption].
  destruct Hw as [H1 H2 H3]. rewrite Hq in H1, H2.
  inversion H1 as [|? ? Hn Hr]; subst.
  assert (Hw1 : queueSound (onLoader (setLoadQueue rest) w)).
  { split; simpl; [assumption| |assumption].
    intros k' Hin. apply H2. now right. }
  destruct (tileOf k (onLoader (setLoadQueue rest) w)) as [[a tile]|] eqn:Et.
  - destruct (generation tile <? _); [now apply IH|].
    apply IH; [|reflexivity].
    assert (Hk : key tile = k).
    { eapply keyed_tileOf; [|exact Et]. exact H3. }
    unfold startTileLoad. split; simpl.
    + assumption.
    + intros k' Hin Hl. apply jsset_In_add in Hl.
      destruct Hl as [Hl| ->].
      * apply (H2 k'); [now right|assumption].
      * rewrite Hk in Hin. contradiction.
    + now apply keyed_updateAt.
  - now apply IH.
Qed.

Lemma queueSound_processQueue w : queueSound w -> queueSound (processQueue w).
Proof.
  intros Hw. unfold processQueue.
  destruct (isZooming (loader w)); [assumption|].
  now apply queueSound_drainQueue.
Qed.

Lemma queueSound_getTile k w :
  queueSound w -> queueSound (snd (getTile truthy k w)).
Proof.
  intros [H1 H2 H3]. unfold getTile.
  destruct (Cache.get k (cache (loader w))) as [[d|] c']; simpl;
    [|now split].
  destruct (truthy d); [|now split].
  destruct (JsMap.get k (tiles (loader w))); simpl; [|now split].
  split; simpl; [assumption|assumption|].
  apply keyed_updateAt; [reflexivity|]. now apply keyed_updateAt.
Qed.

Lemma queueSound_walkParents fuel parent w r w' :
  queueSound w -> walkParents truthy fuel parent w = Some (r, w') ->
  queueSound w'.
Proof.
  revert parent w. induction fuel as [|fuel IH]; intros [p|] w Hw; simpl;
    try discriminate; try (now intros [= _ <-]).
  pose proof (queueSound_getTile
                (Prioritizer.tileKey (Prioritizer.x p) (Prioritizer.y p)
                                     (Prioritizer.z p)) w Hw) as Hg.
  destruct (getTile truthy _ w) as [r1 w1]. simpl in Hg.
  match goal with |- (if ?b then _ else _) = _ -> _ => destruct b end.
  - now intros [= _ <-].
  - now apply IH.
Qed.

Lemma queueSound_settle fuel c result now w w' :
  queueSound w -> settle fuel c result now w = Some w' -> queueSound w'.
Proof.
  intros [H1 H2 H3]. unfold settle.
  destruct (deref (callTile c) w) as [tile|]; [|intros [= <-]; now split].
  destruct (negb _).
  - intros [= <-]. split; simpl; [assumption| |assumption].
    intros k Hin Hl. apply jsset_In_delete in Hl. destruct Hl as [Hl _].
    apply jsset_In_delete in Hl. apply (H2 k); tauto.
  - destruct result as [d|err].
    + destruct (Cache.set _ _ _ _ _ _); [|discriminate].
      intros [= <-]. split; simpl; [assumption| |].
      * intros k Hin Hl. apply jsset_In_delete in Hl. apply (H2 k); tauto.
      * repeat (apply keyed_updateAt; [reflexivity|]). assumption.
    + intros [= <-]. split; simpl; [assumption| |].
      * intros k Hin Hl. apply jsset_In_delete in Hl. apply (H2 k); tauto.
      * repeat (apply keyed_updateAt; [reflexivity|]). assumption.
Qed.

Lemma queueSound_step fuel ev w w' :
  queueSound w -> step truthy fuel ev w = Some w' -> queueSound w'.
Proof.
  intros Hw.
  destruct ev as [bounds zoom| |k| |c|a now| | | |id|i result now]; simpl.
  - intros [= <-]. now apply queueSound_updateViewport.
  - intros [= <-]. now apply queueSound_processQueue.
  - intros [= <-]. now apply queueSound_getTile.
  - now intros [= <-].
  - unfold findLoadedParent.
    destruct (walkParents _ _ _ _) as [[r w1]|] eqn:Ew; [|discriminate].
    intros [= <-]. simpl. eapply queueSound_walkParents; eauto.
  - now intros [= <-].
  - now intros [= <-].
  - now intros [= <-].
  - intros [= <-]. destruct Hw. split; simpl; [constructor|tauto|].
    intros k a Hg. discriminate.
  - destruct (find _ _) as [t|]; intros [= <-]; [|assumption].
    apply queueSound_runCallback.
    eapply queueSound_core; [|exact Hw]. reflexivity.
  - destruct (nth_error _ _) as [c|]; [|now intros [= <-]].
    apply queueSound_settle. destruct Hw. now split.
Qed.

Lemma queueSound_run fuel evs w w' :
  queueSound w -> run truthy fuel evs w = Some w' -> queueSound w'.
Proof.
  revert w. induction evs as [|ev evs IH]; simpl; intros w Hw.
  - now intros [= <-].
  - destruct (step truthy fuel ev w) as [w1|] eqn:Es; [|discriminate].
    apply IH. eapply queueSound_step; eauto.
Qed.

Lemma queueSound_new cfg : queueSound (Loader.new (T := T) (E := E) cfg).
Proof.
  split; simpl; [constructor|tauto|]. intros k a Hg. discriminate.
Qed.
End LoaderCore.

Section LoaderBounds.
Context {T E : Type}.
Variable truthy : T -> bool.
Import Loader.
Local Abbreviation World := (Loader.World T E).
Implicit Types (w : World) (k : string) (a : nat).

(** The configuration is [cfg] and no more loads are running than it
    allows. *)
Definition boundedBy (cfg : TileLoaderConfig) w : Prop :=
  config (loader w) = cfg /\
  JsSet.size (loadingTiles (loader w)) <= Z.max 0 (maxConcurrentLoads cfg).

Lemma boundedBy_core cfg w w' :
  core w' = core w -> boundedBy cfg w -> boundedBy cfg w'.
Proof.
  unfold core, boundedBy. intros [= _ Hl _ _ _ Hc _ _]. now rewrite Hl, Hc.
Qed.

Lemma boundedBy_shrink cfg w w' :
  config (loader w') = config (loader w) ->
  JsSet.size (loadingTiles (loader w')) <= JsSet.size (loadingTiles (loader w)) ->
  boundedBy cfg w -> boundedBy cfg w'.
Proof. unfold boundedBy. intros Hc Hl [H1 H2]. split; [congruence|lia]. Qed.

Lemma boundedBy_cancel_all cfg ks w :
  boundedBy cfg w ->
  boundedBy cfg (fold_left (fun w k => cancelIfStale k w) ks w).
Proof.
  revert w. induction ks as [|k ks IH]; simpl; intros w Hw; [assumption|].
  apply IH. unfold cancelIfStale.
  destruct (tileOf k w) as [[a t]|]; [|assumption].
  destruct (generation t <? loadGeneration (loader w)); [|assumption].
  eapply boundedBy_shrink; [| |exact Hw]; simpl;
    [reflexivity|apply jsset_size_delete].
Qed.

Lemma boundedBy_updateViewport cfg bounds zoom w :
  boundedBy cfg w -> boundedBy cfg (updateViewport bounds zoom w).
Proof.
  intros Hw. eapply boundedBy_core; [apply core_updateViewport|].
  destruct (zoom =? lastZoom (loader w)); [assumption|].
  unfold handleZoomChange. apply boundedBy_cancel_all.
  eapply boundedBy_shrink; [| |exact Hw]; simpl; [reflexivity|lia].
Qed.

Lemma boundedBy_enqueueAll cfg ps w :
  boundedBy cfg w -> boundedBy cfg (enqueueAll ps w).
Proof.
  unfold enqueueAll. revert w.
  induction ps as [|p ps IH]; simpl; intros w Hw; [assumption|].
  apply IH. unfold enqueue.
  destruct (Cache.has _ _); [assumption|].
  destruct (_ || _); [assumption|].
  destruct (JsMap.has _ _); simpl; exact Hw.
Qed.

Lemma boundedBy_drainQueue cfg queue starts w :
  boundedBy cfg w -> boundedBy cfg (drainQueue queue starts w).
Proof.
  revert starts w. induction queue as [|k rest IH]; intros starts w Hw;
    simpl; [assumption|].
  destruct (_ <? maxConcurrentLoads _) eqn:Ec; simpl; [|assumption].
  destruct (_ <? maxStartsPerFrame _); simpl; [|assumption].
  assert (Hw1 : boundedBy cfg (onLoader (setLoadQueue rest) w)) by exact Hw.
  destruct (tileOf k _) as [[a tile]|].
  - destruct (generation tile <? _); [now apply IH|].
    apply IH. destruct Hw as [H1 H2]. split; [exact H1|]. simpl.
    apply Z.ltb_lt in Ec. rewrite H1 in Ec.
    pose proof (jsset_size_add (key tile) (loadingTiles (loader w))). lia.
  - now apply IH.
Qed.

Lemma boundedBy_getTile cfg k w :
  boundedBy cfg w -> boundedBy cfg (snd (getTile truthy k w)).
Proof.
  intros Hw. unfold getTile.
  destruct (Cache.get k (cache (loader w))) as [[d|] c']; simpl;
    [|exact Hw].
  destruct (truthy d); [|exact Hw].
  destruct (JsMap.get k (tiles (loader w))); exact Hw.
Qed.

Lemma boundedBy_walkParents cfg fuel parent w r w' :
  boundedBy cfg w -> walkParents truthy fuel parent w = Some (r, w') ->
  boundedBy cfg w'.
Proof.
  revert parent w. induction fuel as [|fuel IH]; intros [p|] w Hw; simpl;
    try discriminate; try (now intros [= _ <-]).
  pose proof (boundedBy_getTile cfg
                (Prioritizer.tileKey (Prioritizer.x p) (Prioritizer.y p)
                                     (Prioritizer.z p)) w Hw) as Hg.
  destruct (getTile truthy _ w) as [r1 w1]. simpl in Hg.
  match goal with |- (if ?b then _ else _) = _ -> _ => destruct b end.
  - now intros [= _ <-].
  - now apply IH.
Qed.

Lemma boundedBy_settle cfg fuel c result now w w' :
  boundedBy cfg w -> settle fuel c result now w = Some w' -> boundedBy cfg w'.
Proof.
  intros Hw. unfold settle.
  destruct (deref (callTile c) w) as [tile|]; [|now intros [= <-]].
  pose proof (jsset_size_delete (key tile) (loadingTiles (loader w))) as Hd.
  destruct (negb _).
  - intros [= <-]. eapply boundedBy_shrink; [| |exact Hw]; simpl;
      [reflexivity|].
    pose proof (jsset_size_delete (key tile)
                  (JsSet.delete (key tile) (loadingTiles (loader w)))). lia.
  - destruct result as [d|err].
    + destruct (Cache.set _ _ _ _ _ _); [|discriminate].
      intros [= <-]. eapply boundedBy_shrink; [| |exact Hw]; simpl;
        [reflexivity|exact Hd].
    + intros [= <-]. eapply boundedBy_shrink; [| |exact Hw]; simpl;
        [reflexivity|exact Hd].
Qed.

Lemma boundedBy_step cfg fuel ev w w' :
  boundedBy cfg w -> step truthy fuel ev w = Some w' -> boundedBy cfg w'.
Proof.
  intros Hw.
  destruct ev as [bounds zoom| |k| |c|a now| | | |id|i result now]; simpl.
  - intros [= <-]. now apply boundedBy_updateViewport.
  - intros [= <-]. unfold processQueue.
    destruct (isZooming (loader w)); [assumption|].
    now apply boundedBy_drainQueue.
  - intros [= <-]. now apply boundedBy_getTile.
  - now intros [= <-].
  - unfold findLoadedParent.
    destruct (walkParents _ _ _ _) as [[r w1]|] eqn:Ew; [|discriminate].
    intros [= <-]. simpl. eapply boundedBy_walkParents; eauto.
  - now intros [= <-].
  - now intros [= <-].
  - now intros [= <-].
  - intros [= <-]. destruct Hw as [H1 H2]. split; [exact H1|]. simpl.
    unfold JsSet.size. simpl. lia.
  - destruct (find _ _) as [t|]; intros [= <-]; [|assumption].
    destruct (callback t); simpl; unfold processViewChange;
      apply boundedBy_enqueueAll; exact Hw.
  - destruct (nth_error _ _) as [c|]; [|now intros [= <-]].
    apply boundedBy_settle. exact Hw.
Qed.

Lemma boundedBy_run cfg fuel evs w w' :
  boundedBy cfg w -> run truthy fuel evs w = Some w' -> boundedBy cfg w'.
Proof.
  revert w. induction evs as [|ev evs IH]; simpl; intros w Hw.
  - now intros [= <-].
  - destruct (step truthy fuel ev w) as [w1|] eqn:Es; [|discriminate].
    apply IH. eapply boundedBy_step; eauto.
Qed.

(** *** What one [processQueue] starts *)

Lemma drainQueue_starts queue starts w :
  loadQueue (loader w) = queue ->
  exists started taken,
    calls (drainQueue queue starts w) = calls w ++ started /\
    queue = taken ++ loadQueue (loader (drainQueue queue starts w)) /\
    Z.of_nat (List.length started)
      <= Z.max 0 (maxStartsPerFrame (config (loader w)) - starts) /\
    (List.length started <= List.length taken)%nat /\
    Forall (fun c => loadGeneration (loader w) <= callGeneration c) started.
Proof.
  revert starts w. induction queue as [|k rest IH]; intros starts w Hq; simpl.
  - exists [], []. rewrite app_nil_r, Hq. simpl.
    repeat split; try lia; constructor.
  - destruct (_ <? maxConcurrentLoads _); simpl;
      [|exists [], []; rewrite app_nil_r, Hq; simpl;
        repeat split; try lia; constructor].
    destruct (_ <? maxStartsPerFrame _) eqn:Es; simpl;
      [|exists [], []; rewrite app_nil_r, Hq; simpl;
        repeat split; try lia; constructor].
    apply Z.ltb_lt in Es.
    set (w1 := onLoader (setLoadQueue rest) w).
    assert (Hskip :
      exists started taken,
        calls (drainQueue rest starts w1) = calls w ++ started /\
        k :: rest = taken ++ loadQueue (loader (drainQueue rest starts w1)) /\
        Z.of_nat (List.length started)
          <= Z.max 0 (maxStartsPerFrame (config (loader w)) - starts) /\
        (List.length started <= List.length taken)%nat /\
        Forall (fun c => loadGeneration (loader w) <= callGeneration c)
               started).
    { destruct (IH starts w1 eq_refl) as (st & tk & H1 & H2 & H3 & H4 & H5).
      exists st, (k :: tk). simpl. rewrite <- H2.
      repeat split; try assumption. lia. }
    change (onLoader (setLoadQueue rest) w) with w1.
    destruct (tileOf k w1) as [[a tile]|]; [|exact Hskip].
    change (loadGeneration (loader w1)) with (loadGeneration (loader w)).
    destruct (generation tile <? loadGeneration (loader w)) eqn:Eg;
      [exact Hskip|].
    apply Z.ltb_ge in Eg.
    destruct (IH (starts + 1) (startTileLoad a tile w1) eq_refl)
      as (st & tk & H1 & H2 & H3 & H4 & H5).
    exists (mkCall a (coord tile) (generation tile) :: st), (k :: tk).
    simpl in *. rewrite <- H2, H1, <- app_assoc. simpl.
    repeat split; try lia.
    constructor; [exact Eg|exact H5].
Qed.
End LoaderBounds.

(** *** Cache and records follow [loadGeneration] *)

Section LoaderCurrent.
Context {T E : Type}.
Variable truthy : T -> bool.
Import Loader.
Local Abbreviation World := (Loader.World T E).
Local Abbreviation TileData := (Loader.TileData T E).
Implicit Types (w : World) (k : string) (a : nat).

Definition ofGeneration (g : Z) (ke : string * Cache.CacheEntry T) : Prop :=
  Cache.generation (snd ke) = g.

(** No record of the tile map is of a generation after [g]. *)
Definition dated (g : Z) (ts : JsMap.t nat) (h : list TileData) : Prop :=
  forall k a t, JsMap.get k ts = Some a -> nth_error h a = Some t ->
                generation t <= g.

(** The cache is well formed and holds entries of the current generation
    only; every key being loaded has a record; no record is of a later
    generation than the loader. *)
Record current w : Prop := mkCurrent {
  cur_wf : wellFormed (cache (loader w));
  cur_gen : Forall (ofGeneration (loadGeneration (loader w)))
                   (Cache.entries (cache (loader w)));
  cur_known : forall k, In k (loadingTiles (loader w)) ->
                        JsMap.get k (tiles (loader w)) <> None;
  cur_dated : dated (loadGeneration (loader w)) (tiles (loader w)) (heap w)
}.

Lemma current_core w w' : core w' = core w -> current w -> current w'.
Proof.
  unfold core. intros [= _ Hl Ht Hh Hc _ Hg _] [H1 H2 H3 H4].
  split; rewrite ?Hl, ?Ht, ?Hh, ?Hc, ?Hg; assumption.
Qed.

Lemma dated_updateAt g ts h a (f : TileData -> TileData) :
  (forall t, generation (f t) = generation t) ->
  dated g ts h -> dated g ts (updateAt a f h).
Proof.
  intros Hf Hd k a' t' Hg Hn. destruct (Nat.eq_dec a a') as [->|Hne].
  - rewrite nth_error_updateAt in Hn.
    destruct (nth_error h a') as [t0|] eqn:E0; [|discriminate].
    injection Hn as <-. rewrite Hf. eapply Hd; eauto.
  - rewrite nth_error_updateAt_other in Hn by assumption. eapply Hd; eauto.
Qed.

Lemma dated_mono g g' ts h : g <= g' -> dated g ts h -> dated g' ts h.
Proof. intros Hle Hd k a t Hg Hn. specialize (Hd k a t Hg Hn). lia. Qed.

(** *** The cache operations and the generation of the entries *)

Lemma get_ofGeneration g k (c : Cache.LRUTileCache T) :
  Forall (ofGeneration g) (Cache.entries c) ->
  Forall (ofGeneration g) (Cache.entries (snd (Cache.get k c))).
Proof.
  intros H. unfold Cache.get.
  destruct (JsMap.get k (Cache.entries c)) as [e|] eqn:Eg; simpl;
    [|assumption].
  apply jsmap_Forall_set; [|assumption].
  rewrite Forall_forall in H. exact (H _ (jsmap_get_In _ _ _ Eg)).
Qed.

Lemma evictWhile_ofGeneration g fuel (c c' : Cache.LRUTileCache T) :
  Forall (ofGeneration g) (Cache.entries c) ->
  Cache.evictWhile fuel c = Some c' ->
  Forall (ofGeneration g) (Cache.entries c').
Proof.
  revert c. induction fuel as [|fuel IH]; intros c Hc; simpl;
    destruct (Cache.overLimit c); try discriminate; try (now intros [= <-]).
  apply IH. unfold Cache.evictLRU.
  destruct (fst (Cache.scanLRU (Cache.entries c))) as [k|]; [|assumption].
  destruct (truthy_string k); [|assumption].
  destruct (JsMap.get k (Cache.entries c)); [|assumption].
  simpl. now apply jsmap_Forall_delete.
Qed.

Lemma set_ofGeneration g fuel k v sz (c c' : Cache.LRUTileCache T) :
  Forall (ofGeneration g) (Cache.entries c) ->
  Cache.set fuel k v sz g c = Some c' ->
  Forall (ofGeneration g) (Cache.entries c').
Proof.
  intros Hc. unfold Cache.set.
  destruct (Cache.evictWhile fuel (Cache.insert k v sz g c)) as [c1|] eqn:E1;
    [|discriminate].
  intros [= <-]. simpl. eapply evictWhile_ofGeneration; [|exact E1].
  simpl. apply jsmap_Forall_set; [reflexivity|assumption].
Qed.

(** Raising the generation by one empties a cache of the old one. *)
Lemma invalidate_all g (c : Cache.LRUTileCache T) :
  NoDup (JsMap.keys (Cache.entries c)) ->
  Forall (ofGeneration g) (Cache.entries c) ->
  Cache.entries (Cache.invalidateOldGenerations (g + 1) c) = [].
Proof.
  intros Hnd Hg. rewrite invalidate_entries by assumption.
  induction Hg as [|ke m Hke Hm IH]; simpl; [reflexivity|].
  unfold ofGeneration in Hke. rewrite Hke.
  replace (g <? g + 1) with true by (symmetry; apply Z.ltb_lt; lia).
  simpl. inversion Hnd; subst. apply IH.
  unfold JsMap.keys in *. simpl in Hnd. now inversion Hnd.
Qed.

(** *** The loop of [handleZoomChange] *)

(** Every key being loaded has a record of an older generation. *)
Definition allStale w : Prop :=
  forall k, In k (loadingTiles (loader w)) ->
            exists a t, tileOf k w = Some (a, t) /\
                        generation t < loadGeneration (loader w).

Lemma tileOf_setState k a s w f :
  tiles (loader (onLoader f (modify a (setState s) w))) = tiles (loader w) ->
  forall a' t, tileOf k w = Some (a', t) ->
  exists t', tileOf k (onLoader f (modify a (setState s) w)) = Some (a', t') /\
             generation t' = generation t.
Proof.
  intros Ht a' t. unfold tileOf. rewrite Ht.
  destruct (JsMap.get k (tiles (loader w))) as [a0|]; [|discriminate].
  unfold deref. simpl.
  destruct (nth_error (heap w) a0) as [t0|] eqn:E0; [|discriminate].
  intros [= <- <-]. destruct (Nat.eq_dec a a0) as [->|Hne].
  - rewrite nth_error_updateAt, E0. simpl. eauto.
  - rewrite nth_error_updateAt_other, E0 by assumption. eauto.
Qed.

Lemma cancelIfStale_allStale k w :
  allStale w ->
  allStale (cancelIfStale k w) /\
  loadingTiles (loader (cancelIfStale k w))
  = JsSet.delete k (loadingTiles (loader w)).
Proof.
  intros Hw. unfold cancelIfStale.
  destruct (tileOf k w) as [[a t]|] eqn:Et.
  - destruct (generation t <? loadGeneration (loader w)) eqn:Eg.
    + split; [|reflexivity]. intros k' Hin. simpl in Hin.
      apply jsset_In_delete in Hin. destruct Hin as [Hin _].
      destruct (Hw k' Hin) as (a' & t' & Ht' & Hlt).
      destruct (tileOf_setState k' a PENDING w
                  (fun l => setLoadingTiles
                              (JsSet.delete k (loadingTiles l)) l)
                  eq_refl a' t' Ht') as (t'' & Ht'' & Hgen).
      exists a', t''. split; [exact Ht''|]. simpl. lia.
    + assert (Hn : ~ In k (loadingTiles (loader w))).
      { intros Hin. destruct (Hw k Hin) as (a' & t' & Ht' & Hlt).
        rewrite Et in Ht'. injection Ht' as <- <-.
        apply Z.ltb_ge in Eg. lia. }
      split; [assumption|]. unfold JsSet.delete. symmetry.
      apply forallb_filter_id. apply forallb_forall. intros k' Hin.
      destruct (String.eqb_spec k k'); [congruence|reflexivity].
  - assert (Hn : ~ In k (loadingTiles (loader w))).
    { intros Hin. destruct (Hw k Hin) as (a' & t' & Ht' & Hlt). congruence. }
    split; [assumption|]. unfold JsSet.delete. symmetry.
    apply forallb_filter_id. apply forallb_forall. intros k' Hin.
    destruct (String.eqb_spec k k'); [congruence|reflexivity].
Qed.

Lemma cancel_all_loading ks w :
  allStale w ->
  forall k, In k (loadingTiles
                    (loader (fold_left (fun w k => cancelIfStale k w) ks w))) ->
            In k (loadingTiles (loader w)) /\ ~ In k ks.
Proof.
  revert w. induction ks as [|k0 ks IH]; simpl; intros w Hw k Hin;
    [tauto|].
  destruct (cancelIfStale_allStale k0 w Hw) as [Hs Hl].
  destruct (IH _ Hs k Hin) as [H1 H2]. rewrite Hl in H1.
  apply jsset_In_delete in H1. destruct H1 as [H1 H3].
  split; [assumption|]. intros [->|Hk]; [congruence|contradiction].
Qed.

(** After a zoom change nothing is being loaded any more. *)
Lemma handleZoomChange_loading zoom w :
  keyed (tiles (loader w)) (heap w) -> current w ->
  loadingTiles (loader (handleZoomChange zoom w)) = [].
Proof.
  intros Hk [_ _ H3 H4]. unfold handleZoomChange.
  match goal with
  | |- loadingTiles (loader (fold_left _ ?ks ?w1)) = [] =>
      pose proof (cancel_all_loading ks w1) as Hc
  end.
  simpl in Hc.
  match type of Hc with
  | ?P -> _ => assert (Hs : P)
  end.
  { intros k Hin. simpl in Hin. specialize (H3 k Hin).
    unfold tileOf, deref. simpl.
    destruct (JsMap.get k (tiles (loader w))) as [a|] eqn:Eg; [|congruence].
    destruct (Hk _ _ Eg) as (t & Ht & _). rewrite Ht.
    exists a, t. split; [reflexivity|].
    specialize (H4 _ _ _ Eg Ht). lia. }
  specialize (Hc Hs).
  match goal with
  | |- ?l = [] => destruct l as [|k l'] eqn:El; [reflexivity|]
  end.
  exfalso. simpl in El.
  destruct (Hc k) as [H1 H2]; [simpl; rewrite El; now left|].
  contradiction.
Qed.

Lemma current_cancelIfStale k w : current w -> current (cancelIfStale k w).
Proof.
  intros [H1 H2 H3 H4]. unfold cancelIfStale.
  destruct (tileOf k w) as [[a t]|]; [|now split].
  destruct (generation t <? loadGeneration (loader w)); [|now split].
  split; simpl; [assumption|assumption| |].
  - intros k' Hin. apply jsset_In_delete in Hin. apply H3. tauto.
  - now apply dated_updateAt.
Qed.

Lemma current_cancel_all ks w :
  current w -> current (fold_left (fun w k => cancelIfStale k w) ks w).
Proof.
  revert w. induction ks as [|k ks IH]; simpl; intros w Hw; [assumption|].
  apply IH. now apply current_cancelIfStale.
Qed.

Lemma cache_cancel_all ks w :
  cache (loader (fold_left (fun w k => cancelIfStale k w) ks w))
  = cache (loader w).
Proof.
  revert w. induction ks as [|k ks IH]; intros w; simpl; [reflexivity|].
  rewrite IH. unfold cancelIfStale.
  destruct (tileOf k w) as [[a t]|]; [|reflexivity].
  now destruct (generation t <? loadGeneration (loader w)).
Qed.

Lemma handleZoomChange_cache zoom w :
  cache (loader (handleZoomChange zoom w))
  = Cache.invalidateOldGenerations (loadGeneration (loader w) + 1)
                                   (cache (loader w)).
Proof. unfold handleZoomChange. now rewrite cache_cancel_all. Qed.

Lemma current_handleZoomChange zoom w :
  current w -> current (handleZoomChange zoom w).
Proof.
  intros [H1 H2 H3 H4]. unfold handleZoomChange.
  apply current_cancel_all. split; simpl.
  - now apply wellFormed_deletes.
  - rewrite (invalidate_all _ _ (wf_keys _ H1) H2). constructor.
  - assumption.
  - eapply dated_mono; [|exact H4]. lia.
Qed.

Lemma current_updateViewport bounds zoom w :
  current w -> current (updateViewport bounds zoom w).
Proof.
  intros Hw. eapply current_core; [apply core_updateViewport|].
  destruct (zoom =? lastZoom (loader w)); [assumption|].
  now apply current_handleZoomChange.
Qed.

Lemma current_enqueue p w :
  keyed (tiles (loader w)) (heap w) -> current w -> current (enqueue p w).
Proof.
  intros Hk [H1 H2 H3 H4]. unfold enqueue.
  destruct (Cache.has _ _); [now split|].
  destruct (_ || _); [now split|]. simpl.
  destruct (JsMap.has _ _) eqn:Eh; simpl; [now split|].
  split; simpl; [assumption|assumption| |].
  - intros k Hin. destruct (string_dec k (Prioritizer.key p)) as [->|Hne].
    + rewrite jsmap_get_set_same. discriminate.
    + rewrite jsmap_get_set_other by assumption. now apply H3.
  - intros k a t Hg Hn.
    destruct (string_dec k (Prioritizer.key p)) as [->|Hne].
    + rewrite jsmap_get_set_same in Hg. injection Hg as <-.
      rewrite nth_error_app2, Nat.sub_diag in Hn by lia.
      injection Hn as <-. simpl. lia.
    + rewrite jsmap_get_set_other in Hg by assumption.
      destruct (Hk _ _ Hg) as (t' & Ht' & _).
      rewrite nth_error_app1 in Hn
        by (apply nth_error_Some; congruence).
      eapply H4; eauto.
Qed.

Lemma current_enqueueAll ps w :
  queueSound w -> current w -> current (enqueueAll ps w).
Proof.
  unfold enqueueAll. revert w.
  induction ps as [|p ps IH]; simpl; intros w Hq Hw; [assumption|].
  apply IH; [now apply queueSound_enqueue|].
  apply current_enqueue; [apply Hq|assumption].
Qed.

Lemma current_drainQueue queue starts w :
  keyed (tiles (loader w)) (heap w) -> current w ->
  current (drainQueue queue starts w).
Proof.
  revert starts w. induction queue as [|k rest IH]; intros starts w Hk Hw;
    simpl; [assumption|].
  destruct (_ && _); [|assumption].
  assert (Hw1 : current (onLoader (setLoadQueue rest) w))
    by (destruct Hw; now split).
  destruct (tileOf k (onLoader (setLoadQueue rest) w)) as [[a tile]|] eqn:Et;
    [|now apply IH].
  destruct (generation tile <? _); [now apply IH|].
  assert (Hkey : key tile = k) by (eapply keyed_tileOf; [|exact Et]; exact Hk).
  apply IH.
  - simpl. now apply keyed_updateAt.
  - destruct Hw as [H1 H2 H3 H4]. split; simpl; [assumption|assumption| |].
    + intros k' Hin. apply jsset_In_add in Hin. destruct Hin as [Hin| ->].
      * now apply H3.
      * rewrite Hkey. unfold tileOf in Et. simpl in Et.
        destruct (JsMap.get k (tiles (loader w))); [discriminate|].
        discriminate.
    + now apply dated_updateAt.
Qed.

Lemma current_getTile k w : current w -> current (snd (getTile truthy k w)).
Proof.
  intros [H1 H2 H3 H4]. unfold getTile.
  pose proof (wellFormed_get k _ H1) as Hwf.
  pose proof (get_ofGeneration _ k _ H2) as Hgen.
  destruct (Cache.get k (cache (loader w))) as [[d|] c']; simpl in *;
    [|now split].
  destruct (truthy d); [|now split].
  destruct (JsMap.get k (tiles (loader w))); simpl; [|now split].
  split; simpl; [assumption|assumption|assumption|].
  apply dated_updateAt; [reflexivity|]. now apply dated_updateAt.
Qed.

Lemma current_walkParents fuel parent w r w' :
  current w -> walkParents truthy fuel parent w = Some (r, w') -> current w'.
Proof.
  revert parent w. induction fuel as [|fuel IH]; intros [p|] w Hw; simpl;
    try discriminate; try (now intros [= _ <-]).
  pose proof (current_getTile
                (Prioritizer.tileKey (Prioritizer.x p) (Prioritizer.y p)
                                     (Prioritizer.z p)) w Hw) as Hg.
  destruct (getTile truthy _ w) as [r1 w1]. simpl in Hg.
  match goal with |- (if ?b then _ else _) = _ -> _ => destruct b end.
  - now intros [= _ <-].
  - now apply IH.
Qed.

Lemma current_settle fuel c result now w w' :
  current w -> settle fuel c result now w = Some w' -> current w'.
Proof.
  intros [H1 H2 H3 H4]. unfold settle.
  destruct (deref (callTile c) w) as [tile|]; [|intros [= <-]; now split].
  destruct (negb _) eqn:En.
  - intros [= <-]. split; simpl; [assumption|assumption| |assumption].
    intros k Hin. apply jsset_In_delete in Hin. destruct Hin as [Hin _].
    apply jsset_In_delete in Hin. apply H3. tauto.
  - apply Bool.negb_false_iff, Z.eqb_eq in En.
    destruct result as [d|err].
    + destruct (Cache.set _ _ _ _ _ _) as [c'|] eqn:Es; [|discriminate].
      simpl in Es. intros [= <-]. split; simpl.
      * eapply (wellFormed_apply fuel (Cache.OpSet _ _ _ _)); [exact H1|].
        exact Es.
      * rewrite <- En. eapply set_ofGeneration; [|exact Es].
        now rewrite En.
      * intros k Hin. apply jsset_In_delete in Hin. apply H3. tauto.
      * repeat (apply dated_updateAt; [reflexivity|]). assumption.
    + intros [= <-]. split; simpl; [assumption|assumption| |].
      * intros k Hin. apply jsset_In_delete in Hin. apply H3. tauto.
      * repeat (apply dated_updateAt; [reflexivity|]). assumption.
Qed.

Lemma current_step fuel ev w w' :
  queueSound w -> current w -> step truthy fuel ev w = Some w' -> current w'.
Proof.
  intros Hq Hw.
  destruct ev as [bounds zoom| |k| |c|a now| | | |id|i result now]; simpl.
  - intros [= <-]. now apply current_updateViewport.
  - intros [= <-]. unfold processQueue.
    destruct (isZooming (loader w)); [assumption|].
    apply current_drainQueue; [apply Hq|assumption].
  - intros [= <-]. now apply current_getTile.
  - now intros [= <-].
  - unfold findLoadedParent.
    destruct (walkParents _ _ _ _) as [[r w1]|] eqn:Ew; [|discriminate].
    intros [= <-]. simpl. eapply current_walkParents; eauto.
  - now intros [= <-].
  - now intros [= <-].
  - now intros [= <-].
  - intros [= <-]. destruct Hw as [H1 H2 H3 H4]. split; simpl.
    + unfold Cache.clear. split; simpl; constructor.
    + constructor.
    + tauto.
    + intros k a t Hg. discriminate.
  - destruct (find _ _) as [t|]; intros [= <-]; [|assumption].
    destruct (callback t); simpl; unfold processViewChange;
      (apply current_enqueueAll;
       [eapply queueSound_core; [|exact Hq]; reflexivity
       |eapply current_core; [|exact Hw]; reflexivity]).
  - destruct (nth_error _ _) as [c|]; [|now intros [= <-]].
    apply current_settle. destruct Hw. now split.
Qed.

(** The two invariants along a run. *)
Lemma sound_run fuel evs w w' :
  queueSound w -> current w -> run truthy fuel evs w = Some w' ->
  queueSound w' /\ current w'.
Proof.
  revert w. induction evs as [|ev evs IH]; simpl; intros w Hq Hw.
  - intros [= <-]. now split.
  - destruct (step truthy fuel ev w) as [w1|] eqn:Es; [|discriminate].
    apply IH.
    + eapply queueSound_step; eauto.
    + eapply current_step; eauto.
Qed.

Lemma current_new cfg : current (Loader.new (T := T) (E := E) cfg).
Proof.
  split; simpl.
  - apply wellFormed_new.
  - constructor.
  - tauto.
  - intros k a t Hg. discriminate.
Qed.
End LoaderCurrent.

(** *** Timers and flags *)

Section LoaderTimers.
Context {T E : Type}.
Variable truthy : T -> bool.
Import Loader.
Local Abbreviation World := (Loader.World T E).
Implicit Types (w : World) (k : string) (a : nat).

(** The part of the state that the debouncing lives in. *)
Definition shell w :=
  (timers w, nextTimerId w, panDebounceTimer (loader w),
   zoomDebounceTimer (loader w), isZooming (loader w), lastZoom (loader w)).

Lemma shell_cancel_all ks w :
  shell (fold_left (fun w k => cancelIfStale k w) ks w) = shell w.
Proof.
  revert w. induction ks as [|k ks IH]; intros w; simpl; [reflexivity|].
  rewrite IH. unfold cancelIfStale.
  destruct (tileOf k w) as [[a t]|]; [|reflexivity].
  now destruct (generation t <? loadGeneration (loader w)).
Qed.

Lemma shell_handleZoomChange zoom w :
  shell (handleZoomChange zoom w)
  = (timers w, nextTimerId w, panDebounceTimer (loader w),
     zoomDebounceTimer (loader w), isZooming (loader w), zoom).
Proof. unfold handleZoomChange. now rewrite shell_cancel_all. Qed.

Lemma shell_enqueueAll ps w : shell (enqueueAll ps w) = shell w.
Proof.
  unfold enqueueAll. revert w.
  induction ps as [|p ps IH]; intros w; simpl; [reflexivity|].
  rewrite IH. unfold enqueue.
  destruct (Cache.has _ _); [reflexivity|].
  destruct (_ || _); [reflexivity|].
  now destruct (JsMap.has _ _).
Qed.

Lemma shell_drainQueue queue starts w :
  shell (drainQueue queue starts w) = shell w.
Proof.
  revert starts w. induction queue as [|k rest IH]; intros starts w; simpl;
    [reflexivity|].
  destruct (_ && _); [|reflexivity].
  destruct (tileOf k _) as [[a tile]|]; [|now rewrite IH].
  destruct (generation tile <? _); now rewrite IH.
Qed.

Lemma shell_getTile k w : shell (snd (getTile truthy k w)) = shell w.
Proof.
  unfold getTile.
  destruct (Cache.get k (cache (loader w))) as [[d|] c']; simpl;
    [|reflexivity].
  destruct (truthy d); [|reflexivity].
  now destruct (JsMap.get k (tiles (loader w))).
Qed.

Lemma shell_walkParents fuel parent w r w' :
  walkParents truthy fuel parent w = Some (r, w') -> shell w' = shell w.
Proof.
  revert parent w. induction fuel as [|fuel IH]; intros [p|] w; simpl;
    try discriminate; try (now intros [= _ <-]).
  pose proof (shell_getTile
                (Prioritizer.tileKey (Prioritizer.x p) (Prioritizer.y p)
                                     (Prioritizer.z p)) w) as Hg.
  destruct (getTile truthy _ w) as [r1 w1]. simpl in Hg.
  match goal with |- (if ?b then _ else _) = _ -> _ => destruct b end.
  - intros [= _ <-]. exact Hg.
  - intros H. rewrite (IH _ _ H). exact Hg.
Qed.

Lemma shell_settle fuel c result now w w' :
  settle fuel c result now w = Some w' -> shell w' = shell w.
Proof.
  unfold settle.
  destruct (deref (callTile c) w) as [tile|]; [|now intros [= <-]].
  destruct (negb _); [now intros [= <-]|].
  destruct result as [d|err]; [|now intros [= <-]].
  destruct (Cache.set _ _ _ _ _ _); [|discriminate]. now intros [= <-].
Qed.

(** Only [updateViewport] and a timer that fires touch timers and flags;
    [handleZoomChange] apart, nothing else does. *)
Definition quiet (ev : event T E) : bool :=
  match ev with
  | UpdateViewport _ _ | TimerFires _ => false
  | _ => true
  end.

Lemma shell_step_quiet fuel ev w w' :
  quiet ev = true -> step truthy fuel ev w = Some w' -> shell w' = shell w.
Proof.
  destruct ev as [bounds zoom| |k| |c|a now| | | |id|i result now]; simpl;
    try discriminate; intros _.
  - intros [= <-]. unfold processQueue.
    destruct (isZooming (loader w)); [reflexivity|apply shell_drainQueue].
  - intros [= <-]. apply shell_getTile.
  - now intros [= <-].
  - unfold findLoadedParent.
    destruct (walkParents _ _ _ _) as [[r w1]|] eqn:Ew; [|discriminate].
    intros [= <-]. simpl. eapply shell_walkParents; eauto.
  - now intros [= <-].
  - now intros [= <-].
  - now intros [= <-].
  - now intros [= <-].
  - destruct (nth_error _ _) as [c|]; [|now intros [= <-]].
    intros H. now rewrite (shell_settle _ _ _ _ _ _ H).
Qed.

Definition isPan (cb : Callback) : bool :=
  match cb with PanDebounced _ _ => true | ZoomDebounced _ _ => false end.

Definition clearId (id : nat) (ts : list Timer) : list Timer :=
  filter (fun t => negb (Nat.eqb (timerId t) id)) ts.

Definition clearOpt (o : option nat) (ts : list Timer) : list Timer :=
  match o with Some id => clearId id ts | None => ts end.

Lemma clearId_In id ts t :
  In t (clearId id ts) <-> In t ts /\ timerId t <> id.
Proof.
  unfold clearId. rewrite filter_In, Bool.negb_true_iff, Nat.eqb_neq.
  reflexivity.
Qed.

Lemma clearOpt_In o ts t : In t (clearOpt o ts) -> In t ts.
Proof. destruct o; simpl; [|auto]. intros H. now apply clearId_In in H. Qed.

(** [updateViewport], as its effect on timers and flags. *)
Lemma shell_updateViewport_zoom bounds zoom w :
  zoom <> lastZoom (loader w) ->
  shell (updateViewport bounds zoom w)
  = (clearOpt (panDebounceTimer (loader w)) (timers w)
       ++ [mkTimer (nextTimerId w)
                   (zoomDebounceMs (config (loader w)))
                   (ZoomDebounced bounds zoom)],
     S (nextTimerId w), panDebounceTimer (loader w),
     Some (nextTimerId w), true, zoom).
Proof.
  intros Hz. apply Z.eqb_neq in Hz.
  pose proof (shell_handleZoomChange zoom w) as Hs.
  pose proof (core_updateViewport bounds zoom w) as Hc.
  rewrite Hz in Hc. unfold core in Hc.
  assert (Hcfg : config (loader (handleZoomChange zoom w))
                 = config (loader w)).
  { unfold handleZoomChange.
    match goal with
    | |- config (loader (fold_left _ ?ks ?w1)) = _ =>
        change (config (loader w)) with (config (loader w1));
        generalize w1 at 2 3; generalize ks
    end.
    intros ks. induction ks as [|k ks IH]; intros w1; simpl; [reflexivity|].
    rewrite IH. unfold cancelIfStale.
    destruct (tileOf k w1) as [[a t]|]; [|reflexivity].
    now destruct (generation t <? loadGeneration (loader w1)). }
  clear Hc. unfold shell in *. unfold updateViewport.
  rewrite Hz. simpl negb. cbv iota.
  revert Hs Hcfg. generalize (handleZoomChange zoom w). intros w1 Hs Hcfg.
  injection Hs as H1 H2 H3 H4 H5 H6.
  destruct w1 as [[cfg1 c1 tl1 q1 ld1 g1 lz1 pt1 zt1 iz1] h1 ts1 n1 cs1].
  simpl in *. subst.
  destruct (panDebounceTimer (loader w)); destruct (zoomDebounceTimer (loader w));
    reflexivity.
Qed.

Lemma shell_updateViewport_pan bounds zoom w :
  zoom = lastZoom (loader w) ->
  shell (updateViewport bounds zoom w)
  = (clearOpt (zoomDebounceTimer (loader w))
              (clearOpt (panDebounceTimer (loader w)) (timers w))
       ++ [mkTimer (nextTimerId w)
                   (panDebounceMs (config (loader w)))
                   (PanDebounced bounds zoom)],
     S (nextTimerId w), Some (nextTimerId w),
     zoomDebounceTimer (loader w), isZooming (loader w), zoom).
Proof.
  intros Hz. unfold shell, updateViewport.
  replace (zoom =? lastZoom (loader w)) with true
    by (symmetry; now apply Z.eqb_eq).
  simpl negb. cbv iota.
  destruct w as [[cfg1 c1 tl1 q1 ld1 g1 lz1 pt1 zt1 iz1] h1 ts1 n1 cs1].
  simpl in *. subst. destruct pt1, zt1; reflexivity.
Qed.

Lemma shell_timerFires id t w :
  find (fun t => Nat.eqb (timerId t) id) (timers w) = Some t ->
  shell (runCallback (callback t) (clearTimeout id w))
  = (clearId id (timers w), nextTimerId w, panDebounceTimer (loader w),
     zoomDebounceTimer (loader w),
     if isPan (callback t) then isZooming (loader w) else false,
     lastZoom (loader w)).
Proof.
  intros _. destruct (callback t); simpl; unfold processViewChange;
    now rewrite shell_enqueueAll.
Qed.

(** *** Pending timers *)

(** Timer ids are fresh and distinct, and a pending pan timer is the one
    the loader remembers. *)
Record timersSound w : Prop := mkTimersSound {
  ts_fresh : forall t, In t (timers w) -> (timerId t < nextTimerId w)%nat;
  ts_nodup : NoDup (map timerId (timers w));
  ts_pan_id : forall id, panDebounceTimer (loader w) = Some id ->
                         (id < nextTimerId w)%nat;
  ts_pan : forall t, In t (timers w) -> isPan (callback t) = true ->
                     panDebounceTimer (loader w) = Some (timerId t)
}.

Lemma timersSound_shell w w' :
  shell w' = shell w -> timersSound w -> timersSound w'.
Proof.
  unfold shell. intros [= H1 H2 H3 _ _ _] [A B C D].
  split; rewrite ?H1, ?H2, ?H3; assumption.
Qed.

Lemma NoDup_clearId id ts :
  NoDup (map timerId ts) -> NoDup (map timerId (clearId id ts)).
Proof.
  induction ts as [|t ts IH]; simpl; [auto|].
  intros H. inversion H as [|? ? Hn Hr]; subst.
  destruct (negb _); simpl; [|now apply IH].
  constructor; [|now apply IH].
  intros Hin. apply Hn. apply in_map_iff in Hin.
  destruct Hin as (t' & Ht' & Hi). apply clearId_In in Hi.
  apply in_map_iff. exists t'. tauto.
Qed.

Lemma NoDup_clearOpt o ts :
  NoDup (map timerId ts) -> NoDup (map timerId (clearOpt o ts)).
Proof. destruct o; simpl; [apply NoDup_clearId|auto]. Qed.

Lemma NoDup_arm ts (t : Timer) :
  NoDup (map timerId ts) ->
  (forall t', In t' ts -> timerId t' <> timerId t) ->
  NoDup (map timerId (ts ++ [t])).
Proof.
  intros Hnd Hne. rewrite map_app. simpl. apply NoDup_app.
  - assumption.
  - repeat constructor. auto.
  - intros x Hx [<-|[]]. apply in_map_iff in Hx.
    destruct Hx as (t' & Ht' & Hi). exact (Hne _ Hi Ht').
Qed.

(** Once the remembered pan timer is cleared no pan timer is pending. *)
Lemma no_pan_after_clear w t :
  timersSound w ->
  In t (clearOpt (panDebounceTimer (loader w)) (timers w)) ->
  isPan (callback t) = false.
Proof.
  intros [A B C D] Hin. destruct (isPan (callback t)) eqn:Ep; [|reflexivity].
  exfalso. pose proof (clearOpt_In _ _ _ Hin) as Hin'.
  specialize (D _ Hin' Ep). rewrite D in Hin. simpl in Hin.
  apply clearId_In in Hin. tauto.
Qed.

Lemma timersSound_updateViewport bounds zoom w :
  timersSound w -> timersSound (updateViewport bounds zoom w).
Proof.
  intros Hw. pose proof Hw as [A B C D].
  destruct (Z.eq_dec zoom (lastZoom (loader w))) as [Hz|Hz].
  - pose proof (shell_updateViewport_pan bounds zoom w Hz) as Hs.
    unfold shell in Hs. injection Hs as H1 H2 H3 _ _ _.
    split; rewrite ?H1, ?H2, ?H3.
    + intros t Hin. apply in_app_iff in Hin. destruct Hin as [Hin|[<-|[]]].
      * apply clearOpt_In, clearOpt_In in Hin. specialize (A _ Hin). lia.
      * simpl. lia.
    + apply NoDup_arm; [now apply NoDup_clearOpt, NoDup_clearOpt|].
      intros t' Hin. apply clearOpt_In, clearOpt_In in Hin.
      specialize (A _ Hin). simpl. lia.
    + intros id [= <-]. lia.
    + intros t Hin Hp. apply in_app_iff in Hin.
      destruct Hin as [Hin|[<-|[]]]; [|reflexivity].
      apply clearOpt_In in Hin.
      rewrite (no_pan_after_clear w t Hw Hin) in Hp. discriminate.
  - pose proof (shell_updateViewport_zoom bounds zoom w Hz) as Hs.
    unfold shell in Hs. injection Hs as H1 H2 H3 _ _ _.
    split; rewrite ?H1, ?H2, ?H3.
    + intros t Hin. apply in_app_iff in Hin. destruct Hin as [Hin|[<-|[]]].
      * apply clearOpt_In in Hin. specialize (A _ Hin). lia.
      * simpl. lia.
    + apply NoDup_arm; [now apply NoDup_clearOpt|].
      intros t' Hin. apply clearOpt_In in Hin.
      specialize (A _ Hin). simpl. lia.
    + intros id Hid. specialize (C _ Hid). lia.
    + intros t Hin Hp. apply in_app_iff in Hin.
      destruct Hin as [Hin|[<-|[]]]; [|discriminate].
      rewrite (no_pan_after_clear w t Hw Hin) in Hp. discriminate.
Qed.

Lemma timersSound_step fuel ev w w' :
  timersSound w -> step truthy fuel ev w = Some w' -> timersSound w'.
Proof.
  intros Hw. destruct (quiet ev) eqn:Eq.
  - intros Hs. eapply timersSound_shell; [|exact Hw].
    eapply shell_step_quiet; eauto.
  - destruct ev as [bounds zoom| |k| |c|a now| | | |id|i result now];
      simpl in *; try discriminate.
    + intros [= <-]. now apply timersSound_updateViewport.
    + destruct (find _ _) as [t|] eqn:Ef; intros [= <-]; [|assumption].
      pose proof (shell_timerFires id t w Ef) as Hs.
      unfold shell in Hs. injection Hs as H1 H2 H3 _ _ _.
      destruct Hw as [A B C D]. split; rewrite ?H1, ?H2, ?H3.
      * intros t' Hin. apply clearId_In in Hin. apply A. tauto.
      * now apply NoDup_clearId.
      * assumption.
      * intros t' Hin. apply clearId_In in Hin. apply D. tauto.
Qed.

Lemma timersSound_run fuel evs w w' :
  timersSound w -> run truthy fuel evs w = Some w' -> timersSound w'.
Proof.
  revert w. induction evs as [|ev evs IH]; simpl; intros w Hw.
  - now intros [= <-].
  - destruct (step truthy fuel ev w) as [w1|] eqn:Es; [|discriminate].
    apply IH. eapply timersSound_step; eauto.
Qed.

Lemma timersSound_new cfg : timersSound (Loader.new (T := T) (E := E) cfg).
Proof.
  split; simpl; try tauto; try constructor; discriminate.
Qed.

(** *** A loader whose zoom callback was cancelled *)

(** [isZooming] is set and no timer is left that would reset it. *)
Definition suspended w : Prop :=
  isZooming (loader w) = true /\
  forall t, In t (timers w) -> isPan (callback t) = true.

(** The event leaves the zoom level at [zoom]. *)
Definition keepsZoom (zoom : Z) (ev : event T E) : Prop :=
  match ev with
  | UpdateViewport _ zoom' => zoom' = zoom
  | _ => True
  end.

Lemma suspended_shell w w' :
  shell w' = shell w -> suspended w -> suspended w'.
Proof.
  unfold shell, suspended. intros [= H1 _ _ _ H5 _] [A B].
  rewrite H1, H5. now split.
Qed.

Lemma suspended_step fuel ev w w' :
  suspended w -> keepsZoom (lastZoom (loader w)) ev ->
  step truthy fuel ev w = Some w' ->
  suspended w' /\ lastZoom (loader w') = lastZoom (loader w) /\
  (List.length (calls w') <= List.length (calls w))%nat.
Proof.
  intros Hw Hk. destruct (quiet ev) eqn:Eq.
  - intros Hs. pose proof (shell_step_quiet _ _ _ _ Eq Hs) as Hsh.
    split; [eapply suspended_shell; eauto|].
    split; [unfold shell in Hsh; now injection Hsh|].
    destruct ev as [bounds zoom| |k| |c|a now| | | |id|i result now];
      simpl in *; try discriminate.
    + injection Hs as <-. unfold processQueue.
      destruct Hw as [-> _]. lia.
    + injection Hs as <-. unfold getTile.
      destruct (Cache.get k (cache (loader w))) as [[d|] c']; simpl;
        [|lia].
      destruct (truthy d); [|simpl; lia].
      destruct (JsMap.get k (tiles (loader w))); simpl; lia.
    + injection Hs as <-. lia.
    + unfold findLoadedParent in Hs.
      destruct (walkParents _ _ _ _) as [[r w1]|] eqn:Ew; [|discriminate].
      injection Hs as <-. simpl.
      enough (calls w1 = calls w) as -> by lia.
      clear -Ew. revert Ew. generalize (Prioritizer.getParentTile c).
      revert w. induction fuel as [|fuel IH]; intros w [p|]; simpl;
        try discriminate; try (now intros [= _ <-]).
      assert (Hg : forall k, calls (snd (getTile truthy k w)) = calls w).
      { intros k. unfold getTile.
        destruct (Cache.get k (cache (loader w))) as [[d|] c']; simpl;
          [|reflexivity].
        destruct (truthy d); [|reflexivity].
        now destruct (JsMap.get k (tiles (loader w))). }
      specialize (Hg (Prioritizer.tileKey (Prioritizer.x p) (Prioritizer.y p)
                                          (Prioritizer.z p))).
      destruct (getTile truthy _ w) as [r1 w1']. simpl in Hg.
      match goal with |- (if ?b then _ else _) = _ -> _ => destruct b end.
      * intros [= _ <-]. exact Hg.
      * intros H. rewrite (IH _ _ H). exact Hg.
    + injection Hs as <-. lia.
    + injection Hs as <-. lia.
    + injection Hs as <-. lia.
    + injection Hs as <-. simpl. lia.
    + destruct (nth_error (calls w) i) as [c|] eqn:En;
        [|injection Hs as <-; lia].
      assert (Hl : (List.length (removeNth i (calls w))
                    < List.length (calls w))%nat).
      { clear -En. revert i En.
        induction (calls w) as [|c0 cs IH]; intros [|i]; simpl;
          try discriminate; intros H; [lia|].
        specialize (IH _ H). lia. }
      assert (Hc : calls w' = removeNth i (calls w)).
      { revert Hs. unfold settle.
        destruct (deref _ _) as [tile|]; [|now intros [= <-]].
        destruct (negb _); [now intros [= <-]|].
        destruct result as [d|err]; [|now intros [= <-]].
        destruct (Cache.set _ _ _ _ _ _); [|discriminate].
        now intros [= <-]. }
      rewrite Hc. lia.
  - destruct ev as [bounds zoom| |k| |c|a now| | | |id|i result now];
      simpl in *; try discriminate.
    + intros [= <-]. subst zoom.
      pose proof (shell_updateViewport_pan bounds _ w eq_refl) as Hs.
      pose proof (core_updateViewport bounds (lastZoom (loader w)) w) as Hc.
      rewrite Z.eqb_refl in Hc.
      unfold shell in Hs. injection Hs as H1 _ _ _ H5 H6.
      destruct Hw as [A B]. repeat split.
      * congruence.
      * rewrite H1. intros t Hin. apply in_app_iff in Hin.
        destruct Hin as [Hin|[<-|[]]]; [|reflexivity].
        apply clearOpt_In, clearOpt_In in Hin. auto.
      * assumption.
      * unfold core in Hc. injection Hc as _ _ _ _ _ _ _ Hcalls.
        rewrite Hcalls. lia.
    + destruct (find _ _) as [t|] eqn:Ef; intros [= <-];
        [|repeat split; try apply Hw; lia].
      pose proof (shell_timerFires id t w Ef) as Hs.
      unfold shell in Hs. injection Hs as H1 _ _ _ H5 H6.
      destruct Hw as [A B].
      assert (Hp : isPan (callback t) = true).
      { apply B. apply find_some in Ef. tauto. }
      rewrite Hp in H5. repeat split.
      * congruence.
      * rewrite H1. intros t' Hin. apply clearId_In in Hin. apply B. tauto.
      * assumption.
      * destruct (callback t); simpl; unfold processViewChange;
          match goal with
          | |- (List.length (calls (enqueueAll ?ps ?w0)) <= _)%nat =>
              enough (forall w1, calls (enqueueAll ps w1) = calls w1) as ->
                by (simpl; lia);
              generalize ps
          end;
          intros ps; unfold enqueueAll;
          induction ps as [|p ps IH]; intros w1; simpl; try reflexivity;
          rewrite IH; unfold enqueue;
          destruct (Cache.has _ _); try reflexivity;
          destruct (_ || _); try reflexivity;
          now destruct (JsMap.has _ _).
Qed.

Lemma suspended_run fuel evs w w' :
  suspended w -> Forall (keepsZoom (lastZoom (loader w))) evs ->
  run truthy fuel evs w = Some w' ->
  suspended w' /\ (List.length (calls w') <= List.length (calls w))%nat.
Proof.
  revert w. induction evs as [|ev evs IH]; simpl; intros w Hw Hk.
  - intros [= <-]. split; [assumption|lia].
  - inversion Hk as [|? ? Hev Hevs]; subst.
    destruct (step truthy fuel ev w) as [w1|] eqn:Es; [|discriminate].
    destruct (suspended_step _ _ _ _ Hw Hev Es) as (Hs1 & Hz1 & Hc1).
    intros Hr. rewrite <- Hz1 in Hevs.
    destruct (IH _ Hs1 Hevs Hr) as [Hs2 Hc2]. split; [assumption|lia].
Qed.
End LoaderTimers.

(** *** What [processViewChange] appends *)

Section LoaderQueueing.
Context {T E : Type}.
Import Loader.
Local Abbreviation World := (Loader.World T E).
Implicit Types (w : World) (k : string) (a : nat).
Local Abbreviation appendable := (@appendable T E).

Lemma tileKey_inj x y z x' y' z' :
  Prioritizer.tileKey x y z = Prioritizer.tileKey x' y' z' ->
  x = x' /\ y = y' /\ z = z'.
Proof.
  intros H. apply (f_equal Prioritizer.parseTileKey) in H.
  rewrite !parseTileKey_tileKey in H. injection H as Hx Hy Hz. auto.
Qed.

Lemma tileKey_nonempty x y z : Prioritizer.tileKey x y z <> EmptyString.
Proof.
  unfold Prioritizer.tileKey.
  destruct (Prioritizer.numberToString z); discriminate.
Qed.

Lemma getVisibleTiles_NoDup bounds zoom :
  NoDup (Prioritizer.getVisibleTiles bounds zoom).
Proof.
  unfold Prioritizer.getVisibleTiles. cbv zeta.
  match goal with
  | |- NoDup (flat_map _ (Prioritizer.range ?lo ?hi)) =>
      generalize (range_NoDup lo hi); generalize (Prioritizer.range lo hi)
  end.
  intros xs Hxs. induction Hxs as [|x0 xs Hn Hxs IH]; simpl; [constructor|].
  apply NoDup_app; [|assumption|].
  - apply Injective_map_NoDup; [|apply range_NoDup].
    intros a b H. now injection H.
  - intros t Ht Hin. apply in_map_iff in Ht. destruct Ht as (y' & <- & _).
    apply in_flat_map in Hin. destruct Hin as (x1 & Hx1 & Hin).
    apply in_map_iff in Hin. destruct Hin as (y1 & Heq & _).
    injection Heq as -> _. contradiction.
Qed.

(** The keys of the prioritized tiles are those of the tiles. *)
Lemma prioritizeTiles_keys tiles center :
  Permutation
    (map Prioritizer.key (Prioritizer.prioritizeTiles tiles center))
    (map (fun t => Prioritizer.tileKey (Prioritizer.x t) (Prioritizer.y t)
                                       (Prioritizer.z t)) tiles).
Proof.
  unfold Prioritizer.prioritizeTiles.
  eapply Permutation_trans;
    [apply Permutation_map, sortByDistance_perm|].
  rewrite map_map. simpl. apply Permutation_refl.
Qed.

Lemma prioritizeTiles_keys_NoDup tiles center :
  NoDup tiles ->
  NoDup (map Prioritizer.key (Prioritizer.prioritizeTiles tiles center)).
Proof.
  intros Hnd.
  eapply Permutation_NoDup;
    [apply Permutation_sym, prioritizeTiles_keys|].
  apply Injective_map_NoDup; [|assumption].
  intros [x y z] [x' y' z'] H. simpl in H.
  apply tileKey_inj in H. destruct H as (-> & -> & ->). reflexivity.
Qed.

Lemma prioritizeTiles_keyed tiles center p :
  In p (Prioritizer.prioritizeTiles tiles center) ->
  Prioritizer.key p
  = Prioritizer.tileKey (Prioritizer.x (Prioritizer.coord p))
                        (Prioritizer.y (Prioritizer.coord p))
                        (Prioritizer.z (Prioritizer.coord p)).
Proof.
  unfold Prioritizer.prioritizeTiles. intros Hin.
  apply (Permutation_in _ (sortByDistance_perm _)) in Hin.
  apply in_map_iff in Hin. destruct Hin as (t & <- & _). reflexivity.
Qed.

Lemma existsb_eqb_app k l1 l2 :
  existsb (String.eqb k) (l1 ++ l2)
  = existsb (String.eqb k) l1 || existsb (String.eqb k) l2.
Proof. apply existsb_app. Qed.

Lemma enqueue_queue p w :
  loadQueue (loader (enqueue p w))
  = loadQueue (loader w)
    ++ (if appendable (Prioritizer.key p) w then [Prioritizer.key p] else []).
Proof.
  unfold appendable, enqueue.
  destruct (Cache.has _ _); simpl; [now rewrite app_nil_r|].
  destruct (existsb _ _); simpl; [now rewrite app_nil_r|].
  destruct (JsSet.has _ _); simpl; [now rewrite app_nil_r|].
  now destruct (JsMap.has _ _).
Qed.

Lemma enqueue_cache_loading p w :
  cache (loader (enqueue p w)) = cache (loader w) /\
  loadingTiles (loader (enqueue p w)) = loadingTiles (loader w) /\
  loadGeneration (loader (enqueue p w)) = loadGeneration (loader w) /\
  calls (enqueue p w) = calls w.
Proof.
  unfold enqueue.
  destruct (Cache.has _ _); [auto|].
  destruct (_ || _); [auto|].
  destruct (JsMap.has _ _); simpl; auto.
Qed.

Lemma appendable_enqueue p w k :
  appendable k (enqueue p w)
  = appendable k w
    && negb (appendable (Prioritizer.key p) w && String.eqb k (Prioritizer.key p)).
Proof.
  destruct (enqueue_cache_loading p w) as (Hc & Hl & _).
  unfold appendable at 1. rewrite Hc, Hl, enqueue_queue, existsb_app.
  set (ap := appendable (Prioritizer.key p) w). unfold appendable.
  destruct (Cache.has k (cache (loader w)));
    destruct (existsb (String.eqb k) (loadQueue (loader w)));
    destruct (JsSet.has k (loadingTiles (loader w)));
    destruct ap; simpl;
    destruct (String.eqb k (Prioritizer.key p)); reflexivity.
Qed.

Lemma enqueueAll_queue ps w :
  NoDup (map Prioritizer.key ps) ->
  loadQueue (loader (enqueueAll ps w))
  = loadQueue (loader w)
    ++ filter (fun k => appendable k w) (map Prioritizer.key ps).
Proof.
  unfold enqueueAll. revert w.
  induction ps as [|p ps IH]; simpl; intros w Hnd; [now rewrite app_nil_r|].
  inversion Hnd as [|? ? Hn Hr]; subst.
  rewrite IH, enqueue_queue, <- app_assoc by assumption. f_equal.
  assert (Hf : filter (fun k => appendable k (enqueue p w))
                      (map Prioritizer.key ps)
               = filter (fun k => appendable k w) (map Prioritizer.key ps)).
  { apply filter_ext_in. intros k Hin. rewrite appendable_enqueue.
    destruct (String.eqb_spec k (Prioritizer.key p)) as [->|Hne];
      [contradiction|].
    now rewrite Bool.andb_false_r, Bool.andb_true_r. }
  rewrite Hf. now destruct (appendable (Prioritizer.key p) w).
Qed.

Lemma appendable_false_enqueueAll ps w k :
  appendable k w = false -> appendable k (enqueueAll ps w) = false.
Proof.
  unfold enqueueAll. revert w.
  induction ps as [|p ps IH]; simpl; intros w H; [assumption|].
  apply IH. rewrite appendable_enqueue, H. reflexivity.
Qed.

Lemma enqueueAll_settled ps w p :
  In p ps -> appendable (Prioritizer.key p) (enqueueAll ps w) = false.
Proof.
  unfold enqueueAll. revert w.
  induction ps as [|p0 ps IH]; simpl; intros w; [tauto|].
  intros [->|Hin]; [|now apply IH].
  apply (appendable_false_enqueueAll ps). rewrite appendable_enqueue.
  rewrite String.eqb_refl.
  destruct (appendable (Prioritizer.key p) w); reflexivity.
Qed.

Lemma enqueueAll_nothing ps w :
  (forall p, In p ps -> appendable (Prioritizer.key p) w = false) ->
  enqueueAll ps w = w.
Proof.
  unfold enqueueAll. induction ps as [|p ps IH]; simpl; intros H;
    [reflexivity|].
  rewrite enqueue_not_appendable by (apply H; now left).
  apply IH. intros p' Hin. apply H. now right.
Qed.

Lemma enqueueAll_idem ps w : enqueueAll ps (enqueueAll ps w) = enqueueAll ps w.
Proof.
  apply enqueueAll_nothing. intros p Hin. now apply enqueueAll_settled.
Qed.

(** A queued key has a record. *)
Lemma enqueue_record p w k :
  JsMap.has k (tiles (loader w)) = true \/ k = Prioritizer.key p
                                          /\ appendable k w = true ->
  JsMap.has k (tiles (loader (enqueue p w))) = true.
Proof.
  intros Hk. unfold enqueue.
  destruct Hk as [Hk|[-> Hk]].
  - destruct (Cache.has _ _); [assumption|].
    destruct (_ || _); [assumption|]. simpl.
    destruct (JsMap.has (Prioritizer.key p) (tiles (loader w))) eqn:Eh;
      simpl; [assumption|].
    unfold JsMap.has in *.
    destruct (string_dec k (Prioritizer.key p)) as [->|Hne].
    + now rewrite jsmap_get_set_same.
    + now rewrite jsmap_get_set_other.
  - unfold appendable in Hk.
    destruct (Cache.has _ _); [discriminate|].
    destruct (existsb _ _); [discriminate|].
    destruct (JsSet.has _ _); [discriminate|]. simpl.
    destruct (JsMap.has (Prioritizer.key p) (tiles (loader w))) eqn:Eh;
      simpl; [assumption|].
    unfold JsMap.has. now rewrite jsmap_get_set_same.
Qed.
End LoaderQueueing.

(** *** [getTile] and [findLoadedParent] *)

Section LoaderParents.
Context {T E : Type}.
Variable truthy : T -> bool.
Import Loader.
Local Abbreviation World := (Loader.World T E).
Local Abbreviation TileData := (Loader.TileData T E).
Implicit Types (w : World) (k : string) (a : nat).

(** A record that a caller may draw: [LOADED], with truthy data. *)
Definition drawable (t : TileData) : bool :=
  TileState_eqb (state t) LOADED && truthyData truthy t.

Lemma getTile_fst k w :
  fst (getTile truthy k w) = JsMap.get k (tiles (loader w)).
Proof.
  unfold getTile.
  destruct (Cache.get k (cache (loader w))) as [[d|] c']; simpl;
    [|reflexivity].
  destruct (truthy d); [|reflexivity].
  now destruct (JsMap.get k (tiles (loader w))).
Qed.

Lemma getTile_tiles k w :
  tiles (loader (snd (getTile truthy k w))) = tiles (loader w).
Proof.
  unfold getTile.
  destruct (Cache.get k (cache (loader w))) as [[d|] c']; simpl;
    [|reflexivity].
  destruct (truthy d); [|reflexivity].
  now destruct (JsMap.get k (tiles (loader w))).
Qed.

Lemma walkParents_tiles fuel parent w r w' :
  walkParents truthy fuel parent w = Some (r, w') ->
  tiles (loader w') = tiles (loader w).
Proof.
  revert parent w. induction fuel as [|fuel IH]; intros [p|] w; simpl;
    try discriminate; try (now intros [= _ <-]).
  pose proof (getTile_tiles
                (Prioritizer.tileKey (Prioritizer.x p) (Prioritizer.y p)
                                     (Prioritizer.z p)) w) as Hg.
  destruct (getTile truthy _ w) as [r1 w1]. simpl in Hg.
  match goal with |- (if ?b then _ else _) = _ -> _ => destruct b end.
  - intros [= _ <-]. exact Hg.
  - intros H. rewrite (IH _ _ H). exact Hg.
Qed.

(** What the walk returns is the drawable record of a tile of the chain. *)
Lemma walkParents_sound fuel p w a w' :
  walkParents truthy fuel (Some p) w = Some (Some a, w') ->
  exists n q tile,
    nthParent n p = Some q /\
    JsMap.get (Prioritizer.tileKey (Prioritizer.x q) (Prioritizer.y q)
                                   (Prioritizer.z q))
              (tiles (loader w')) = Some a /\
    deref a w' = Some tile /\ drawable tile = true.
Proof.
  revert p w. induction fuel as [|fuel IH]; intros p w; simpl;
    [discriminate|].
  pose proof (getTile_fst
                (Prioritizer.tileKey (Prioritizer.x p) (Prioritizer.y p)
                                     (Prioritizer.z p)) w) as Hf.
  pose proof (getTile_tiles
                (Prioritizer.tileKey (Prioritizer.x p) (Prioritizer.y p)
                                     (Prioritizer.z p)) w) as Ht.
  destruct (getTile truthy _ w) as [r1 w1]. simpl in Hf, Ht.
  destruct r1 as [a1|].
  - destruct (deref a1 w1) as [tile|] eqn:Ed.
    + fold (drawable tile). destruct (drawable tile) eqn:Edr.
      * intros [= <- <-]. exists O, p, tile. simpl.
        rewrite Ht. auto.
      * destruct (Prioritizer.getParentTile p) as [p'|] eqn:Ep.
        -- intros H. destruct (IH _ _ H) as (n & q & tl & H1 & H2 & H3 & H4).
           exists (S n), q, tl. simpl. rewrite Ep. auto.
        -- destruct fuel; simpl; discriminate.
    + destruct (Prioritizer.getParentTile p) as [p'|] eqn:Ep.
      * intros H. destruct (IH _ _ H) as (n & q & tl & H1 & H2 & H3 & H4).
        exists (S n), q, tl. simpl. rewrite Ep. auto.
      * destruct fuel; simpl; discriminate.
  - destruct (Prioritizer.getParentTile p) as [p'|] eqn:Ep.
    + intros H. destruct (IH _ _ H) as (n & q & tl & H1 & H2 & H3 & H4).
      exists (S n), q, tl. simpl. rewrite Ep. auto.
    + destruct fuel; simpl; discriminate.
Qed.

(** The walk ends after at most [z + 1] lookups. *)
Lemma walkParents_completes n :
  forall p w, 0 <= Prioritizer.z p -> Z.to_nat (Prioritizer.z p) = n ->
  exists r w', forall fuel, (n < fuel)%nat ->
                            walkParents truthy fuel (Some p) w = Some (r, w').
Proof.
  induction n as [|n IH]; intros p w Hz Hn.
  - assert (Hz0 : Prioritizer.z p = 0) by lia.
    destruct (getTile truthy
                (Prioritizer.tileKey (Prioritizer.x p) (Prioritizer.y p)
                                     (Prioritizer.z p)) w) as [r1 w1] eqn:Eg.
    set (found := match r1 with
                  | Some a => match deref a w1 with
                              | Some tile => TileState_eqb (state tile) LOADED
                                             && truthyData truthy tile
                              | None => false
                              end
                  | None => false
                  end).
    exists (if found then r1 else None), w1.
    intros [|fuel] Hf; [lia|]. simpl. rewrite Eg. fold found.
    destruct found; [reflexivity|].
    unfold Prioritizer.getParentTile. rewrite Hz0. simpl.
    destruct fuel; reflexivity.
  - destruct (getTile truthy
                (Prioritizer.tileKey (Prioritizer.x p) (Prioritizer.y p)
                                     (Prioritizer.z p)) w) as [r1 w1] eqn:Eg.
    set (found := match r1 with
                  | Some a => match deref a w1 with
                              | Some tile => TileState_eqb (state tile) LOADED
                                             && truthyData truthy tile
                              | None => false
                              end
                  | None => false
                  end).
    assert (Hp : Prioritizer.getParentTile p
                 = Some (Prioritizer.mkCoord (Prioritizer.x p / 2)
                                             (Prioritizer.y p / 2)
                                             (Prioritizer.z p - 1))).
    { unfold Prioritizer.getParentTile.
      destruct (Z.eqb_spec (Prioritizer.z p) 0); [lia|reflexivity]. }
    destruct (IH (Prioritizer.mkCoord (Prioritizer.x p / 2)
                                      (Prioritizer.y p / 2)
                                      (Prioritizer.z p - 1)) w1)
      as (r2 & w2 & H2); [simpl; lia|simpl; lia|].
    exists (if found then r1 else r2), (if found then w1 else w2).
    intros [|fuel] Hf; [lia|]. simpl. rewrite Eg. fold found.
    destruct found; [reflexivity|]. rewrite Hp. apply H2. lia.
Qed.

Lemma findLoadedParent_completes c w :
  0 <= Prioritizer.z c ->
  exists r w', forall fuel, (Z.to_nat (Prioritizer.z c) <= fuel)%nat ->
                            findLoadedParent truthy fuel c w = Some (r, w').
Proof.
  intros Hz. unfold findLoadedParent, Prioritizer.getParentTile.
  destruct (Z.eqb_spec (Prioritizer.z c) 0) as [H0|H0].
  - exists None, w. intros [|fuel] _; reflexivity.
  - destruct (walkParents_completes
                (Z.to_nat (Prioritizer.z c - 1))
                (Prioritizer.mkCoord (Prioritizer.x c / 2)
                                     (Prioritizer.y c / 2)
                                     (Prioritizer.z c - 1)) w)
      as (r & w' & H); [simpl; lia|reflexivity|].
    exists r, w'. intros fuel Hf. apply H. lia.
Qed.

Lemma walkParents_mono fuel fuel' parent w res :
  walkParents truthy fuel parent w = Some res -> (fuel <= fuel')%nat ->
  walkParents truthy fuel' parent w = Some res.
Proof.
  revert fuel' parent w. induction fuel as [|fuel IH];
    intros fuel' [p|] w; simpl; try discriminate.
  - intros H _. destruct fuel'; exact H.
  - intros H Hle. destruct fuel' as [|fuel']; [lia|]. simpl.
    destruct (getTile truthy _ w) as [r1 w1].
    match goal with
    | H : (if ?b then _ else _) = _ |- _ => destruct b; [exact H|]
    end.
    apply IH; [assumption|lia].
  - intros H _. destruct fuel'; exact H.
Qed.
End LoaderParents.

(** *** A load that completes *)

Section LoaderServe.
Context {T E : Type}.
Variable truthy : T -> bool.
Import Loader.
Local Abbreviation World := (Loader.World T E).
Local Abbreviation TileData := (Loader.TileData T E).
Implicit Types (w : World) (k : string) (a : nat).

Lemma jsset_not_In_delete k s : ~ In k (JsSet.delete k s).
Proof. intros H. apply jsset_In_delete in H. tauto. Qed.

(** What [settle] leaves when the call carries the current generation and
    returned data. *)
Lemma settle_success fuel c d now w w' tile :
  wellFormed (cache (loader w)) ->
  deref (callTile c) w = Some tile ->
  callGeneration c = loadGeneration (loader w) ->
  settle fuel c (inl d) now w = Some w' ->
  deref (callTile c) w'
  = Some (mkTile (coord tile) (key tile) LOADED (Some d) (error tile)
                 (Some now) (generation tile)) /\
  (exists n, JsMap.get (key tile) (Cache.entries (cache (loader w')))
             = Some (Cache.mkEntry (key tile) d (estimateTileSize d) n
                                   (loadGeneration (loader w)))) /\
  loadingTiles (loader w') = JsSet.delete (key tile) (loadingTiles (loader w)) /\
  tiles (loader w') = tiles (loader w) /\
  loadQueue (loader w') = loadQueue (loader w) /\
  loadGeneration (loader w') = loadGeneration (loader w).
Proof.
  intros Hwf Hd Hg. unfold settle. rewrite Hd, Hg, Z.eqb_refl. simpl.
  destruct (Cache.set _ _ _ _ _ _) as [c'|] eqn:Es; [|discriminate].
  intros [= <-]. simpl. split; [|split; [|auto]].
  - unfold deref in *. simpl.
    rewrite !nth_error_updateAt, Hd. reflexivity.
  - eexists. eapply set_keeps_key; [exact Hwf|exact Es].
Qed.

(** [getTile] on a key whose entry is cached and whose record is in the
    tile map. *)
Lemma getTile_cached k w a e t :
  JsMap.get k (Cache.entries (cache (loader w))) = Some e ->
  JsMap.get k (tiles (loader w)) = Some a ->
  deref a w = Some t ->
  (truthy (Cache.value e) = false ->
   state t = LOADED /\ data t = Some (Cache.value e)) ->
  exists t',
    fst (getTile truthy k w) = Some a /\
    deref a (snd (getTile truthy k w)) = Some t' /\
    state t' = LOADED /\ data t' = Some (Cache.value e) /\
    loadTime t' = loadTime t /\ key t' = key t /\
    generation t' = generation t.
Proof.
  intros He Ha Hd Hf. unfold getTile, Cache.get. rewrite He. simpl.
  rewrite Ha. destruct (truthy (Cache.value e)) eqn:Et; simpl.
  - unfold deref in *. simpl. rewrite !nth_error_updateAt, Hd. simpl.
    exists (setState LOADED (setData (Cache.value e) t)).
    split; [reflexivity|]. split; [reflexivity|]. simpl. auto.
  - destruct (Hf eq_refl) as [H1 H2]. unfold deref in *. simpl.
    rewrite Hd. exists t. split; [reflexivity|]. split; [reflexivity|]. auto.
Qed.
End LoaderServe.

(** *** Every method returns *)

Section LoaderCompletes.
Context {T E : Type}.
Variable truthy : T -> bool.
Import Loader.
Local Abbreviation World := (Loader.World T E).
Local Abbreviation TileData := (Loader.TileData T E).
Implicit Types (w : World) (k : string) (a : nat).

(** No cache key and no record key is the empty string. *)
Definition named w : Prop :=
  keysNonEmpty (Cache.entries (cache (loader w))) /\
  Forall (fun t : TileData => key t <> EmptyString) (heap w).

Lemma Forall_updateAt (P : TileData -> Prop) a f h :
  (forall t, P t -> P (f t)) -> Forall P h -> Forall P (updateAt a f h).
Proof.
  intros Hf Hh. revert a. induction Hh as [|t h Ht Hh IH]; intros [|a]; simpl;
    constructor; auto.
Qed.

Lemma named_cancel_all ks w :
  named w -> named (fold_left (fun w k => cancelIfStale k w) ks w).
Proof.
  revert w. induction ks as [|k ks IH]; simpl; intros w Hw; [assumption|].
  apply IH. unfold cancelIfStale.
  destruct (tileOf k w) as [[a t]|]; [|assumption].
  destruct (generation t <? loadGeneration (loader w)); [|assumption].
  destruct Hw as [H1 H2]. split; simpl; [assumption|].
  apply Forall_updateAt; auto.
Qed.

Lemma named_updateViewport bounds zoom w :
  named w -> named (updateViewport bounds zoom w).
Proof.
  intros Hw. pose proof (core_updateViewport bounds zoom w) as Hc.
  assert (Hn : named (if zoom =? lastZoom (loader w) then w
                      else handleZoomChange zoom w)).
  { destruct (zoom =? lastZoom (loader w)); [assumption|].
    unfold handleZoomChange. apply named_cancel_all.
    destruct Hw as [H1 H2]. split; simpl; [|assumption].
    unfold Cache.invalidateOldGenerations. now apply keysNonEmpty_deletes. }
  unfold core in Hc. injection Hc as _ _ _ Hh Hca _ _ _.
  unfold named. now rewrite Hh, Hca.
Qed.

Lemma named_enqueueAll ps w :
  Forall (fun p => Prioritizer.key p <> EmptyString) ps ->
  named w -> named (enqueueAll ps w).
Proof.
  unfold enqueueAll. intros Hps. revert w.
  induction Hps as [|p ps Hp Hps IH]; simpl; intros w Hw; [assumption|].
  apply IH. unfold enqueue.
  destruct (Cache.has _ _); [assumption|].
  destruct (_ || _); [assumption|]. simpl.
  destruct (JsMap.has _ _); simpl; [exact Hw|].
  destruct Hw as [H1 H2]. split; simpl; [assumption|].
  apply Forall_app. split; [assumption|]. repeat constructor. assumption.
Qed.

Lemma named_processViewChange bounds zoom w :
  named w -> named (processViewChange bounds zoom w).
Proof.
  intros Hw. unfold processViewChange. apply named_enqueueAll; [|assumption].
  apply Forall_forall. intros p Hin.
  rewrite (prioritizeTiles_keyed _ _ _ Hin). apply tileKey_nonempty.
Qed.

Lemma named_drainQueue queue starts w :
  named w -> named (drainQueue queue starts w).
Proof.
  revert starts w. induction queue as [|k rest IH]; intros starts w Hw;
    simpl; [assumption|].
  destruct (_ && _); [|assumption].
  assert (Hw1 : named (onLoader (setLoadQueue rest) w)) by exact Hw.
  destruct (tileOf k _) as [[a tile]|]; [|now apply IH].
  destruct (generation tile <? _); [now apply IH|].
  apply IH. destruct Hw as [H1 H2]. split; simpl; [assumption|].
  apply Forall_updateAt; auto.
Qed.

Lemma named_getTile k w : named w -> named (snd (getTile truthy k w)).
Proof.
  intros [H1 H2]. unfold getTile.
  destruct (apply_completes (Cache.OpGet k) (cache (loader w)) I H1)
    as (n & c1 & Hc1 & Hk1).
  specialize (Hc1 n (le_n n)). simpl in Hc1. injection Hc1 as Hc1.
  destruct (Cache.get k (cache (loader w))) as [[d|] c']; simpl in *;
    subst c1; [|now split].
  destruct (truthy d); [|now split].
  destruct (JsMap.get k (tiles (loader w))); simpl; [|now split].
  split; simpl; [assumption|].
  apply Forall_updateAt; [auto|]. apply Forall_updateAt; auto.
Qed.

Lemma named_walkParents fuel parent w r w' :
  named w -> walkParents truthy fuel parent w = Some (r, w') -> named w'.
Proof.
  revert parent w. induction fuel as [|fuel IH]; intros [p|] w Hw; simpl;
    try discriminate; try (now intros [= _ <-]).
  pose proof (named_getTile
                (Prioritizer.tileKey (Prioritizer.x p) (Prioritizer.y p)
                                     (Prioritizer.z p)) w Hw) as Hg.
  destruct (getTile truthy _ w) as [r1 w1]. simpl in Hg.
  match goal with |- (if ?b then _ else _) = _ -> _ => destruct b end.
  - now intros [= _ <-].
  - now apply IH.
Qed.

(** With non-empty keys the completion of a load returns. *)
Lemma settle_completes c result now w :
  named w ->
  exists n w', (forall fuel, (n <= fuel)%nat ->
                             settle fuel c result now w = Some w') /\
               named w'.
Proof.
  intros [H1 H2]. unfold settle.
  destruct (deref (callTile c) w) as [tile|] eqn:Ed;
    [|exists O, w; split; [reflexivity|now split]].
  assert (Hk : key tile <> EmptyString).
  { rewrite Forall_forall in H2. apply H2.
    unfold deref in Ed. eapply nth_error_In; eauto. }
  destruct (negb _).
  - exists O. eexists. split; [reflexivity|]. now split.
  - destruct result as [d|err].
    + destruct (apply_completes
                  (Cache.OpSet (key tile) d (estimateTileSize d)
                               (callGeneration c))
                  (cache (loader w)) Hk H1) as (n & c1 & Hc1 & Hk1).
      exists n. eexists. split.
      * intros fuel Hf. specialize (Hc1 fuel Hf). simpl in Hc1. simpl.
        rewrite Hc1. reflexivity.
      * split; simpl; [assumption|].
        repeat (apply Forall_updateAt; [auto|]). assumption.
    + exists O. eexists. split; [reflexivity|]. split; simpl; [assumption|].
      repeat (apply Forall_updateAt; [auto|]). assumption.
Qed.

(** The coordinates handed to [findLoadedParent] have a zoom level. *)
Definition validEvent (ev : event T E) : Prop :=
  match ev with
  | FindLoadedParent c => 0 <= Prioritizer.z c
  | _ => True
  end.

Lemma step_completes ev w :
  validEvent ev -> named w ->
  exists n w', (forall fuel, (n <= fuel)%nat ->
                             step truthy fuel ev w = Some w') /\
               named w'.
Proof.
  intros Hev Hw.
  destruct ev as [bounds zoom| |k| |c|a now| | | |id|i result now]; simpl.
  - exists O. eexists. split; [reflexivity|]. now apply named_updateViewport.
  - exists O. eexists. split; [reflexivity|]. unfold processQueue.
    destruct (isZooming (loader w)); [assumption|].
    now apply named_drainQueue.
  - exists O. eexists. split; [reflexivity|]. now apply named_getTile.
  - exists O, w. now split.
  - destruct (findLoadedParent_completes truthy c w Hev) as (r & w' & H).
    exists (Z.to_nat (Prioritizer.z c)), w'. split.
    + intros fuel Hf. now rewrite (H fuel Hf).
    + eapply named_walkParents; [exact Hw|]. apply (H _ (le_n _)).
  - exists O, w. now split.
  - exists O, w. now split.
  - exists O, w. now split.
  - exists O. eexists. split; [reflexivity|].
    destruct Hw as [H1 H2]. split; simpl; [constructor|assumption].
  - destruct (find _ _) as [t|]; [|exists O, w; now split].
    exists O. eexists. split; [reflexivity|].
    destruct (callback t); simpl; apply named_processViewChange; exact Hw.
  - destruct (nth_error _ _) as [c|]; [|exists O, w; now split].
    apply settle_completes. exact Hw.
Qed.

Lemma run_completes_loader evs w :
  Forall validEvent evs -> named w ->
  exists n w', forall fuel, (n <= fuel)%nat ->
                            run truthy fuel evs w = Some w'.
Proof.
  intros Hevs. revert w.
  induction Hevs as [|ev evs Hev Hevs IH]; intros w Hw.
  - exists O, w. reflexivity.
  - destruct (step_completes ev w Hev Hw) as (n1 & w1 & H1 & Hw1).
    destruct (IH w1 Hw1) as (n2 & w2 & H2).
    exists (Nat.max n1 n2), w2. intros fuel Hf. simpl.
    rewrite (H1 fuel) by lia. apply H2. lia.
Qed.

Lemma named_new cfg : named (Loader.new (T := T) (E := E) cfg).
Proof. split; simpl; constructor. Qed.
End LoaderCompletes.

(** *** Reachable states *)

Section LoaderReach.
Context {T E : Type}.
Variable truthy : T -> bool.
Import Loader.
Local Abbreviation World := (Loader.World T E).
Local Abbreviation TileData := (Loader.TileData T E).
Implicit Types (w : World) (k : string) (a : nat).

(** A state that some script of events reaches from a new loader. *)
Definition reachable (cfg : TileLoaderConfig) w : Prop :=
  exists fuel evs, run truthy fuel evs (Loader.new cfg) = Some w.

(** What the loop of [handleZoomChange] leaves alone. *)
Definition static w :=
  (loadQueue (loader w), tiles (loader w), calls w, config (loader w),
   loadGeneration (loader w), cache (loader w)).

Lemma static_cancel_all ks w :
  static (fold_left (fun w k => cancelIfStale k w) ks w) = static w.
Proof.
  revert w. induction ks as [|k ks IH]; intros w; simpl; [reflexivity|].
  rewrite IH. unfold cancelIfStale.
  destruct (tileOf k w) as [[a t]|]; [|reflexivity].
  now destruct (generation t <? loadGeneration (loader w)).
Qed.

Lemma static_handleZoomChange zoom w :
  static (handleZoomChange zoom w)
  = ([], tiles (loader w), calls w, config (loader w),
     loadGeneration (loader w) + 1,
     Cache.invalidateOldGenerations (loadGeneration (loader w) + 1)
                                    (cache (loader w))).
Proof. unfold handleZoomChange. now rewrite static_cancel_all. Qed.

(** Every queued key has a record. *)
Definition queuedKnown w : Prop :=
  forall k, In k (loadQueue (loader w)) ->
            JsMap.get k (tiles (loader w)) <> None.

Lemma queuedKnown_core w w' :
  core w' = core w -> queuedKnown w -> queuedKnown w'.
Proof.
  unfold core, queuedKnown. intros [= Hq _ Ht _ _ _ _ _] H.
  now rewrite Hq, Ht.
Qed.

Lemma queuedKnown_updateViewport bounds zoom w :
  queuedKnown w -> queuedKnown (updateViewport bounds zoom w).
Proof.
  intros Hw. eapply queuedKnown_core; [apply core_updateViewport|].
  destruct (zoom =? lastZoom (loader w)); [assumption|].
  pose proof (static_handleZoomChange zoom w) as Hs. unfold static in Hs.
  injection Hs as Hq _ _ _ _ _. unfold queuedKnown. rewrite Hq.
  intros k [].
Qed.

Lemma queuedKnown_enqueueAll ps w :
  queuedKnown w -> queuedKnown (enqueueAll ps w).
Proof.
  unfold enqueueAll. revert w.
  induction ps as [|p ps IH]; simpl; intros w Hw; [assumption|].
  apply IH. intros k Hin. rewrite enqueue_queue in Hin.
  assert (Hh : JsMap.has k (tiles (loader (enqueue p w))) = true).
  { apply enqueue_record. apply in_app_iff in Hin.
    destruct Hin as [Hin|Hin].
    - left. specialize (Hw k Hin). unfold JsMap.has.
      destruct (JsMap.get k (tiles (loader w))); congruence.
    - right. destruct (appendable (Prioritizer.key p) w) eqn:Ea;
        [|destruct Hin].
      destruct Hin as [<-|[]]. auto. }
  unfold JsMap.has in Hh.
  destruct (JsMap.get k (tiles (loader (enqueue p w)))); congruence.
Qed.

Lemma queuedKnown_drainQueue queue starts w :
  loadQueue (loader w) = queue -> queuedKnown w ->
  queuedKnown (drainQueue queue starts w).
Proof.
  revert starts w. induction queue as [|k rest IH]; intros starts w Hq Hw;
    simpl; [assumption|].
  destruct (_ && _); [|assumption].
  assert (Hw1 : queuedKnown (onLoader (setLoadQueue rest) w)).
  { intros k' Hin. simpl in *. apply Hw. rewrite Hq. now right. }
  destruct (tileOf k _) as [[a tile]|]; [|now apply IH].
  destruct (generation tile <? _); [now apply IH|].
  apply IH; [reflexivity|]. exact Hw1.
Qed.

Lemma getTile_queue k w :
  loadQueue (loader (snd (getTile truthy k w))) = loadQueue (loader w).
Proof.
  unfold getTile.
  destruct (Cache.get k (cache (loader w))) as [[d|] c']; simpl;
    [|reflexivity].
  destruct (truthy d); [|reflexivity].
  now destruct (JsMap.get k (tiles (loader w))).
Qed.

Lemma queuedKnown_getTile k w :
  queuedKnown w -> queuedKnown (snd (getTile truthy k w)).
Proof.
  unfold queuedKnown. now rewrite getTile_queue, getTile_tiles.
Qed.

Lemma queuedKnown_walkParents fuel parent w r w' :
  queuedKnown w -> walkParents truthy fuel parent w = Some (r, w') ->
  queuedKnown w'.
Proof.
  revert parent w. induction fuel as [|fuel IH]; intros [p|] w Hw; simpl;
    try discriminate; try (now intros [= _ <-]).
  pose proof (queuedKnown_getTile
                (Prioritizer.tileKey (Prioritizer.x p) (Prioritizer.y p)
                                     (Prioritizer.z p)) w Hw) as Hg.
  destruct (getTile truthy _ w) as [r1 w1]. simpl in Hg.
  match goal with |- (if ?b then _ else _) = _ -> _ => destruct b end.
  - now intros [= _ <-].
  - now apply IH.
Qed.

Lemma queuedKnown_settle fuel c result now w w' :
  queuedKnown w -> settle fuel c result now w = Some w' -> queuedKnown w'.
Proof.
  intros Hw. unfold settle.
  destruct (deref (callTile c) w) as [tile|]; [|now intros [= <-]].
  destruct (negb _); [now intros [= <-]|].
  destruct result as [d|err]; [|now intros [= <-]].
  destruct (Cache.set _ _ _ _ _ _); [|discriminate]. now intros [= <-].
Qed.

Lemma queuedKnown_step fuel ev w w' :
  queuedKnown w -> step truthy fuel ev w = Some w' -> queuedKnown w'.
Proof.
  intros Hw.
  destruct ev as [bounds zoom| |k| |c|a now| | | |id|i result now]; simpl.
  - intros [= <-]. now apply queuedKnown_updateViewport.
  - intros [= <-]. unfold processQueue.
    destruct (isZooming (loader w)); [assumption|].
    now apply queuedKnown_drainQueue.
  - intros [= <-]. now apply queuedKnown_getTile.
  - now intros [= <-].
  - unfold findLoadedParent.
    destruct (walkParents _ _ _ _) as [[r w1]|] eqn:Ew; [|discriminate].
    intros [= <-]. simpl. eapply queuedKnown_walkParents; eauto.
  - now intros [= <-].
  - now intros [= <-].
  - now intros [= <-].
  - intros [= <-]. intros k [].
  - destruct (find _ _) as [t|]; intros [= <-]; [|assumption].
    destruct (callback t); simpl; unfold processViewChange;
      apply queuedKnown_enqueueAll; exact Hw.
  - destruct (nth_error _ _) as [c|]; [|now intros [= <-]].
    apply queuedKnown_settle. exact Hw.
Qed.

Lemma named_step fuel ev w w' :
  named w -> step truthy fuel ev w = Some w' -> named w'.
Proof.
  intros Hw.
  destruct ev as [bounds zoom| |k| |c|a now| | | |id|i result now]; simpl.
  - intros [= <-]. now apply named_updateViewport.
  - intros [= <-]. unfold processQueue.
    destruct (isZooming (loader w)); [assumption|].
    now apply named_drainQueue.
  - intros [= <-]. now apply named_getTile.
  - now intros [= <-].
  - unfold findLoadedParent.
    destruct (walkParents _ _ _ _) as [[r w1]|] eqn:Ew; [|discriminate].
    intros [= <-]. simpl. eapply named_walkParents; eauto.
  - now intros [= <-].
  - now intros [= <-].
  - now intros [= <-].
  - intros [= <-]. destruct Hw as [H1 H2].
    split; simpl; [constructor|assumption].
  - destruct (find _ _) as [t|]; intros [= <-]; [|assumption].
    destruct (callback t); simpl; apply named_processViewChange; exact Hw.
  - destruct (nth_error (calls w) i) as [c|]; [|now intros [= <-]].
    intros Hs.
    destruct (settle_completes c result now
                (setCalls (removeNth i (calls w)) w))
      as (n & w1 & H1 & Hn); [exact Hw|].
    specialize (H1 (Nat.max n fuel) (Nat.le_max_l _ _)).
    enough (settle (Nat.max n fuel) c result now
                   (setCalls (removeNth i (calls w)) w) = Some w')
      by congruence.
    revert Hs. unfold settle.
    destruct (deref _ _) as [tile|]; [|auto].
    destruct (negb _); [auto|].
    destruct result as [d|err]; [|auto].
    destruct (Cache.set fuel _ _ _ _ _) as [c'|] eqn:Es; [|discriminate].
    rewrite (set_mono _ (Nat.max n fuel) _ _ _ _ _ _ Es (Nat.le_max_r _ _)).
    auto.
Qed.

(** What every reachable state satisfies. *)
Record sound (cfg : TileLoaderConfig) w : Prop := mkSound {
  snd_queue : queueSound w;
  snd_current : current w;
  snd_bounded : boundedBy cfg w;
  snd_timers : timersSound w;
  snd_named : named w;
  snd_queued : queuedKnown w
}.

Lemma sound_step cfg fuel ev w w' :
  sound cfg w -> step truthy fuel ev w = Some w' -> sound cfg w'.
Proof.
  intros [H1 H2 H3 H4 H5 H6] Hs. split.
  - eapply queueSound_step; eauto.
  - eapply current_step; eauto.
  - eapply boundedBy_step; eauto.
  - eapply timersSound_step; eauto.
  - eapply named_step; eauto.
  - eapply queuedKnown_step; eauto.
Qed.

Lemma reachable_sound cfg w : reachable cfg w -> sound cfg w.
Proof.
  intros (fuel & evs & Hr).
  assert (H0 : sound cfg (Loader.new (T := T) (E := E) cfg)).
  { split.
    - apply queueSound_new.
    - apply current_new.
    - split; [reflexivity|]. simpl. unfold JsSet.size. simpl. lia.
    - apply timersSound_new.
    - apply named_new.
    - intros k []. }
  revert Hr H0. generalize (Loader.new (T := T) (E := E) cfg).
  induction evs as [|ev evs IH]; simpl; intros w0 Hr H0.
  - now injection Hr as <-.
  - destruct (step truthy fuel ev w0) as [w1|] eqn:Es; [|discriminate].
    apply (IH w1 Hr). eapply sound_step; eauto.
Qed.

Lemma config_updateViewport bounds zoom w :
  config (loader (updateViewport bounds zoom w)) = config (loader w).
Proof.
  pose proof (core_updateViewport bounds zoom w) as Hc. unfold core in Hc.
  injection Hc as _ _ _ _ _ Hc _ _. rewrite Hc.
  destruct (zoom =? lastZoom (loader w)); [reflexivity|].
  pose proof (static_handleZoomChange zoom w) as Hs. unfold static in Hs.
  now injection Hs.
Qed.

Lemma find_armed id (t : Timer) before after :
  timerId t = id ->
  (forall t', In t' before -> timerId t' <> id) ->
  find (fun t => Nat.eqb (timerId t) id) (before ++ t :: after) = Some t.
Proof.
  intros Ht. induction before as [|t0 before IH]; simpl; intros Hb.
  - now rewrite Ht, Nat.eqb_refl.
  - destruct (Nat.eqb_spec (timerId t0) id) as [He|Hne].
    + exfalso. apply (Hb t0); auto.
    + apply IH. intros t' Hin. apply Hb. now right.
Qed.

Lemma clearOpt_app o l1 l2 :
  clearOpt o (l1 ++ l2) = clearOpt o l1 ++ clearOpt o l2.
Proof. destruct o; simpl; [apply filter_app|reflexivity]. Qed.
End LoaderReach.

(** ** The tile loader: further properties *)

Lemma loadingOrigin_reachable :
  reachable truthyNumber Loader.DEFAULT_CONFIG loadingOrigin.
Proof. exists 0%nat. eexists. exact loadingOrigin_reached. Qed.

(** X18 (queue discipline).  In every state that a script of events
    reaches from a new loader, the load queue has no repeated key, no
    queued key is being loaded, and every key that is queued or being
    loaded has a record in the tile map, which carries that key. *)
Theorem queue_discipline (T E : Type) (truthy : T -> bool)
        (cfg : Loader.TileLoaderConfig) (w : Loader.World T E) :
  reachable truthy cfg w ->
  NoDup (Loader.loadQueue (Loader.loader w)) /\
  (forall k, In k (Loader.loadQueue (Loader.loader w)) ->
             ~ In k (Loader.loadingTiles (Loader.loader w))) /\
  (forall k, In k (Loader.loadQueue (Loader.loader w))
             \/ In k (Loader.loadingTiles (Loader.loader w)) ->
             exists a t, Loader.tileOf k w = Some (a, t) /\ Loader.key t = k).
Proof.
  intros Hr. destruct (reachable_sound truthy cfg w Hr)
    as [[Q1 Q2 Q3] [_ _ C3 _] _ _ _ Q6].
  split; [exact Q1|]. split; [exact Q2|].
  intros k Hk.
  assert (Hg : JsMap.get k (Loader.tiles (Loader.loader w)) <> None)
    by (destruct Hk; auto).
  unfold Loader.tileOf, Loader.deref.
  destruct (JsMap.get k (Loader.tiles (Loader.loader w))) as [a|] eqn:Eg;
    [|congruence].
  destruct (Q3 _ _ Eg) as (t & Ht & Hkey). rewrite Ht. eauto.
Qed.

Lemma queue_discipline_witness :
  NoDup (Loader.loadQueue (Loader.loader loadingOrigin)) /\
  (forall k, In k (Loader.loadQueue (Loader.loader loadingOrigin)) ->
             ~ In k (Loader.loadingTiles (Loader.loader loadingOrigin))) /\
  (forall k, In k (Loader.loadQueue (Loader.loader loadingOrigin))
             \/ In k (Loader.loadingTiles (Loader.loader loadingOrigin)) ->
             exists a t, Loader.tileOf k loadingOrigin = Some (a, t)
                         /\ Loader.key t = k).
Proof.
  apply (queue_discipline Z string truthyNumber Loader.DEFAULT_CONFIG).
  exists 0%nat. eexists. exact loadingOrigin_reached.
Defined.

(** X19 (bounded concurrency).  In every reachable state the configuration
    is the one given to the constructor and the number of keys in
    [loadingTiles] is at most [maxConcurrentLoads] (at most 0 when that is
    negative). *)
Theorem concurrent_loads_bounded (T E : Type) (truthy : T -> bool)
        (cfg : Loader.TileLoaderConfig) (w : Loader.World T E) :
  reachable truthy cfg w ->
  Loader.config (Loader.loader w) = cfg /\
  JsSet.size (Loader.loadingTiles (Loader.loader w))
    <= Z.max 0 (Loader.maxConcurrentLoads cfg).
Proof.
  intros Hr. destruct (reachable_sound truthy cfg w Hr) as [_ _ H _ _ _].
  exact H.
Qed.

Lemma concurrent_loads_bounded_witness :
  Loader.config (Loader.loader loadingOrigin) = Loader.DEFAULT_CONFIG /\
  JsSet.size (Loader.loadingTiles (Loader.loader loadingOrigin)) <= Z.max 0 4.
Proof.
  apply (concurrent_loads_bounded Z string truthyNumber Loader.DEFAULT_CONFIG).
  exists 0%nat. eexists. exact loadingOrigin_reached.
Defined.

(** X20 (frame pacing).  One call of [processQueue] takes keys off the
    front of the queue and starts loads for some of them: the calls of
    [loadTileCallback] it makes are appended to the running ones, there
    are at most [maxStartsPerFrame] of them and no more than keys taken,
    and none is for a record of a generation before the current one.
    While [isZooming] is set the call does nothing at all. *)
Theorem processQueue_paced (T E : Type) (w : Loader.World T E) :
  exists started taken,
    Loader.calls (Loader.processQueue w) = Loader.calls w ++ started /\
    Loader.loadQueue (Loader.loader w)
    = taken ++ Loader.loadQueue (Loader.loader (Loader.processQueue w)) /\
    Z.of_nat (List.length started)
      <= Z.max 0 (Loader.maxStartsPerFrame (Loader.config (Loader.loader w))) /\
    (List.length started <= List.length taken)%nat /\
    Forall (fun c => Loader.loadGeneration (Loader.loader w)
                     <= Loader.callGeneration c) started /\
    (Loader.isZooming (Loader.loader w) = true ->
     Loader.processQueue w = w).
Proof.
  unfold Loader.processQueue.
  destruct (Loader.isZooming (Loader.loader w)).
  - exists [], []. rewrite app_nil_r. simpl.
    repeat split; try lia; constructor.
  - destruct (drainQueue_starts (Loader.loadQueue (Loader.loader w)) 0 w
                eq_refl) as (st & tk & H1 & H2 & H3 & H4 & H5).
    exists st, tk. rewrite Z.sub_0_r in H3.
    repeat split; try assumption. discriminate.
Qed.

(** X21 (a zoom change starts afresh).  When [updateViewport] is called
    on a reachable state with a zoom level other than [lastZoom], it
    leaves the queue, the set of loading keys and the cache empty (total
    size 0), raises [loadGeneration] by one and sets [isZooming]; the
    tile map and the calls that are still running are untouched. *)
Theorem zoom_change_resets (T E : Type) (truthy : T -> bool)
        (cfg : Loader.TileLoaderConfig) (w : Loader.World T E)
        (bounds : Prioritizer.Bounds) (zoom : Z) :
  reachable truthy cfg w ->
  zoom <> Loader.lastZoom (Loader.loader w) ->
  let w' := Loader.updateViewport bounds zoom w in
  Loader.loadQueue (Loader.loader w') = [] /\
  Loader.loadingTiles (Loader.loader w') = [] /\
  Cache.entries (Loader.cache (Loader.loader w')) = [] /\
  Cache.totalSize (Loader.cache (Loader.loader w')) = 0 /\
  Loader.loadGeneration (Loader.loader w')
  = Loader.loadGeneration (Loader.loader w) + 1 /\
  Loader.lastZoom (Loader.loader w') = zoom /\
  Loader.isZooming (Loader.loader w') = true /\
  Loader.tiles (Loader.loader w') = Loader.tiles (Loader.loader w) /\
  Loader.calls w' = Loader.calls w.
Proof.
  intros Hr Hz. cbv zeta.
  destruct (reachable_sound truthy cfg w Hr) as [[_ _ Q3] Hc _ _ _ _].
  pose proof (core_updateViewport bounds zoom w) as Hcore.
  apply Z.eqb_neq in Hz. rewrite Hz in Hcore. apply Z.eqb_neq in Hz.
  unfold core in Hcore. injection Hcore as E1 E2 E3 _ E5 _ E7 E8.
  pose proof (static_handleZoomChange zoom w) as Hs. unfold static in Hs.
  injection Hs as S1 S2 S3 _ S5 S6.
  pose proof (shell_updateViewport_zoom bounds zoom w Hz) as Hsh.
  unfold shell in Hsh. injection Hsh as _ _ _ _ Hiz Hlz.
  pose proof (current_handleZoomChange zoom w Hc) as Hc'.
  assert (Hent : Cache.entries (Loader.cache (Loader.loader
                   (Loader.handleZoomChange zoom w))) = []).
  { rewrite S6. apply invalidate_all; [apply Hc|apply Hc]. }
  rewrite E1, E2, E3, E5, E7, E8, S1, S2, S3, S5.
  repeat split; try assumption.
  - now apply handleZoomChange_loading.
  - rewrite (wf_total _ (cur_wf _ Hc')), Hent. reflexivity.
Qed.

Lemma zoom_change_resets_witness :
  Loader.loadingTiles
    (Loader.loader (Loader.updateViewport origin 1 loadingOrigin)) = [] /\
  Loader.loadGeneration
    (Loader.loader (Loader.updateViewport origin 1 loadingOrigin)) = 1 + 1.
Proof.
  destruct (zoom_change_resets Z string truthyNumber Loader.DEFAULT_CONFIG
              loadingOrigin origin 1) as (_ & H2 & _ & _ & H5 & _).
  - exists 0%nat. eexists. exact loadingOrigin_reached.
  - vm_compute. discriminate.
  - split; [exact H2|]. rewrite H5. vm_compute. reflexivity.
Defined.

(** X22 (the cache follows the generation).  In every reachable state all
    cache entries carry the current [loadGeneration] and their own key,
    cache keys are unique, the tracked total is the sum of the entry
    sizes, and no record of the tile map is of a later generation than
    the loader. *)
Theorem cache_follows_generation (T E : Type) (truthy : T -> bool)
        (cfg : Loader.TileLoaderConfig) (w : Loader.World T E) :
  reachable truthy cfg w ->
  Forall (fun ke =>
            Cache.generation (snd ke) = Loader.loadGeneration (Loader.loader w)
            /\ Cache.key (snd ke) = fst ke)
         (Cache.entries (Loader.cache (Loader.loader w))) /\
  NoDup (Cache.keys (Loader.cache (Loader.loader w))) /\
  Cache.totalSize (Loader.cache (Loader.loader w))
  = sumSizes (Cache.entries (Loader.cache (Loader.loader w))) /\
  (forall k a t, Loader.tileOf k w = Some (a, t) ->
                 Loader.generation t <= Loader.loadGeneration (Loader.loader w)).
Proof.
  intros Hr.
  destruct (reachable_sound truthy cfg w Hr) as [_ [C1 C2 _ C4] _ _ _ _].
  destruct C1 as [W1 W2 W3 _ _]. repeat split; try assumption.
  - rewrite Forall_forall in *. intros ke Hin. split; [apply C2|apply W2];
      assumption.
  - intros k a t. unfold Loader.tileOf, Loader.deref.
    destruct (JsMap.get k (Loader.tiles (Loader.loader w))) as [a'|] eqn:Eg;
      [|discriminate].
    destruct (nth_error (Loader.heap w) a') as [t'|] eqn:En; [|discriminate].
    intros [= <- <-]. eapply C4; eauto.
Qed.

Lemma cache_follows_generation_witness :
  NoDup (Cache.keys (Loader.cache (Loader.loader loadingOrigin))) /\
  (forall k a t, Loader.tileOf k loadingOrigin = Some (a, t) ->
                 Loader.generation t
                 <= Loader.loadGeneration (Loader.loader loadingOrigin)).
Proof.
  destruct (cache_follows_generation Z string truthyNumber
              Loader.DEFAULT_CONFIG loadingOrigin) as (_ & H2 & _ & H4).
  - exists 0%nat. eexists. exact loadingOrigin_reached.
  - split; assumption.
Defined.

(** X23 (fallback parent).  For a tile at a zoom level [z >= 0],
    [findLoadedParent] returns after at most [z] lookups.  It returns
    either nothing or the record that the tile map holds for a proper
    ancestor of the tile, and that record is [LOADED] with truthy data.
    The tile map is as before. *)
Theorem findLoadedParent_finds_ancestor
        (T E : Type) (truthy : T -> bool) (c : Prioritizer.TileCoord)
        (w : Loader.World T E) :
  0 <= Prioritizer.z c ->
  exists r w',
    (forall fuel, (Z.to_nat (Prioritizer.z c) <= fuel)%nat ->
                  Loader.findLoadedParent truthy fuel c w = Some (r, w')) /\
    Loader.tiles (Loader.loader w') = Loader.tiles (Loader.loader w) /\
    match r with
    | None => True
    | Some a =>
        exists n q tile,
          nthParent (S n) c = Some q /\
          JsMap.get (Prioritizer.tileKey (Prioritizer.x q) (Prioritizer.y q)
                                         (Prioritizer.z q))
                    (Loader.tiles (Loader.loader w)) = Some a /\
          Loader.deref a w' = Some tile /\
          Loader.state tile = Loader.LOADED /\
          Loader.truthyData truthy tile = true
    end.
Proof.
  intros Hz.
  destruct (findLoadedParent_completes truthy c w Hz) as (r & w' & H).
  exists r, w'. split; [exact H|].
  specialize (H _ (le_n _)). unfold Loader.findLoadedParent in H.
  split; [eapply walkParents_tiles; eauto|].
  destruct r as [a|]; [|exact I].
  destruct (Prioritizer.getParentTile c) as [p|] eqn:Ep.
  - pose proof (walkParents_tiles _ _ _ _ _ _ H) as Ht.
    destruct (walkParents_sound _ _ _ _ _ _ H)
      as (n & q & tile & H1 & H2 & H3 & H4).
    exists n, q, tile. simpl. rewrite Ep, <- Ht.
    unfold drawable in H4. apply andb_prop in H4. destruct H4 as [H4 H5].
    repeat split; try assumption.
    destruct (Loader.state tile); simpl in H4; congruence.
  - destruct (Z.to_nat (Prioritizer.z c)); simpl in H; discriminate.
Qed.

Lemma findLoadedParent_finds_ancestor_witness :
  exists r w',
    Loader.findLoadedParent truthyNumber 3 (Prioritizer.mkCoord 5 2 3)
                            loadingOrigin = Some (r, w') /\
    Loader.tiles (Loader.loader w') = Loader.tiles (Loader.loader loadingOrigin).
Proof.
  destruct (findLoadedParent_finds_ancestor Z string truthyNumber
              (Prioritizer.mkCoord 5 2 3) loadingOrigin)
    as (r & w' & H1 & H2 & _).
  - simpl. lia.
  - exists r, w'. split; [apply H1; simpl; lia|exact H2].
Defined.

(** X24 (a completed load is served).  In a reachable state let a running
    call settle with data while its generation is the current one and its
    record is the one the tile map holds for its key.  Then the completion
    returns (for every fuel from some bound on), the key is no longer
    loading and is in the cache, and [getTile] on the key returns that
    record: [LOADED], holding the data, stamped with the completion
    time. *)
Theorem completed_load_is_served
        (T E : Type) (truthy : T -> bool) (cfg : Loader.TileLoaderConfig)
        (i : nat) (c : Loader.Call) (d : T) (now : Z)
        (w : Loader.World T E) (tile : Loader.TileData T E) :
  reachable truthy cfg w ->
  nth_error (Loader.calls w) i = Some c ->
  Loader.deref (Loader.callTile c) w = Some tile ->
  Loader.callGeneration c = Loader.loadGeneration (Loader.loader w) ->
  JsMap.get (Loader.key tile) (Loader.tiles (Loader.loader w))
  = Some (Loader.callTile c) ->
  exists n w1 t',
    (forall fuel, (n <= fuel)%nat ->
       Loader.step truthy fuel (Loader.CallSettles i (inl d) now) w
       = Some w1) /\
    ~ In (Loader.key tile) (Loader.loadingTiles (Loader.loader w1)) /\
    Cache.has (Loader.key tile) (Loader.cache (Loader.loader w1)) = true /\
    fst (Loader.getTile truthy (Loader.key tile) w1)
    = Some (Loader.callTile c) /\
    Loader.deref (Loader.callTile c)
                 (snd (Loader.getTile truthy (Loader.key tile) w1))
    = Some t' /\
    Loader.state t' = Loader.LOADED /\
    Loader.data t' = Some d /\
    Loader.loadTime t' = Some now.
Proof.
  intros Hr Hc Hd Hg Hm.
  destruct (reachable_sound truthy cfg w Hr) as [_ [Hwf _ _ _] _ _ Hn _].
  set (w0 := Loader.setCalls (Loader.removeNth i (Loader.calls w)) w).
  destruct (settle_completes c (inl d) now w0 Hn) as (n & w1 & Hs & _).
  destruct (settle_success n c d now w0 w1 tile Hwf Hd Hg (Hs n (le_n n)))
    as (D1 & (stamp & D2) & D3 & D4 & _).
  destruct (getTile_cached truthy (Loader.key tile) w1 (Loader.callTile c)
              _ _ D2 (eq_trans (f_equal (JsMap.get (Loader.key tile)) D4) Hm)
              D1)
    as (t' & G1 & G2 & G3 & G4 & G5 & _).
  { intros _. simpl. auto. }
  exists n, w1, t'. repeat split; try assumption.
  - intros fuel Hf. simpl. rewrite Hc. apply Hs. exact Hf.
  - rewrite D3. apply jsset_not_In_delete.
  - unfold Cache.has, JsMap.has. now rewrite D2.
Qed.

Lemma completed_load_is_served_witness :
  exists n w1 t',
    (forall fuel, (n <= fuel)%nat ->
       Loader.step truthyNumber fuel (Loader.CallSettles 0 (inl 42) 1000)
                   loadingOrigin = Some w1) /\
    fst (Loader.getTile truthyNumber "0/0/0" w1) = Some 0%nat /\
    Loader.deref 0 (snd (Loader.getTile truthyNumber "0/0/0" w1)) = Some t' /\
    Loader.state t' = Loader.LOADED /\ Loader.data t' = Some 42.
Proof.
  destruct (completed_load_is_served Z string truthyNumber
              Loader.DEFAULT_CONFIG 0
              (Loader.mkCall 0 (Prioritizer.mkCoord 0 0 0) 1) 42 1000
              loadingOrigin
              (Loader.mkTile (Prioritizer.mkCoord 0 0 0) "0/0/0"
                             Loader.LOADING None None None 1))
    as (n & w1 & t' & H1 & _ & _ & H4 & H5 & H6 & H7 & _).
  - exists 0%nat. eexists. exact loadingOrigin_reached.
  - vm_compute. reflexivity.
  - vm_compute. reflexivity.
  - vm_compute. reflexivity.
  - vm_compute. reflexivity.
  - exists n, w1, t'. auto.
Defined.

(** X25 (pan debounce).  When [updateViewport] is called on a reachable
    state with the zoom level unchanged, exactly one pan timer is pending
    afterwards: the one just armed, with the new bounds and the configured
    delay.  Queue, loading keys, cache, generation and [isZooming] are as
    before. *)
Theorem pan_debounce_keeps_latest
        (T E : Type) (truthy : T -> bool) (cfg : Loader.TileLoaderConfig)
        (w : Loader.World T E) (bounds : Prioritizer.Bounds) (zoom : Z) :
  reachable truthy cfg w ->
  zoom = Loader.lastZoom (Loader.loader w) ->
  let w' := Loader.updateViewport bounds zoom w in
  let armed := Loader.mkTimer (Loader.nextTimerId w) (Loader.panDebounceMs cfg)
                              (Loader.PanDebounced bounds zoom) in
  In armed (Loader.timers w') /\
  (forall t, In t (Loader.timers w') -> isPan (Loader.callback t) = true ->
             t = armed) /\
  Loader.panDebounceTimer (Loader.loader w') = Some (Loader.nextTimerId w) /\
  Loader.loadQueue (Loader.loader w') = Loader.loadQueue (Loader.loader w) /\
  Loader.loadingTiles (Loader.loader w')
  = Loader.loadingTiles (Loader.loader w) /\
  Loader.cache (Loader.loader w') = Loader.cache (Loader.loader w) /\
  Loader.loadGeneration (Loader.loader w')
  = Loader.loadGeneration (Loader.loader w) /\
  Loader.isZooming (Loader.loader w') = Loader.isZooming (Loader.loader w).
Proof.
  intros Hr Hz. cbv zeta.
  destruct (reachable_sound truthy cfg w Hr) as [_ _ [Hcfg _] Ht _ _].
  pose proof (shell_updateViewport_pan bounds zoom w Hz) as Hsh.
  unfold shell in Hsh. injection Hsh as S1 _ S3 _ S5 _.
  pose proof (core_updateViewport bounds zoom w) as Hcore.
  replace (zoom =? Loader.lastZoom (Loader.loader w)) with true in Hcore
    by (symmetry; now apply Z.eqb_eq).
  unfold core in Hcore. injection Hcore as E1 E2 _ _ E5 _ E7 _.
  rewrite S1, Hcfg. repeat split; try assumption.
  - apply in_app_iff. right. now left.
  - intros t Hin Hp. apply in_app_iff in Hin.
    destruct Hin as [Hin|[<-|[]]]; [|reflexivity].
    apply clearOpt_In in Hin.
    rewrite (no_pan_after_clear w t Ht Hin) in Hp. discriminate.
Qed.

Lemma pan_debounce_keeps_latest_witness :
  In (Loader.mkTimer 2 50 (Loader.PanDebounced origin 0))
     (Loader.timers (Loader.updateViewport origin 0 loadingOrigin)) /\
  (forall t, In t (Loader.timers (Loader.updateViewport origin 0 loadingOrigin))
             -> isPan (Loader.callback t) = true ->
             t = Loader.mkTimer 2 50 (Loader.PanDebounced origin 0)).
Proof.
  destruct (pan_debounce_keeps_latest Z string truthyNumber
              Loader.DEFAULT_CONFIG loadingOrigin origin 0)
    as (H1 & H2 & _).
  - exists 0%nat. eexists. exact loadingOrigin_reached.
  - vm_compute. reflexivity.
  - split; [exact H1|exact H2].
Defined.

(** X26 (zoom timers are not cancelled by zoom changes).  After two
    consecutive zoom changes on a reachable state both zoom timers are
    pending.  When the older one fires it clears [isZooming] and queues
    the tiles of its own, outdated, viewport while the newer one is still
    pending. *)
Theorem zoom_timers_accumulate
        (T E : Type) (truthy : T -> bool) (cfg : Loader.TileLoaderConfig)
        (w : Loader.World T E) (b1 b2 : Prioritizer.Bounds) (z1 z2 : Z)
        (fuel : nat) :
  reachable truthy cfg w ->
  z1 <> Loader.lastZoom (Loader.loader w) ->
  z2 <> z1 ->
  let w' := Loader.updateViewport b2 z2 (Loader.updateViewport b1 z1 w) in
  let older := Loader.mkTimer (Loader.nextTimerId w) (Loader.zoomDebounceMs cfg)
                              (Loader.ZoomDebounced b1 z1) in
  let newer := Loader.mkTimer (S (Loader.nextTimerId w))
                              (Loader.zoomDebounceMs cfg)
                              (Loader.ZoomDebounced b2 z2) in
  let fired :=
    Loader.processViewChange b1 z1
      (Loader.onLoader (Loader.setIsZooming false)
         (Loader.clearTimeout (Loader.nextTimerId w) w')) in
  In older (Loader.timers w') /\ In newer (Loader.timers w') /\
  Loader.step truthy fuel (Loader.TimerFires (Loader.nextTimerId w)) w'
  = Some fired /\
  Loader.isZooming (Loader.loader fired) = false /\
  Loader.lastZoom (Loader.loader fired) = z2 /\
  In newer (Loader.timers fired).
Proof.
  intros Hr Hz1 Hz2. cbv zeta.
  destruct (reachable_sound truthy cfg w Hr) as [_ _ [Hcfg _] Ht _ _].
  set (w1 := Loader.updateViewport b1 z1 w).
  pose proof (shell_updateViewport_zoom b1 z1 w Hz1) as S1.
  fold w1 in S1. unfold shell in S1.
  injection S1 as T1 N1 P1 _ _ L1.
  assert (Hz2' : z2 <> Loader.lastZoom (Loader.loader w1)) by congruence.
  pose proof (shell_updateViewport_zoom b2 z2 w1 Hz2') as S2.
  unfold shell in S2. injection S2 as T2 _ _ _ I2 L2.
  assert (C1 : Loader.config (Loader.loader w1) = cfg)
    by (unfold w1; now rewrite config_updateViewport).
  rewrite C1, N1, P1, T1, clearOpt_app in T2. rewrite Hcfg in T2.
  set (older := Loader.mkTimer (Loader.nextTimerId w)
                  (Loader.zoomDebounceMs cfg) (Loader.ZoomDebounced b1 z1))
    in *.
  set (newer := Loader.mkTimer (S (Loader.nextTimerId w))
                  (Loader.zoomDebounceMs cfg) (Loader.ZoomDebounced b2 z2))
    in *.
  assert (Hkeep : clearOpt (Loader.panDebounceTimer (Loader.loader w)) [older]
                  = [older]).
  { destruct (Loader.panDebounceTimer (Loader.loader w)) as [id|] eqn:Ep;
      [|reflexivity].
    pose proof (ts_pan_id _ Ht _ Ep) as Hlt. simpl.
    destruct (Nat.eqb_spec (Loader.nextTimerId w) id); [lia|reflexivity]. }
  rewrite Hkeep in T2.
  set (before := clearOpt (Loader.panDebounceTimer (Loader.loader w))
                   (clearOpt (Loader.panDebounceTimer (Loader.loader w))
                             (Loader.timers w))) in *.
  assert (Hin1 : In older (Loader.timers (Loader.updateViewport b2 z2 w1))).
  { rewrite T2. apply in_app_iff. left. apply in_app_iff. right. now left. }
  assert (Hin2 : In newer (Loader.timers (Loader.updateViewport b2 z2 w1))).
  { rewrite T2. apply in_app_iff. right. now left. }
  assert (Hfind : find (fun t => Nat.eqb (Loader.timerId t)
                                         (Loader.nextTimerId w))
                       (Loader.timers (Loader.updateViewport b2 z2 w1))
                  = Some older).
  { rewrite T2, <- app_assoc. simpl. apply find_armed; [reflexivity|].
    intros t' Hin. unfold before in Hin.
    apply clearOpt_In, clearOpt_In in Hin.
    pose proof (ts_fresh _ Ht _ Hin). lia. }
  pose proof (shell_timerFires (Loader.nextTimerId w) older _ Hfind) as S3.
  simpl Loader.callback in S3. simpl Loader.runCallback in S3.
  unfold shell in S3. injection S3 as T3 _ _ _ I3 L3.
  repeat split; try assumption.
  - simpl. now rewrite Hfind.
  - congruence.
  - rewrite T3. apply clearId_In. split; [exact Hin2|]. simpl. lia.
Qed.

Lemma zoom_timers_accumulate_witness :
  In (Loader.mkTimer 1 150 (Loader.ZoomDebounced origin 0))
     (Loader.timers
        (Loader.updateViewport origin 1
           (Loader.updateViewport origin 0
              (Loader.new (T := Z) (E := string) Loader.DEFAULT_CONFIG)))) /\
  In (Loader.mkTimer 2 150 (Loader.ZoomDebounced origin 1))
     (Loader.timers
        (Loader.updateViewport origin 1
           (Loader.updateViewport origin 0
              (Loader.new (T := Z) (E := string) Loader.DEFAULT_CONFIG)))).
Proof.
  destruct (zoom_timers_accumulate Z string truthyNumber Loader.DEFAULT_CONFIG
              (Loader.new Loader.DEFAULT_CONFIG) origin origin 0 1 0)
    as (H1 & H2 & _).
  - exists 0%nat, []. reflexivity.
  - simpl. lia.
  - lia.
  - split; [exact H1|exact H2].
Defined.

(** A loader on which a pan arrived while the first zoom change was still
    debouncing, after its pan timer fired and a frame was processed. *)
Definition suspendedOrigin : Loader.World Z string :=
  Loader.processQueue
    (Loader.enqueue originTile
       (Loader.clearTimeout 2
          (Loader.updateViewport origin 0
             (Loader.updateViewport origin 0
                (Loader.new Loader.DEFAULT_CONFIG))))).

Lemma suspendedOrigin_reached :
  Loader.run truthyNumber 0 [Loader.TimerFires 2; Loader.ProcessQueue]
    (Loader.updateViewport origin 0
       (Loader.updateViewport origin 0 (Loader.new Loader.DEFAULT_CONFIG)))
  = Some suspendedOrigin.
Proof. timer_step. method_step. unfold suspendedOrigin. reflexivity. Qed.

(** X27 (a pan during the zoom debounce suspends loading).  Take a state
    with no zoom timer pending and change the zoom level; if
    [updateViewport] is called again with the same zoom level before the
    zoom timer fires, that timer is cancelled and [isZooming] stays set.
    From then on, whatever happens short of another zoom change,
    [processQueue] does nothing and no load is started. *)
Theorem pan_during_zoom_debounce_suspends
        (T E : Type) (truthy : T -> bool) (fuel : nat)
        (b1 b2 : Prioritizer.Bounds) (zoom : Z)
        (evs : list (Loader.event T E)) (w w' : Loader.World T E) :
  (forall t, In t (Loader.timers w) -> isPan (Loader.callback t) = true) ->
  zoom <> Loader.lastZoom (Loader.loader w) ->
  Forall (keepsZoom zoom) evs ->
  Loader.run truthy fuel evs
    (Loader.updateViewport b2 zoom (Loader.updateViewport b1 zoom w))
  = Some w' ->
  Loader.isZooming (Loader.loader w') = true /\
  Loader.processQueue w' = w' /\
  (List.length (Loader.calls w') <= List.length (Loader.calls w))%nat.
Proof.
  intros Hp Hz Hevs Hrun.
  set (w1 := Loader.updateViewport b1 zoom w) in *.
  pose proof (shell_updateViewport_zoom b1 zoom w Hz) as S1.
  fold w1 in S1. unfold shell in S1. injection S1 as T1 _ _ Z1 I1 L1.
  pose proof (shell_updateViewport_pan b2 zoom w1 (eq_sym L1)) as S2.
  unfold shell in S2. injection S2 as T2 _ _ _ I2 L2.
  set (w2 := Loader.updateViewport b2 zoom w1) in *.
  assert (Hs : suspended w2).
  { split; [congruence|]. rewrite T2. intros t Hin.
    apply in_app_iff in Hin. destruct Hin as [Hin|[<-|[]]]; [|reflexivity].
    rewrite Z1 in Hin. simpl in Hin. apply clearId_In in Hin.
    destruct Hin as [Hin Hid]. apply clearOpt_In in Hin.
    rewrite T1 in Hin. apply in_app_iff in Hin.
    destruct Hin as [Hin|[<-|[]]].
    - apply Hp. eapply clearOpt_In; eauto.
    - simpl in Hid. congruence. }
  assert (Hc : Loader.calls w2 = Loader.calls w).
  { pose proof (core_updateViewport b2 zoom w1) as C2.
    pose proof (core_updateViewport b1 zoom w) as C1.
    fold w1 in C1. fold w2 in C2.
    rewrite L1, Z.eqb_refl in C2.
    apply Z.eqb_neq in Hz. rewrite Hz in C1.
    unfold core in C1, C2.
    injection C1 as _ _ _ _ _ _ _ C1. injection C2 as _ _ _ _ _ _ _ C2.
    pose proof (static_handleZoomChange zoom w) as Hst. unfold static in Hst.
    injection Hst as _ _ Hst _ _ _. congruence. }
  rewrite <- L2 in Hevs.
  destruct (suspended_run truthy fuel evs w2 w' Hs Hevs Hrun) as [[H1 _] H2].
  rewrite Hc in H2. split; [exact H1|]. split; [|exact H2].
  unfold Loader.processQueue. now rewrite H1.
Qed.

Lemma pan_during_zoom_debounce_suspends_witness :
  Loader.isZooming (Loader.loader suspendedOrigin) = true /\
  Loader.processQueue suspendedOrigin = suspendedOrigin /\
  (List.length (Loader.calls suspendedOrigin) <= 0)%nat.
Proof.
  apply (pan_during_zoom_debounce_suspends Z string truthyNumber 0
           origin origin 0 [Loader.TimerFires 2; Loader.ProcessQueue]
           (Loader.new Loader.DEFAULT_CONFIG) suspendedOrigin).
  - intros t [].
  - simpl. lia.
  - repeat constructor.
  - exact suspendedOrigin_reached.
Defined.

(** X29 (what gets queued).  [processViewChange] appends to the queue
    exactly the keys of the visible tiles that are neither cached, nor
    queued, nor being loaded, in the order [prioritizeTiles] gives them,
    each once; every appended key has a record afterwards; cache, loading
    keys, generation and running calls are untouched.  Calling it again
    with the same viewport changes nothing. *)
Theorem processViewChange_appends_missing
        (T E : Type) (bounds : Prioritizer.Bounds) (zoom : Z)
        (w : Loader.World T E) :
  let prioritized :=
    Prioritizer.prioritizeTiles
      (Prioritizer.getVisibleTiles bounds zoom)
      (Prioritizer.getViewportCenterTile bounds zoom) in
  let added :=
    filter (fun k => appendable k w) (map Prioritizer.key prioritized) in
  let w' := Loader.processViewChange bounds zoom w in
  Loader.loadQueue (Loader.loader w')
  = Loader.loadQueue (Loader.loader w) ++ added /\
  NoDup added /\
  (forall k, In k added ->
             JsMap.has k (Loader.tiles (Loader.loader w')) = true) /\
  Loader.cache (Loader.loader w') = Loader.cache (Loader.loader w) /\
  Loader.loadingTiles (Loader.loader w')
  = Loader.loadingTiles (Loader.loader w) /\
  Loader.loadGeneration (Loader.loader w')
  = Loader.loadGeneration (Loader.loader w) /\
  Loader.calls w' = Loader.calls w /\
  Loader.processViewChange bounds zoom w' = w'.
Proof.
  cbv zeta. unfold Loader.processViewChange.
  set (ps := Prioritizer.prioritizeTiles _ _).
  assert (Hnd : NoDup (map Prioritizer.key ps)).
  { apply prioritizeTiles_keys_NoDup, getVisibleTiles_NoDup. }
  split; [now apply enqueueAll_queue|].
  split; [now apply NoDup_filter|].
  split.
  - intros k Hin. apply filter_In in Hin. destruct Hin as [Hin Ha].
    clear Hnd. revert w Ha. unfold Loader.enqueueAll.
    induction ps as [|p ps IH]; simpl in *; [tauto|]. intros w Ha.
    assert (Hrec : forall qs (w0 : Loader.World T E),
              JsMap.has k (Loader.tiles (Loader.loader w0)) = true ->
              JsMap.has k (Loader.tiles (Loader.loader
                (fold_left (fun w p => Loader.enqueue p w) qs w0))) = true).
    { clear. induction qs as [|q qs IHq]; simpl; intros w0 H; [assumption|].
      apply IHq. apply enqueue_record. now left. }
    destruct Hin as [<-|Hin].
    + apply Hrec. apply enqueue_record. right. auto.
    + destruct (appendable k (Loader.enqueue p w)) eqn:Ea.
      * now apply IH.
      * rewrite appendable_enqueue, Ha in Ea. simpl in Ea.
        apply Bool.negb_false_iff, andb_prop in Ea. destruct Ea as [Ep Ek].
        apply String.eqb_eq in Ek. subst k.
        apply Hrec. apply enqueue_record. right. auto.
  - assert (Hrest :
      Loader.cache (Loader.loader (Loader.enqueueAll ps w))
      = Loader.cache (Loader.loader w) /\
      Loader.loadingTiles (Loader.loader (Loader.enqueueAll ps w))
      = Loader.loadingTiles (Loader.loader w) /\
      Loader.loadGeneration (Loader.loader (Loader.enqueueAll ps w))
      = Loader.loadGeneration (Loader.loader w) /\
      Loader.calls (Loader.enqueueAll ps w) = Loader.calls w).
    { generalize ps. clear. intros ps. unfold Loader.enqueueAll. revert w.
      induction ps as [|p ps IH]; simpl; intros w; [auto|].
      destruct (IH (Loader.enqueue p w)) as (H1 & H2 & H3 & H4).
      destruct (enqueue_cache_loading p w) as (E1 & E2 & E3 & E4).
      rewrite H1, H2, H3, H4. auto. }
    destruct Hrest as (H1 & H2 & H3 & H4).
    repeat split; try assumption. apply enqueueAll_idem.
Qed.

(** X30 (every method returns).  From a new loader every script of events
    runs to completion, provided the coordinates given to
    [findLoadedParent] have a zoom level that is not negative: the
    eviction loop of the cache, entered when a load completes, always
    ends, because the keys the loader stores are never empty. *)
Theorem loader_methods_return
        (T E : Type) (truthy : T -> bool) (cfg : Loader.TileLoaderConfig)
        (evs : list (Loader.event T E)) :
  Forall validEvent evs ->
  exists n w, forall fuel, (n <= fuel)%nat ->
                           Loader.run truthy fuel evs (Loader.new cfg) = Some w.
Proof.
  intros Hevs. apply run_completes_loader; [assumption|apply named_new].
Qed.

Lemma loader_methods_return_witness :
  exists n w, forall fuel, (n <= fuel)%nat ->
    Loader.run truthyNumber fuel
      [Loader.UpdateViewport origin 0; Loader.TimerFires 1;
       Loader.ProcessQueue; Loader.CallSettles 0 (inl 42) 1000;
       Loader.FindLoadedParent (Prioritizer.mkCoord 5 2 3)]
      (Loader.new (T := Z) (E := string) Loader.DEFAULT_CONFIG) = Some w.
Proof.
  apply (loader_methods_return Z string truthyNumber Loader.DEFAULT_CONFIG).
  repeat constructor. simpl. lia.
Defined.

(** ** Breadth-first prioritization *)

Section BfsFacts.
Import Prioritizer.
Import Bfs.
Variable tileSet : JsSet.t.
Variable centerKey : string.
Hypothesis tileSet_NoDup : NoDup tileSet.

Lemma jsset_has_add k k' s :
  JsSet.has k' (JsSet.add k s) = JsSet.has k' s || String.eqb k' k.
Proof.
  unfold JsSet.add. destruct (JsSet.has k s) eqn:Eh.
  - destruct (String.eqb_spec k' k) as [->|Hne].
    + now rewrite Eh.
    + now rewrite Bool.orb_false_r.
  - unfold JsSet.has. rewrite existsb_app. simpl.
    now rewrite Bool.orb_false_r.
Qed.

Lemma jsset_add_NoDup k s : NoDup s -> NoDup (JsSet.add k s).
Proof.
  intros Hs. unfold JsSet.add. destruct (JsSet.has k s) eqn:Eh; [assumption|].
  apply jsset_has_false in Eh. apply NoDup_app; [assumption| |].
  - repeat constructor. auto.
  - intros x Hx [<-|[]]. contradiction.
Qed.

(** The keys a tile of the queue can have. *)
Definition universe : list string := JsSet.add centerKey tileSet.

Lemma universe_NoDup : NoDup universe.
Proof. now apply jsset_add_NoDup. Qed.

Lemma universe_In k : In k universe <-> In k tileSet \/ k = centerKey.
Proof. apply jsset_In_add. Qed.

Definition unvisited (v : JsSet.t) : list string :=
  filter (fun k => negb (JsSet.has k v)) universe.

Definition measure (st : State) : nat :=
  (4 * List.length (unvisited (visited st)) + List.length (queue st))%nat.

Lemma unvisited_add k v :
  In k universe -> JsSet.has k v = false ->
  S (List.length (unvisited (JsSet.add k v))) = List.length (unvisited v).
Proof.
  unfold unvisited. generalize universe_NoDup.
  induction universe as [|k0 ks IH]; simpl; [tauto|].
  intros Hnd Hin Hv. inversion Hnd as [|? ? Hn Hr]; subst.
  rewrite jsset_has_add.
  destruct Hin as [->|Hin].
  - rewrite Hv, String.eqb_refl. simpl. f_equal. f_equal.
    apply filter_ext_in. intros k' Hk'. rewrite jsset_has_add.
    destruct (String.eqb_spec k' k) as [->|Hne]; [contradiction|].
    now rewrite Bool.orb_false_r.
  - destruct (String.eqb_spec k0 k) as [->|Hne]; [contradiction|].
    rewrite Bool.orb_false_r.
    destruct (JsSet.has k0 v); simpl; [now apply IH|].
    f_equal. now apply IH.
Qed.

(** What holds of the loop state before and after every iteration;
    [d] bounds the distances handed out so far. *)
Record invariant (d : Z) (st : State) : Prop := mkInvariant {
  inv_queue : Forall (fun t => In (keyOf t) universe) (queue st);
  inv_keys : NoDup (map key (result st));
  inv_result :
    Forall (fun p => In (key p) (visited st) /\ In (key p) tileSet /\
                     key p = keyOf (coord p) /\ 0 <= distance p <= d)
           (result st);
  inv_sorted : StronglySorted (fun p q => distance p <= distance q) (result st)
}.

Lemma invariant_mono d d' st : d <= d' -> invariant d st -> invariant d' st.
Proof.
  intros Hd [H1 H2 H3 H4]. split; try assumption.
  eapply Forall_impl; [|exact H3]. simpl. intros p (A & B & C & D).
  repeat split; try assumption; lia.
Qed.

Lemma StronglySorted_snoc {A : Type} (R : A -> A -> Prop) l x :
  StronglySorted R l -> Forall (fun a => R a x) l ->
  StronglySorted R (l ++ [x]).
Proof.
  induction 1 as [|a l Hl IH Ha]; simpl; intros Hx.
  - repeat constructor.
  - inversion Hx; subst. constructor; [now apply IH|].
    apply Forall_app. split; [assumption|]. repeat constructor. assumption.
Qed.

Lemma visit_invariant d st :
  0 <= d -> invariant d st -> invariant d (visit tileSet d st).
Proof.
  intros Hd Hi. unfold visit.
  destruct (queue st) as [|tile rest] eqn:Eq; [exact Hi|].
  destruct Hi as [H1 H2 H3 H4]. rewrite Eq in H1.
  inversion H1 as [|? ? Ht Hrest]; subst.
  destruct (JsSet.has (keyOf tile) (visited st)) eqn:Ev;
    [split; simpl; assumption|].
  assert (Hvis : Forall (fun p =>
            In (key p) (JsSet.add (keyOf tile) (visited st)) /\
            In (key p) tileSet /\ key p = keyOf (coord p) /\
            0 <= distance p <= d) (result st)).
  { eapply Forall_impl; [|exact H3]. simpl. intros p (A & B & C & D).
    repeat split; try assumption; try lia. apply jsset_In_add. now left. }
  assert (Hq : Forall (fun t => In (keyOf t) universe)
                 (rest ++ filter (fun n =>
                    negb (JsSet.has (keyOf n)
                            (JsSet.add (keyOf tile) (visited st)))
                    && JsSet.has (keyOf n) tileSet) (neighbors tile))).
  { apply Forall_app. split; [assumption|].
    apply Forall_forall. intros n Hn. apply filter_In in Hn.
    destruct Hn as [_ Hn]. apply andb_prop in Hn. destruct Hn as [_ Hn].
    apply universe_In. left. now apply jsset_has_In. }
  destruct (JsSet.has (keyOf tile) tileSet) eqn:Es; split; simpl;
    try assumption.
  - rewrite map_app. simpl. apply NoDup_app; [assumption| |].
    + repeat constructor. auto.
    + intros k Hk [<-|[]]. apply in_map_iff in Hk.
      destruct Hk as (p & Hp & Hin). rewrite Forall_forall in H3.
      destruct (H3 p Hin) as (A & _). rewrite Hp in A.
      apply jsset_has_false in Ev. contradiction.
  - apply Forall_app. split; [assumption|]. repeat constructor; simpl.
    + apply jsset_In_add. now right.
    + now apply jsset_has_In.
    + assumption.
    + lia.
  - apply StronglySorted_snoc; [assumption|].
    eapply Forall_impl; [|exact H3]. simpl. intros p (_ & _ & _ & D). lia.
Qed.

Lemma visit_measure d st :
  invariant d st ->
  match queue st with
  | [] => visit tileSet d st = st
  | _ :: _ => (measure (visit tileSet d st) < measure st)%nat
  end.
Proof.
  intros [H1 _ _ _]. unfold visit, measure.
  destruct (queue st) as [|tile rest] eqn:Eq; [reflexivity|].
  inversion H1 as [|? ? Ht Hrest]; subst.
  destruct (JsSet.has (keyOf tile) (visited st)) eqn:Ev; simpl; [lia|].
  pose proof (unvisited_add _ _ Ht Ev) as Hu.
  match goal with
  | |- context [rest ++ ?l] =>
      assert (Hf : (List.length l <= 4)%nat);
        [|rewrite length_app; lia]
  end.
  repeat match goal with
         | |- context [if ?b then _ else _] => destruct b; simpl
         end; lia.
Qed.

Lemma visit_prefix d st :
  exists more, result (visit tileSet d st) = result st ++ more.
Proof.
  unfold visit. destruct (queue st) as [|tile rest];
    [exists []; now rewrite app_nil_r|].
  destruct (JsSet.has (keyOf tile) (visited st)); simpl;
    [exists []; now rewrite app_nil_r|].
  destruct (JsSet.has (keyOf tile) tileSet); simpl;
    [eexists; reflexivity|exists []; now rewrite app_nil_r].
Qed.

Lemma level_facts n d st :
  0 <= d -> invariant d st ->
  invariant d (level n tileSet d st) /\
  (measure (level n tileSet d st) <= measure st)%nat /\
  (exists more, result (level n tileSet d st) = result st ++ more).
Proof.
  intros Hd. revert st. induction n as [|n IH]; intros st Hi; simpl.
  - split; [assumption|]. split; [lia|]. exists []. now rewrite app_nil_r.
  - pose proof (visit_invariant d st Hd Hi) as Hv.
    destruct (IH _ Hv) as (I1 & I2 & (m2 & I3)).
    destruct (visit_prefix d st) as (m1 & Hp).
    pose proof (visit_measure d st Hi) as Hm.
    split; [assumption|]. split.
    + destruct (queue st); [rewrite Hm in I2 |- *; exact I2|lia].
    + exists (m1 ++ m2). now rewrite I3, Hp, app_assoc.
Qed.

Lemma level_measure d st :
  0 <= d -> invariant d st -> queue st <> [] ->
  (measure (level (List.length (queue st)) tileSet d st) < measure st)%nat.
Proof.
  intros Hd Hi Hq. destruct (queue st) as [|t rest] eqn:Eq; [congruence|].
  simpl. pose proof (visit_measure d st Hi) as Hm. rewrite Eq in Hm.
  destruct (level_facts (List.length rest) d _ Hd (visit_invariant d st Hd Hi))
    as (_ & H2 & _).
  lia.
Qed.

(** The loop ends, and what it returns. *)
Lemma loop_completes m :
  forall d st, 0 <= d -> invariant d st -> (measure st <= m)%nat ->
  exists r more,
    (forall fuel, (m < fuel)%nat -> loop fuel tileSet d st = Some r) /\
    r = result st ++ more /\
    NoDup (map key r) /\
    Forall (fun p => In (key p) tileSet /\ key p = keyOf (coord p) /\
                     0 <= distance p) r /\
    StronglySorted (fun p q => distance p <= distance q) r.
Proof.
  induction m as [|m IH]; intros d st Hd Hi Hm.
  - assert (Hq : queue st = []).
    { unfold measure in Hm. destruct (queue st); [reflexivity|simpl in Hm; lia]. }
    exists (result st), []. destruct Hi as [H1 H2 H3 H4].
    rewrite app_nil_r. repeat split; try assumption.
    + intros [|fuel] _; simpl; now rewrite Hq.
    + eapply Forall_impl; [|exact H3]. simpl. intros p (_ & B & C & D).
      repeat split; try assumption; lia.
  - destruct (queue st) as [|t rest] eqn:Eq.
    + exists (result st), []. destruct Hi as [H1 H2 H3 H4].
      rewrite app_nil_r. repeat split; try assumption.
      * intros [|fuel] _; simpl; now rewrite Eq.
      * eapply Forall_impl; [|exact H3]. simpl. intros p (_ & B & C & D).
        repeat split; try assumption; lia.
    + assert (Hne : queue st <> []) by congruence.
      pose proof (level_measure d st Hd Hi Hne) as Hlt.
      destruct (level_facts (List.length (queue st)) d st Hd Hi)
        as (I1 & _ & (m1 & I3)).
      destruct (IH (d + 1)
                   (level (List.length (queue st)) tileSet d st))
        as (r & m2 & R1 & R2 & R3 & R4 & R5);
        [lia|eapply invariant_mono; [|exact I1]; lia|lia|].
      exists r, (m1 ++ m2). repeat split; try assumption.
      * intros [|fuel] Hf; [lia|]. simpl. rewrite Eq.
        rewrite <- Eq. apply R1. lia.
      * now rewrite R2, I3, app_assoc.
Qed.
End BfsFacts.

Section BfsResult.
Import Prioritizer.
Import Bfs.

Lemma keySet_facts tiles :
  NoDup (keySet tiles) /\
  (forall k, In k (keySet tiles) <-> exists t, In t tiles /\ keyOf t = k) /\
  (List.length (keySet tiles) <= List.length tiles)%nat.
Proof.
  unfold keySet.
  assert (H : forall s,
            NoDup s ->
            NoDup (fold_left (fun s t => JsSet.add (keyOf t) s) tiles s) /\
            (forall k, In k (fold_left (fun s t => JsSet.add (keyOf t) s)
                                       tiles s)
                       <-> In k s \/ exists t, In t tiles /\ keyOf t = k) /\
            (List.length (fold_left (fun s t => JsSet.add (keyOf t) s) tiles s)
             <= List.length s + List.length tiles)%nat).
  { induction tiles as [|t tiles IH]; intros s Hs; simpl.
    - split; [assumption|]. split; [|lia]. intros k. split; [auto|].
      intros [H|(t & [] & _)]. assumption.
    - destruct (IH (JsSet.add (keyOf t) s) (jsset_add_NoDup _ _ Hs))
        as (I1 & I2 & I3).
      split; [assumption|]. split.
      + intros k. rewrite I2, jsset_In_add. split.
        * intros [[H|H]|(t' & H1 & H2)]; eauto.
        * intros [H|(t' & [<-|H1] & H2)]; eauto.
      + pose proof (jsset_size_add (keyOf t) s) as Ha.
        unfold JsSet.size in Ha. lia. }
  destruct (H [] (NoDup_nil _)) as (H1 & H2 & H3).
  split; [assumption|]. split; [|simpl in H3; lia].
  intros k. rewrite H2. simpl. tauto.
Qed.

Lemma keyOf_inj t t' : keyOf t = keyOf t' -> t = t'.
Proof.
  destruct t as [x y z], t' as [x' y' z']. unfold keyOf. simpl. intros H.
  apply tileKey_inj in H. destruct H as (-> & -> & ->). reflexivity.
Qed.

Lemma keySet_In tiles t : In (keyOf t) (keySet tiles) <-> In t tiles.
Proof.
  destruct (keySet_facts tiles) as (_ & H & _). rewrite H. split.
  - intros (t' & Hin & Hk). apply keyOf_inj in Hk. now subst.
  - intros Hin. eauto.
Qed.
End BfsResult.

(** X28 (breadth-first order).  [prioritizeTilesBFS tiles center] ends
    within [4 * tiles.length + 6] rounds of its [while] loop.  Its
    result holds tiles of [tiles] only, each at most once and with its own
    key, and the distances never decrease along it.  When the center is
    one of the tiles it comes first, at distance 0.  Unlike
    [prioritizeTiles] the function does not return every tile: when
    neither the center nor any of its four neighbours is among the tiles
    the result is empty. *)
Theorem prioritizeTilesBFS_result
        (tiles : list Prioritizer.TileCoord) (center : Prioritizer.TileCoord) :
  exists result,
    (forall fuel, (4 * List.length tiles + 6 <= fuel)%nat ->
                  Bfs.prioritizeTilesBFS fuel tiles center = Some result) /\
    NoDup (map Prioritizer.key result) /\
    Forall (fun p => In (Prioritizer.coord p) tiles /\
                     Prioritizer.key p = Bfs.keyOf (Prioritizer.coord p) /\
                     0 <= Prioritizer.distance p) result /\
    StronglySorted
      (fun p q => Prioritizer.distance p <= Prioritizer.distance q) result /\
    (In center tiles ->
     exists rest,
       result = Prioritizer.mkPrioritized center (Bfs.keyOf center) 0 :: rest) /\
    (~ In center tiles ->
     (forall n, In n (Bfs.neighbors center) -> ~ In n tiles) ->
     result = []).
Proof.
  set (S0 := Bfs.keySet tiles). set (ck := Bfs.keyOf center).
  destruct (keySet_facts tiles) as (Hnd & Hin & Hlen). fold S0 in Hnd, Hin, Hlen.
  set (st0 := Bfs.mkState [] [] [center]).
  set (st1 := Bfs.visit S0 0 st0).
  assert (Hi0 : invariant S0 ck 0 st0).
  { split; simpl; try constructor.
    - apply universe_In. now right.
    - constructor. }
  assert (Hm0 : (measure S0 ck st0 <= 4 * List.length tiles + 5)%nat).
  { unfold measure, unvisited. simpl.
    match goal with
    | |- context [filter ?f ?l] => pose proof (filter_length_le f l) as Hf
    end.
    pose proof (jsset_size_add ck S0) as Ha. unfold JsSet.size in Ha.
    unfold universe in *. lia. }
  pose proof (visit_invariant S0 ck 0 st0 (Z.le_refl 0) Hi0) as Hi1.
  fold st1 in Hi1.
  pose proof (visit_measure S0 ck Hnd 0 st0 Hi0) as Hm1.
  simpl in Hm1. fold st1 in Hm1.
  destruct (loop_completes S0 ck Hnd (4 * List.length tiles + 4) 1 st1)
    as (r & more & R1 & R2 & R3 & R4 & R5);
    [lia|eapply invariant_mono; [|exact Hi1]; lia|lia|].
  exists r. repeat split; try assumption.
  - intros [|fuel] Hf; [lia|]. unfold Bfs.prioritizeTilesBFS.
    fold S0. fold st0. simpl. fold st1. apply R1. lia.
  - eapply Forall_impl; [|exact R4]. simpl. intros p (A & B & C).
    split; [|split; assumption]. apply keySet_In. fold S0.
    unfold Bfs.keyOf in *. now rewrite <- B.
  - intros Hc. exists more. rewrite R2. unfold st1, Bfs.visit. simpl.
    fold ck.
    replace (JsSet.has ck S0) with true
      by (symmetry; apply jsset_has_In, keySet_In; exact Hc).
    reflexivity.
  - intros Hc Hn.
    assert (Hs : JsSet.has ck S0 = false).
    { apply jsset_has_false. intros H. apply keySet_In in H. contradiction. }
    assert (Hq : st1 = Bfs.mkState [ck] [] []).
    { unfold st1, Bfs.visit. simpl. fold ck. rewrite Hs. f_equal.
      assert (Hf : forall n, In n (Bfs.neighbors center) ->
                             JsSet.has (Bfs.keyOf n) S0 = false).
      { intros n Hin'. apply jsset_has_false. intros H.
        apply keySet_In in H. exact (Hn n Hin' H). }
      unfold Bfs.neighbors in *.
      rewrite !Hf by (simpl; auto). rewrite !Bool.andb_false_r. reflexivity. }
    specialize (R1 (S (4 * List.length tiles + 4)) ltac:(lia)).
    rewrite Hq in R1. simpl in R1. now injection R1 as <-.
Qed.
